(** * vc-convertor: the vCard to CSV converter

    A shallow embedding of [src/lib/vcf-converter.ts], in its two revisions:
    - the fixed-schema converter (nine named slots per contact), module
      [Fixed];
    - the dynamic-schema converter (one column per field label met), module
      [Dynamic].

    Modelling choices.
    - A JavaScript string is the list of its UTF-16 code units ([str]).
      String literals of the source are written [lit "..."]; the control
      characters and the double quote are named code units ([LF], [CR],
      [DQUOTE]).
    - An object used as a dictionary is an association list of its own
      properties in creation order ([Dict]); a key is a string.  A read goes
      through the prototype chain ([Proto]): [fieldMapping[fieldType]] and the
      [contact[field]] of [convertToCSV], whose keys can name a member of
      [Object.prototype] ([constructor], [toString], ...), are modelled with
      it.  The keys under which [parseVCard] reads and writes [fieldCounts]
      and [contact] never name one (lemmas [normalizeFieldName_own] and
      [finalFieldName_own]), and these reads look at the own properties.
    - The case conversions and the collation of the host ([toUpperCase],
      [toLowerCase], [localeCompare]) depend on the Unicode tables and on the
      locale: the dynamic converter is parameterised by them. *)

From Stdlib Require Import Strings.String Strings.Ascii.
From Stdlib Require Import List NArith ZArith Bool Arith Lia.
From Stdlib Require Import Sorting.Permutation Sorting.Sorted.
Import ListNotations.

(** ** JavaScript strings *)

Module JS.

Definition char := N.
Definition str := list char.

Definition lit (s : string) : str := map N_of_ascii (list_ascii_of_string s).

Definition TAB : char := 9%N.
Definition LF : char := 10%N.
Definition CR : char := 13%N.
Definition SPACE : char := 32%N.
Definition DQUOTE : char := 34%N.
Definition COMMA : char := 44%N.
Definition COLON : char := 58%N.
Definition SEMI : char := 59%N.
Definition EQUALS : char := 61%N.

Definition str_eqb (a b : str) : bool :=
  if list_eq_dec N.eq_dec a b then true else false.

(** Truthiness of a string: only the empty string is falsy. *)
Definition truthy (s : str) : bool :=
  match s with [] => false | _ :: _ => true end.

(** [a || b] on strings. *)
Definition orElse (a b : str) : str := if truthy a then a else b.

(** LineTerminator of ECMAScript: what [.] of a regular expression refuses. *)
Definition isLineTerminator (c : char) : bool :=
  ((c =? 10) || (c =? 13) || (c =? 8232) || (c =? 8233))%N.

(** WhiteSpace and LineTerminator of ECMAScript: what [trim] strips. *)
Definition isWhiteSpace (c : char) : bool :=
  ((c =? 9) || (c =? 11) || (c =? 12) || (c =? 32) || (c =? 160)
   || (c =? 5760) || ((8192 <=? c) && (c <=? 8202)) || (c =? 8239)
   || (c =? 8287) || (c =? 12288) || (c =? 65279))%N
  || isLineTerminator c.

Fixpoint dropWhile (p : char -> bool) (s : str) : str :=
  match s with
  | [] => []
  | c :: s' => if p c then dropWhile p s' else s
  end.

Fixpoint takeWhile (p : char -> bool) (s : str) : str :=
  match s with
  | [] => []
  | c :: s' => if p c then c :: takeWhile p s' else []
  end.

Definition trimStart (s : str) : str := dropWhile isWhiteSpace s.
Definition trimEnd (s : str) : str := rev (dropWhile isWhiteSpace (rev s)).
Definition trim (s : str) : str := trimEnd (trimStart s).

(** The characters other than [c]. *)
Definition differs (c : char) : char -> bool := fun d => negb (d =? c)%N.

(** [s.startsWith(p)] *)
Fixpoint startsWith (p s : str) : bool :=
  match p, s with
  | [], _ => true
  | _ :: _, [] => false
  | a :: p', b :: s' => (a =? b)%N && startsWith p' s'
  end.

(** [s.includes(p)] *)
Fixpoint includes (p s : str) : bool :=
  startsWith p s || match s with [] => false | _ :: s' => includes p s' end.

(** [s.indexOf(c)] for a one-character needle; [None] stands for -1. *)
Fixpoint indexOf (c : char) (s : str) : option nat :=
  match s with
  | [] => None
  | d :: s' => if (d =? c)%N then Some 0
               else option_map S (indexOf c s')
  end.

(** [s.substring(i, j)] and [s.substring(i)] for in-range indices. *)
Definition substring (i j : nat) (s : str) : str := firstn (j - i) (skipn i s).
Definition substringFrom (i : nat) (s : str) : str := skipn i s.

(** [s.split(c)] for a one-character separator: never the empty array. *)
Fixpoint splitAux (c : char) (acc : str) (s : str) : list str :=
  match s with
  | [] => [rev acc]
  | d :: s' => if (d =? c)%N then rev acc :: splitAux c [] s'
               else splitAux c (d :: acc) s'
  end.

Definition split (c : char) (s : str) : list str := splitAux c [] s.

(** [parts.join(sep)] *)
Fixpoint join (sep : str) (parts : list str) : str :=
  match parts with
  | [] => []
  | [p] => p
  | p :: ps => p ++ sep ++ join sep ps
  end.

(** [parts.slice(1)] *)
Definition slice1 {A : Type} (l : list A) : list A := tl l.

(** [parts[i]] on an array of strings, [None] for undefined. *)
Definition at_ (i : nat) (l : list str) : option str := nth_error l i.

(** [x || ''] where [x] may be undefined. *)
Definition orEmpty (x : option str) : str :=
  match x with Some s => s | None => [] end.

(** [s.split(/\r\n|\r|\n/)] *)
Fixpoint splitLinesAux (acc : str) (s : str) : list str :=
  match s with
  | [] => [rev acc]
  | c :: s' =>
      if (c =? CR)%N then
        match s' with
        | d :: s'' => if (d =? LF)%N then rev acc :: splitLinesAux [] s''
                      else rev acc :: splitLinesAux [] s'
        | [] => rev acc :: splitLinesAux [] s'
        end
      else if (c =? LF)%N then rev acc :: splitLinesAux [] s'
      else splitLinesAux (c :: acc) s'
  end.

Definition splitLines (s : str) : list str := splitLinesAux [] s.

(** Decimal text of a count, as a template literal prints it. *)
Fixpoint digits (u : Decimal.uint) : str :=
  match u with
  | Decimal.Nil => []
  | Decimal.D0 u => 48%N :: digits u
  | Decimal.D1 u => 49%N :: digits u
  | Decimal.D2 u => 50%N :: digits u
  | Decimal.D3 u => 51%N :: digits u
  | Decimal.D4 u => 52%N :: digits u
  | Decimal.D5 u => 53%N :: digits u
  | Decimal.D6 u => 54%N :: digits u
  | Decimal.D7 u => 55%N :: digits u
  | Decimal.D8 u => 56%N :: digits u
  | Decimal.D9 u => 57%N :: digits u
  end.

Definition numberToString (n : N) : str := digits (N.to_uint n).

(** Case folding of a regular expression with the [i] flag and without the
    [u] flag, restricted to what decides a match against an ASCII pattern
    character: a code unit outside ASCII never folds into ASCII, and inside
    ASCII the fold is the upper-case letter. *)
Definition canonicalize (c : char) : char :=
  if ((97 <=? c) && (c <=? 122))%N then (c - 32)%N else c.

(** An occurrence of the ASCII pattern [p] at the start of [s], in any
    letter-casing. *)
Fixpoint startsWithCI (p s : str) : bool :=
  match p, s with
  | [], _ => true
  | _ :: _, [] => false
  | a :: p', b :: s' => (canonicalize a =? canonicalize b)%N && startsWithCI p' s'
  end.

Definition MARKER : str := lit "BEGIN:VCARD".

(** A character that can open a marker: [B] in either casing. *)
Definition opens (c : char) : bool := (canonicalize 66 =? canonicalize c)%N.

(** [s.split(/BEGIN:VCARD/i)]: the scan goes left to right; at a match the
    text gathered so far closes a segment and the scan resumes after the
    matched text ([skip] counts the matched characters still to pass). *)
Fixpoint splitMarkerAux (skip : nat) (acc : str) (s : str) : list str :=
  match s with
  | [] => [rev acc]
  | c :: s' =>
      match skip with
      | S k => splitMarkerAux k acc s'
      | O => if startsWithCI MARKER s
             then rev acc :: splitMarkerAux (length MARKER - 1) [] s'
             else splitMarkerAux 0 (c :: acc) s'
      end
  end.

Definition splitMarker (s : str) : list str := splitMarkerAux 0 [] s.

End JS.

Import JS.

(** ** parseName (the same text in both revisions) *)

Definition parseName (fullName : str) : str * str :=
  let parts := split SPACE (trim fullName) in
  let firstName := orEmpty (at_ 0 parts) in
  let lastName := orElse (join [SPACE] (slice1 parts)) [] in
  (firstName, lastName).


(** ** The fixed-schema converter *)

Module Fixed.

Record Contact := mkContact {
  firstName : str;
  lastName : str;
  phone1 : str;
  phone2 : str;
  phone3 : str;
  email1 : str;
  email2 : str;
  email3 : str;
  addresses : str
}.

(** The first capture group of [/P[^:]*:(.+)/] tried right after an occurrence
    of the literal [P]: [rest] is the text that follows [P].  The class
    [[^:]*] runs up to the first colon and cannot stop earlier; [(.+)] takes
    the longest run of characters that are not line terminators and needs at
    least one. *)
Definition captureAfter (rest : str) : option str :=
  match indexOf COLON rest with
  | None => None
  | Some i =>
      let group := takeWhile (fun c => negb (isLineTerminator c)) (skipn (S i) rest) in
      if truthy group then Some group else None
  end.

(** [s.match(/P[^:]*:(.+)/)], the leftmost match; the result is the capture
    group [match[1]], [None] when there is no match. *)
Fixpoint matchField (P : str) (s : str) : option str :=
  match (if startsWith P s then captureAfter (skipn (length P) s) else None) with
  | Some group => Some group
  | None => match s with
            | [] => None
            | _ :: s' => matchField P s'
            end
  end.

(** The local variables of [parseVCard] that its loop updates
    ([addressList] is the local [addresses]). *)
Record Locals := mkLocals {
  fullName : str;
  phoneNumbers : list str;
  emails : list str;
  addressList : list str
}.

Definition initial : Locals := mkLocals [] [] [] [].

(** One iteration of the loop over the lines. *)
Definition step (st : Locals) (line : str) : Locals :=
  let trimmedLine := trim line in
  if startsWith (lit "FN:") trimmedLine then
    mkLocals (substringFrom 3 trimmedLine) (phoneNumbers st) (emails st) (addressList st)
  else if startsWith (lit "TEL:") trimmedLine || includes (lit "TEL;") trimmedLine then
    match matchField (lit "TEL") trimmedLine with
    | Some phoneMatch =>
        mkLocals (fullName st) (phoneNumbers st ++ [trim phoneMatch]) (emails st) (addressList st)
    | None => st
    end
  else if startsWith (lit "EMAIL:") trimmedLine || includes (lit "EMAIL;") trimmedLine then
    match matchField (lit "EMAIL") trimmedLine with
    | Some emailMatch =>
        mkLocals (fullName st) (phoneNumbers st) (emails st ++ [trim emailMatch]) (addressList st)
    | None => st
    end
  else if startsWith (lit "ADR:") trimmedLine || includes (lit "ADR;") trimmedLine then
    match matchField (lit "ADR") trimmedLine with
    | Some adrMatch =>
        let addrParts := filter (fun part => truthy (trim part)) (split SEMI adrMatch) in
        if 0 <? length addrParts then
          mkLocals (fullName st) (phoneNumbers st) (emails st)
                   (addressList st ++ [join (lit ", ") addrParts])
        else st
    | None => st
    end
  else st.

Definition finish (st : Locals) : Contact :=
  let '(firstName, lastName) := parseName (fullName st) in
  mkContact firstName lastName
    (orEmpty (at_ 0 (phoneNumbers st)))
    (orEmpty (at_ 1 (phoneNumbers st)))
    (orEmpty (at_ 2 (phoneNumbers st)))
    (orEmpty (at_ 0 (emails st)))
    (orEmpty (at_ 1 (emails st)))
    (orEmpty (at_ 2 (emails st)))
    (join (lit ", ") (addressList st)).

Definition run (lines : list str) : Locals := fold_left step lines initial.

(** The phone values and the email values that the lines of a block
    contribute, each line taken on its own, in line order. *)
Definition phonesOf (lines : list str) : list str :=
  flat_map (fun line => phoneNumbers (step initial line)) lines.

Definition emailsOf (lines : list str) : list str :=
  flat_map (fun line => emails (step initial line)) lines.

(** What the loop body does with one line, read branch by branch.  A line is
    of a type when, trimmed, it starts with the type and a colon or holds the
    type and a semicolon somewhere; what it gives is the first capture of the
    pattern of the type, trimmed, when the pattern matches. *)
Definition ofType (type trimmedLine : str) : bool :=
  startsWith (type ++ [COLON]) trimmedLine || includes (type ++ [SEMI]) trimmedLine.

Definition captured (type trimmedLine : str) : list str :=
  match matchField type trimmedLine with
  | Some group => [trim group]
  | None => []
  end.

(** The phone that a line contributes: the line is no full-name line and is
    of type TEL. *)
Definition phoneOf (line : str) : list str :=
  let trimmedLine := trim line in
  if startsWith (lit "FN:") trimmedLine then []
  else if ofType (lit "TEL") trimmedLine then captured (lit "TEL") trimmedLine
  else [].

(** The email that a line contributes: the line is no full-name line, is not
    of type TEL, and is of type EMAIL. *)
Definition emailOf (line : str) : list str :=
  let trimmedLine := trim line in
  if startsWith (lit "FN:") trimmedLine then []
  else if ofType (lit "TEL") trimmedLine then []
  else if ofType (lit "EMAIL") trimmedLine then captured (lit "EMAIL") trimmedLine
  else [].

Definition parseVCard (vcardText : str) : Contact :=
  finish (run (splitLines vcardText)).

Definition parseVCF (vcfContent : str) : list Contact :=
  let vcardBlocks := slice1 (splitMarker vcfContent) in
  fold_left (fun contacts block => contacts ++ [parseVCard (lit "BEGIN:VCARD" ++ block)])
            vcardBlocks [].

Definition headers : list str :=
  [lit "First Name"; lit "Last Name"; lit "Phone 1"; lit "Phone 2"; lit "Phone 3";
   lit "Email 1"; lit "Email 2"; lit "Email 3"; lit "Addresses"].

(** The template literal that wraps a value in double quotes. *)
Definition quoted (v : str) : str := [DQUOTE] ++ v ++ [DQUOTE].

Definition row (contact : Contact) : list str :=
  [quoted (firstName contact); quoted (lastName contact);
   quoted (phone1 contact); quoted (phone2 contact); quoted (phone3 contact);
   quoted (email1 contact); quoted (email2 contact); quoted (email3 contact);
   quoted (addresses contact)].

Definition convertToCSV (contacts : list Contact) : str :=
  let csvLines :=
    fold_left (fun csvLines contact => csvLines ++ [join [COMMA] (row contact)])
              contacts [join [COMMA] headers] in
  join [LF] csvLines.

End Fixed.

(** ** Objects used as dictionaries *)

Module Dict.

Section Dict.
Variable V : Type.

(** Own properties, in creation order. *)
Definition t := list (str * V).

Definition empty : t := [].

(** The own property [k] of [d], [None] when it has none. *)
Fixpoint get (d : t) (k : str) : option V :=
  match d with
  | [] => None
  | (k', v) :: d' => if str_eqb k' k then Some v else get d' k
  end.

(** [d[k] = v]: an existing property keeps its place, a new one goes last. *)
Fixpoint set (d : t) (k : str) (v : V) : t :=
  match d with
  | [] => [(k, v)]
  | (k', v') :: d' => if str_eqb k' k then (k', v) :: d'
                      else (k', v') :: set d' k v
  end.

End Dict.

Arguments empty {V}.
Arguments get {V} d k.
Arguments set {V} d k v.

Definition digitValue (c : char) : option N :=
  if ((48 <=? c) && (c <=? 57))%N then Some (c - 48)%N else None.

Fixpoint parseDigits (acc : N) (s : str) : option N :=
  match s with
  | [] => Some acc
  | c :: s' => match digitValue c with
               | Some d => parseDigits (10 * acc + d)%N s'
               | None => None
               end
  end.

(** A key that is an array index: the canonical decimal text of an integer
    below 2^32 - 1. *)
Definition arrayIndex (k : str) : option N :=
  match k with
  | [] => None
  | _ :: _ =>
      match parseDigits 0 k with
      | Some n => if str_eqb (numberToString n) k && (n <? 4294967295)%N
                  then Some n else None
      | None => None
      end
  end.

Fixpoint insertIndex (n : N) (l : list N) : list N :=
  match l with
  | [] => [n]
  | m :: l' => if (n <=? m)%N then n :: l else m :: insertIndex n l'
  end.

(** [Object.keys(d)]: the array indices in ascending order, then the other
    keys in creation order. *)
Definition keys {V : Type} (d : t V) : list str :=
  let ks := map fst d in
  let indices := flat_map (fun k => match arrayIndex k with
                                    | Some n => [n]
                                    | None => []
                                    end) ks in
  map numberToString (fold_right insertIndex [] indices)
  ++ filter (fun k => match arrayIndex k with Some _ => false | None => true end) ks.

End Dict.

(** ** The host: Unicode case conversion and collation *)

Class Host := {
  toUpperCase : str -> str;
  toLowerCase : str -> str;
  localeCompare : str -> str -> Z;
  (** For the name of a built-in method of [Object.prototype], what follows
      the keyword [function] in the text that the host gives for that
      function when it is converted to a string. *)
  nativeFunction : str -> str
}.

(** [localeCompare] is a consistent comparison function, as ECMA-402 asks of
    it: the order it induces is total and transitive. *)
Class ConsistentCollation (H : Host) : Prop := {
  localeCompare_total :
    forall a b, (localeCompare a b <= 0)%Z \/ (localeCompare b a <= 0)%Z;
  localeCompare_trans :
    forall a b c, (localeCompare a b <= 0)%Z -> (localeCompare b c <= 0)%Z ->
                  (localeCompare a c <= 0)%Z
}.

(** ** Property reads through the prototype chain

    The converter makes its objects with object literals ([fieldMapping],
    [fieldCounts], [contact]), so that their prototype is [Object.prototype].
    A read [o[k]] gives the own property of name [k] and, when the object has
    none, the member of [Object.prototype] of that name: one of eleven
    built-in functions, or the object [Object.prototype] itself, which the
    accessor [__proto__] returns.  None of these is a string.  Where the code
    uses one as a property key or inside a template literal it is converted
    to a string; where the code calls [replace] on one, which none of them
    has, a TypeError is thrown. *)

Module Proto.

(** What a read can give: a string, or a member of [Object.prototype], kept
    with the text of its conversion to a string. *)
Inductive Value :=
| Str (s : str)
| Member (text : str).

Inductive Error := TypeError.

Inductive Result (A : Type) :=
| Ok (a : A)
| Throw (e : Error).

Arguments Ok {A} a.
Arguments Throw {A} e.

Definition bind {A B : Type} (r : Result A) (f : A -> Result B) : Result B :=
  match r with
  | Ok a => f a
  | Throw e => Throw e
  end.

(** [l.map(f)] with a callback that can throw: the first exception ends the
    call. *)
Fixpoint traverse {A B : Type} (f : A -> Result B) (l : list A) : Result (list B) :=
  match l with
  | [] => Ok []
  | x :: l' => bind (f x) (fun y => bind (traverse f l') (fun ys => Ok (y :: ys)))
  end.

(** The built-in methods of [Object.prototype]. *)
Definition functions : list str :=
  [lit "constructor"; lit "hasOwnProperty"; lit "isPrototypeOf";
   lit "propertyIsEnumerable"; lit "toLocaleString"; lit "toString";
   lit "valueOf"; lit "__defineGetter__"; lit "__defineSetter__";
   lit "__lookupGetter__"; lit "__lookupSetter__"].

(** The accessor property of [Object.prototype]. *)
Definition accessor : str := lit "__proto__".

(** The names that every plain object inherits. *)
Definition inherited (k : str) : bool :=
  str_eqb k accessor || existsb (str_eqb k) functions.

(** An object none of whose own properties has the name of a member of
    [Object.prototype]. *)
Definition plain (o : Dict.t str) : Prop :=
  forall k, Dict.get o k <> None -> inherited k = false.

(** A read [o[k]] that finds no own property and falls on a member of
    [Object.prototype]. *)
Definition falls (o : Dict.t str) (k : str) : bool :=
  match Dict.get o k with
  | Some _ => false
  | None => inherited k
  end.

Section WithHost.
Context {H : Host}.

(** The member of [Object.prototype] of a given name. *)
Definition member (k : str) : option Value :=
  if str_eqb k accessor then Some (Member (lit "[object Object]"))
  else if existsb (str_eqb k) functions
       then Some (Member (lit "function" ++ nativeFunction k))
       else None.

(** [o[k]] on a plain object with string values. *)
Definition read (o : Dict.t str) (k : str) : option Value :=
  match Dict.get o k with
  | Some s => Some (Str s)
  | None => member k
  end.

(** [v || s] for the result [v] of a read and a string [s]: a member of
    [Object.prototype] is an object, hence truthy. *)
Definition orString (v : option Value) (s : str) : Value :=
  match v with
  | Some (Str x) => if truthy x then Str x else Str s
  | Some (Member text) => Member text
  | None => Str s
  end.

(** The conversion to a string. *)
Definition text (v : Value) : str :=
  match v with
  | Str s => s
  | Member text => text
  end.

End WithHost.

End Proto.

(** ** The dynamic-schema converter *)

Module Dynamic.

Section WithHost.
Context {H : Host}.

Definition Contact := Dict.t str.

Definition fieldMapping : Dict.t str :=
  [(lit "FN", lit "Full Name");
   (lit "N", lit "Name");
   (lit "ORG", lit "Organization");
   (lit "TITLE", lit "Title");
   (lit "ROLE", lit "Role");
   (lit "BDAY", lit "Birthday");
   (lit "URL", lit "Website");
   (lit "NOTE", lit "Notes");
   (lit "NICKNAME", lit "Nickname");
   (lit "CATEGORIES", lit "Categories")].

(** The body shared by the TEL, EMAIL and ADR branches of
    [normalizeFieldName]: the base label, followed by the capitalised value of
    the first [TYPE=] parameter when there is one. *)
Definition withType (baseName : str) (params : list str) : str :=
  match find (startsWith (lit "TYPE=")) params with
  | Some typeParam =>
      let type := orEmpty (at_ 1 (split EQUALS typeParam)) in
      baseName ++ [SPACE] ++ toUpperCase (firstn 1 type) ++ toLowerCase (skipn 1 type)
  | None => baseName
  end.

(** [fieldMapping[fieldType]] is a read through the prototype chain: for a
    field type that names a member of [Object.prototype] the base name is that
    member, not a string.  [parseVCard] uses the result of this function as a
    property key and inside a template literal only, and both convert it to a
    string: the conversion is made here, on the way out. *)
Definition normalizeFieldName (vcfField : str) : str :=
  let parts := split SEMI vcfField in
  let fieldType := orEmpty (at_ 0 parts) in
  let params := slice1 parts in
  let baseName := Proto.orString (Proto.read fieldMapping fieldType) fieldType in
  if str_eqb fieldType (lit "TEL") then withType (lit "Phone") params
  else if str_eqb fieldType (lit "EMAIL") then withType (lit "Email") params
  else if str_eqb fieldType (lit "ADR") then withType (lit "Address") params
  else Proto.text baseName.

(** The local state of [parseVCard]: the contact under construction and the
    count of assignments per normalised label. *)
Definition State := (Contact * Dict.t N)%type.

(** [!fieldCounts[k]] *)
Definition noCount (c : option N) : bool :=
  match c with
  | None => true
  | Some n => (n =? 0)%N
  end.

(** The key of the [n]-th assignment of a label. *)
Definition finalFieldName (fieldKey : str) (n : N) : str :=
  if (1 <? n)%N then fieldKey ++ [SPACE] ++ numberToString n else fieldKey.

(** The four statements that the address branch and the generic branch share:
    start the count at 0 when there is none, add one, choose the key, store.
    The key [fieldKey] is a label and never names a member of
    [Object.prototype] (lemma [normalizeFieldName_own]): [fieldCounts[fieldKey]]
    finds an own property or nothing. *)
Definition assign (st : State) (fieldKey value : str) : State :=
  let '(contact, fieldCounts) := st in
  let fieldCounts1 :=
    if noCount (Dict.get fieldCounts fieldKey) then Dict.set fieldCounts fieldKey 0%N
    else fieldCounts in
  let n := (match Dict.get fieldCounts1 fieldKey with Some c => c | None => 0 end + 1)%N in
  let fieldCounts2 := Dict.set fieldCounts1 fieldKey n in
  (Dict.set contact (finalFieldName fieldKey n) value, fieldCounts2).

(** [!contact[k]], for the two keys First Name and Last Name. *)
Definition unset (contact : Contact) (k : str) : bool :=
  negb (truthy (orEmpty (Dict.get contact k))).

Definition FIRST : str := lit "First Name".
Definition LAST : str := lit "Last Name".

(** The lines that the loop passes over at once: empty, a card-start or
    card-end marker, a version line. *)
Definition skipped (trimmedLine : str) : bool :=
  negb (truthy trimmedLine)
  || str_eqb trimmedLine (lit "BEGIN:VCARD")
  || str_eqb trimmedLine (lit "END:VCARD")
  || startsWith (lit "VERSION:") trimmedLine.

(** The body of the loop once the field part and a non-empty value are at
    hand: the full name, the structured name, an address, any other field. *)
Definition store (st : State) (fieldPart value : str) : State :=
  if str_eqb fieldPart (lit "FN") then
    let '(firstName, lastName) := parseName value in
    (Dict.set (Dict.set (fst st) FIRST firstName) LAST lastName, snd st)
  else if str_eqb fieldPart (lit "N") then
    let nameParts := split SEMI value in
    let contact1 :=
      if truthy (orEmpty (at_ 1 nameParts)) && unset (fst st) FIRST
      then Dict.set (fst st) FIRST (orEmpty (at_ 1 nameParts))
      else fst st in
    let contact2 :=
      if truthy (orEmpty (at_ 0 nameParts)) && unset contact1 LAST
      then Dict.set contact1 LAST (orEmpty (at_ 0 nameParts))
      else contact1 in
    (contact2, snd st)
  else if startsWith (lit "ADR") fieldPart then
    let addrParts := filter (fun part => truthy (trim part)) (split SEMI value) in
    if 0 <? length addrParts
    then assign st (normalizeFieldName fieldPart) (join (lit ", ") addrParts)
    else st
  else assign st (normalizeFieldName fieldPart) value.

(** One iteration of the loop over the lines. *)
Definition step (st : State) (line : str) : State :=
  let trimmedLine := trim line in
  if skipped trimmedLine then st
  else
    match indexOf COLON trimmedLine with
    | None => st
    | Some colonIndex =>
        let fieldPart := substring 0 colonIndex trimmedLine in
        let value := trim (substringFrom (colonIndex + 1) trimmedLine) in
        if negb (truthy value) then st else store st fieldPart value
    end.

(** The label and the value that a line hands to [assign], when the loop
    gets there with it: the address branch and the generic branch. *)
Definition assignment (line : str) : option (str * str) :=
  let trimmedLine := trim line in
  if skipped trimmedLine then None
  else
    match indexOf COLON trimmedLine with
    | None => None
    | Some colonIndex =>
        let fieldPart := substring 0 colonIndex trimmedLine in
        let value := trim (substringFrom (colonIndex + 1) trimmedLine) in
        if negb (truthy value) then None
        else if str_eqb fieldPart (lit "FN") then None
        else if str_eqb fieldPart (lit "N") then None
        else if startsWith (lit "ADR") fieldPart then
          let addrParts := filter (fun part => truthy (trim part)) (split SEMI value) in
          if 0 <? length addrParts
          then Some (normalizeFieldName fieldPart, join (lit ", ") addrParts)
          else None
        else Some (normalizeFieldName fieldPart, value)
    end.

(** How many lines of a list are assigned a label. *)
Definition occurrences (label : str) (lines : list str) : nat :=
  length (filter (fun line => match assignment line with
                              | Some (l, _) => str_eqb l label
                              | None => false
                              end) lines).

(** [fieldCounts[k]] read as a number, 0 when there is none. *)
Definition count (fieldCounts : Dict.t N) (k : str) : N :=
  match Dict.get fieldCounts k with Some c => c | None => 0%N end.

Definition initial : State := (Dict.empty, Dict.empty).

Definition run (lines : list str) : State := fold_left step lines initial.

(** The two statements after the loop. *)
Definition finish (contact : Contact) : Contact :=
  let contact1 := if unset contact FIRST then Dict.set contact FIRST [] else contact in
  if unset contact1 LAST then Dict.set contact1 LAST [] else contact1.

Definition parseVCard (vcardText : str) : Contact :=
  finish (fst (run (splitLines vcardText))).

Definition parseVCF (vcfContent : str) : list Contact :=
  let vcardBlocks := slice1 (splitMarker vcfContent) in
  fold_left (fun contacts block => contacts ++ [parseVCard (lit "BEGIN:VCARD" ++ block)])
            vcardBlocks [].

(** [allFields.add(field)] on a Set kept in insertion order. *)
Definition add (allFields : list str) (field : str) : list str :=
  if existsb (str_eqb field) allFields then allFields else allFields ++ [field].

Definition collect (contacts : list Contact) : list str :=
  fold_left (fun allFields contact => fold_left add (Dict.keys contact) allFields)
            contacts [].

(** The comparison function handed to [sort]. *)
Definition compareFields (a b : str) : Z :=
  if str_eqb a FIRST then (-1)%Z
  else if str_eqb b FIRST then 1%Z
  else if str_eqb a LAST then (-1)%Z
  else if str_eqb b LAST then 1%Z
  else localeCompare a b.

(** [Array.prototype.sort] with a comparison function: a stable sort. *)
Fixpoint insert (cmp : str -> str -> Z) (x : str) (l : list str) : list str :=
  match l with
  | [] => [x]
  | y :: l' => if (cmp x y <=? 0)%Z then x :: l else y :: insert cmp x l'
  end.

Definition sort (cmp : str -> str -> Z) (l : list str) : list str :=
  fold_right (insert cmp) [] l.

(** The global [replace] of [cell]: every double quote becomes two. *)
Definition escape (value : str) : str :=
  flat_map (fun c => if (c =? DQUOTE)%N then [DQUOTE; DQUOTE] else [c]) value.

(** The callback of [sortedFields.map].  A record is a plain object, as
    [parseVCard] makes them: [contact[field]] is a read through the prototype
    chain, and [value.replace] exists on strings only. *)
Definition cell (contact : Contact) (field : str) : Proto.Result str :=
  let value := Proto.orString (Proto.read contact field) [] in
  match value with
  | Proto.Str value =>
      let escapedValue := escape value in
      Proto.Ok ([DQUOTE] ++ escapedValue ++ [DQUOTE])
  | Proto.Member _ => Proto.Throw Proto.TypeError
  end.

Definition convertToCSV (contacts : list Contact) : Proto.Result str :=
  let allFields := collect contacts in
  let sortedFields := sort compareFields allFields in
  Proto.bind
    (fold_left (fun csvLines contact =>
                  Proto.bind csvLines (fun csvLines =>
                  Proto.bind (Proto.traverse (cell contact) sortedFields) (fun row =>
                  Proto.Ok (csvLines ++ [join [COMMA] row]))))
               contacts (Proto.Ok [join [COMMA] sortedFields]))
    (fun csvLines => Proto.Ok (join [LF] csvLines)).

(** A list of records in which every read [contact[field]] of
    [convertToCSV] finds an own property of the record, or nothing at all. *)
Definition readable (contacts : list Contact) : bool :=
  forallb (fun contact =>
             forallb (fun field => negb (Proto.falls contact field))
                     (collect contacts))
          contacts.

(** The field names other than First Name and Last Name. *)
Definition other (k : str) : bool := negb (str_eqb k FIRST) && negb (str_eqb k LAST).

(** The order that [localeCompare] induces. *)
Definition localeLe (a b : str) : Prop := (localeCompare a b <= 0)%Z.

End WithHost.

End Dynamic.

(** A host that converts the case of ASCII letters only and collates by code
    units: enough to run the converter on ASCII field types. *)
Module AsciiHost.

Definition upper (c : char) : char :=
  if ((97 <=? c) && (c <=? 122))%N then (c - 32)%N else c.

Definition lower (c : char) : char :=
  if ((65 <=? c) && (c <=? 90))%N then (c + 32)%N else c.

Fixpoint compareUnits (a b : str) : Z :=
  match a, b with
  | [], [] => 0%Z
  | [], _ :: _ => (-1)%Z
  | _ :: _, [] => 1%Z
  | x :: a', y :: b' =>
      if (x <? y)%N then (-1)%Z
      else if (y <? x)%N then 1%Z
      else compareUnits a' b'
  end.

(** The text of a built-in function as V8 prints it: the name of the
    function, which is [Object] for the member [constructor] and the name of
    the member for the others, then the native-code body. *)
Definition native (k : str) : str :=
  [SPACE] ++ (if str_eqb k (lit "constructor") then lit "Object" else k)
  ++ lit "() { [native code] }".

#[global] Instance host : Host := {
  toUpperCase := map upper;
  toLowerCase := map lower;
  localeCompare := compareUnits;
  nativeFunction := native
}.

End AsciiHost.

(** A card block written line by line. *)
Definition card (lines : list string) : str := join [LF] (map lit lines).

(** ** The page: saving the document

    The handler [handleSave] of the component [VCFConverter], the same text in
    the three revisions of the page.  What it does to the browser is recorded
    as a list of effects: a toast, or the download that [downloadCSV] starts
    with a content and a file name. *)

Module UI.

Inductive Effect :=
| Toast (title description : str) (destructive : bool)
| Download (csvContent filename : str).

(** [s.replace(p, r)] with a string for pattern and the empty string for
    replacement: the first occurrence of [p] goes, the rest stays. *)
Fixpoint removeFirst (p s : str) : str :=
  if startsWith p s then skipn (length p) s
  else match s with
       | [] => []
       | c :: s' => c :: removeFirst p s'
       end.

(** The template literal of the file name; [selectedFile] is the name of the
    selected file, [None] when no file is selected. *)
Definition filename (selectedFile : option str) : str :=
  match selectedFile with
  | Some name => removeFirst (lit ".vcf") name
  | None => lit "undefined"
  end ++ lit "_contacts.csv".

Definition handleSave (selectedFile : option str) (csvContent : str) : list Effect :=
  if negb (truthy csvContent) then
    [Toast (lit "No CSV data") (lit "Please convert a VCF file first") true]
  else
    [Download csvContent (filename selectedFile);
     Toast (lit "File saved") (lit "CSV file has been downloaded") false].

End UI.

(** ** The claims in the words of the specification

    Definitions that follow the text of the specification, to be compared
    with the code. *)

Module Spec.

(** The whitespace-delimited tokens of a string. *)
Fixpoint tokensAux (acc : str) (s : str) : list str :=
  match s with
  | [] => if truthy acc then [rev acc] else []
  | c :: s' =>
      if isWhiteSpace c
      then (if truthy acc then rev acc :: tokensAux [] s' else tokensAux [] s')
      else tokensAux (c :: acc) s'
  end.

Definition tokens (s : str) : list str := tokensAux [] s.

(** A token: a non-empty run of characters none of which is whitespace. *)
Definition isToken (t : str) : Prop :=
  t <> [] /\ Forall (fun c => isWhiteSpace c = false) t.

(** Name splitting: the first token, and the remaining tokens rejoined with
    single spaces. *)
Definition splitName (fullName : str) : str * str :=
  (orEmpty (at_ 0 (tokens fullName)), join [SPACE] (tl (tokens fullName))).

(** The number of positions of a document at which the card-start marker
    occurs, in any letter-casing. *)
Fixpoint countMarkers (s : str) : nat :=
  match s with
  | [] => 0
  | _ :: s' => (if startsWithCI MARKER s then 1 else 0) + countMarkers s'
  end.

(** A card-start marker in some letter-casing. *)
Definition isMarker (m : str) : Prop :=
  length m = length MARKER /\ startsWithCI MARKER m = true.

(** The field spec and the value of a line: the text before and after the
    first colon. *)
Definition fieldSpec (t : str) : option (str * str) :=
  match indexOf COLON t with
  | Some i => Some (firstn i t, skipn (S i) t)
  | None => None
  end.

(** What a line appends to the list of a field type, by the text of the
    specification: its trimmed value when its field spec starts with the
    type. *)
Definition appended (type : str) (line : str) : list str :=
  match fieldSpec (trim line) with
  | Some (spec, value) => if startsWith type spec then [trim value] else []
  | None => []
  end.

End Spec.

(** * Properties *)

(** ** Strings and arrays *)

Lemma str_eqb_eq (a b : str) : str_eqb a b = true <-> a = b.
Proof.
  unfold str_eqb. destruct (list_eq_dec N.eq_dec a b); split; congruence.
Qed.

Lemma str_eqb_refl (a : str) : str_eqb a a = true.
Proof. now apply str_eqb_eq. Qed.

Lemma str_eqb_neq (a b : str) : str_eqb a b = false <-> a <> b.
Proof.
  unfold str_eqb. destruct (list_eq_dec N.eq_dec a b); split; congruence.
Qed.

Lemma orElse_empty (s : str) : orElse s [] = s.
Proof. now destruct s. Qed.

Lemma fold_left_push {A B : Type} (f : A -> B) (l : list A) (init : list B) :
  fold_left (fun acc x => acc ++ [f x]) l init = init ++ map f l.
Proof.
  revert init. induction l as [|x l IH]; intros init; simpl.
  - now rewrite app_nil_r.
  - rewrite IH, <- app_assoc. reflexivity.
Qed.

(** [split] cuts at the first separator and goes on with the rest. *)
Lemma splitAux_cut (c : char) (s acc : str) :
  splitAux c acc s =
  (rev acc ++ takeWhile (differs c) s)
  :: match dropWhile (differs c) s with
     | [] => []
     | _ :: rest => split c rest
     end.
Proof.
  revert acc. induction s as [|d s IH]; intros acc; simpl.
  - now rewrite app_nil_r.
  - unfold differs at 1 3. destruct (d =? c)%N; simpl.
    + now rewrite app_nil_r.
    + rewrite IH. simpl. rewrite <- app_assoc. reflexivity.
Qed.

Lemma split_cut (c : char) (s : str) :
  split c s =
  takeWhile (differs c) s
  :: match dropWhile (differs c) s with
     | [] => []
     | _ :: rest => split c rest
     end.
Proof. unfold split at 1. now rewrite splitAux_cut. Qed.

Lemma splitAux_not_nil (c : char) (s acc : str) : splitAux c acc s <> [].
Proof. rewrite splitAux_cut. discriminate. Qed.

Lemma join_cons (sep p : str) (ps : list str) :
  ps <> [] -> join sep (p :: ps) = p ++ sep ++ join sep ps.
Proof. destruct ps; [congruence | reflexivity]. Qed.

(** [join] undoes [split]: the round trip behind [parts.slice(1).join(' ')]. *)
Lemma join_splitAux (c : char) (s acc : str) :
  join [c] (splitAux c acc s) = rev acc ++ s.
Proof.
  revert acc. induction s as [|d s IH]; intros acc; simpl.
  - now rewrite app_nil_r.
  - destruct (d =? c)%N eqn:E.
    + apply N.eqb_eq in E. subst d.
      rewrite join_cons by apply splitAux_not_nil.
      rewrite IH. reflexivity.
    + rewrite IH. simpl. rewrite <- app_assoc. reflexivity.
Qed.

Lemma join_split (c : char) (s : str) : join [c] (split c s) = s.
Proof. unfold split. now rewrite join_splitAux. Qed.


(** ** parseName *)

Lemma parseName_cut (fullName : str) :
  parseName fullName =
  (takeWhile (differs SPACE) (trim fullName),
   skipn 1 (dropWhile (differs SPACE) (trim fullName))).
Proof.
  unfold parseName. rewrite split_cut. unfold slice1, at_. simpl.
  rewrite orElse_empty.
  destruct (dropWhile (differs SPACE) (trim fullName)) as [|d rest]; simpl.
  - reflexivity.
  - now rewrite join_split.
Qed.

Lemma takeWhile_app_all (p : char -> bool) (a b : str) :
  Forall (fun c => p c = true) a -> takeWhile p (a ++ b) = a ++ takeWhile p b.
Proof.
  induction 1 as [|c a Hc _ IH]; simpl; [reflexivity|].
  now rewrite Hc, IH.
Qed.

Lemma dropWhile_app_all (p : char -> bool) (a b : str) :
  Forall (fun c => p c = true) a -> dropWhile p (a ++ b) = dropWhile p b.
Proof.
  induction 1 as [|c a Hc _ IH]; simpl; [reflexivity|].
  now rewrite Hc, IH.
Qed.

Lemma takeWhile_all (p : char -> bool) (a : str) :
  Forall (fun c => p c = true) a -> takeWhile p a = a.
Proof.
  intros Ha. rewrite <- (app_nil_r a) at 1.
  rewrite takeWhile_app_all by assumption. simpl. apply app_nil_r.
Qed.

(** A string that neither starts nor ends with whitespace is its own trim. *)
Lemma trim_id (c d : char) (x y : str) :
  isWhiteSpace c = false -> isWhiteSpace d = false ->
  c :: x = y ++ [d] -> trim (c :: x) = c :: x.
Proof.
  intros Hc Hd E. unfold trim, trimStart, trimEnd. simpl dropWhile at 2.
  rewrite Hc, E, rev_app_distr. simpl. rewrite Hd. simpl.
  now rewrite rev_involutive.
Qed.


Lemma token_no_space (t : str) :
  Spec.isToken t -> Forall (fun c => differs SPACE c = true) t.
Proof.
  intros [_ Ht]. induction Ht as [|c t Hc _ IH]; constructor; [|assumption].
  unfold differs. destruct (c =? SPACE)%N eqn:E; [|reflexivity].
  apply N.eqb_eq in E. subst c. discriminate.
Qed.

Lemma join_tokens_first (ts : list str) :
  ts <> [] -> Forall Spec.isToken ts ->
  exists c x, join [SPACE] ts = c :: x /\ isWhiteSpace c = false.
Proof.
  intros Hne Hts. destruct ts as [|t ts]; [congruence|].
  inversion Hts as [|? ? [Ht1 Ht2] _]; subst.
  destruct t as [|c t]; [congruence|].
  inversion Ht2; subst.
  destruct ts; simpl; eauto.
Qed.

Lemma join_tokens_last (ts : list str) :
  ts <> [] -> Forall Spec.isToken ts ->
  exists y d, join [SPACE] ts = y ++ [d] /\ isWhiteSpace d = false.
Proof.
  induction ts as [|t ts IH]; intros Hne Hts; [congruence|].
  inversion Hts as [|? ? [Ht1 Ht2] Hts']; subst.
  destruct ts as [|t' ts].
  - simpl. destruct (exists_last Ht1) as (y & d & ->).
    exists y, d. split; [reflexivity|].
    apply Forall_app in Ht2. destruct Ht2 as [_ Hd]. now inversion Hd.
  - destruct IH as (y & d & E & Hd); [discriminate | assumption |].
    rewrite join_cons by discriminate. rewrite E.
    exists (t ++ [SPACE] ++ y), d. split; [|assumption].
    now rewrite <- !app_assoc.
Qed.

Lemma trim_join_tokens (ts : list str) :
  Forall Spec.isToken ts -> trim (join [SPACE] ts) = join [SPACE] ts.
Proof.
  intros Hts. destruct ts as [|t ts]; [reflexivity|].
  destruct (join_tokens_first (t :: ts)) as (c & x & E & Hc);
    [discriminate | assumption |].
  destruct (join_tokens_last (t :: ts)) as (y & d & E' & Hd);
    [discriminate | assumption |].
  rewrite E. apply (trim_id c d x y Hc Hd). now rewrite <- E.
Qed.

(** On tokens separated by single spaces the code does what the specification
    says. *)
Lemma parseName_tokens (ts : list str) :
  Forall Spec.isToken ts ->
  parseName (join [SPACE] ts) = (orEmpty (at_ 0 ts), join [SPACE] (tl ts)).
Proof.
  intros Hts. rewrite parseName_cut, trim_join_tokens by assumption.
  destruct ts as [|t ts]; [reflexivity|].
  inversion Hts as [|? ? Ht Hts']; subst.
  pose proof (token_no_space t Ht) as Hsp.
  destruct ts as [|t' ts].
  - simpl. rewrite takeWhile_all by assumption.
    rewrite <- (app_nil_r t) at 2. rewrite dropWhile_app_all by assumption.
    reflexivity.
  - rewrite join_cons by discriminate.
    rewrite takeWhile_app_all, dropWhile_app_all by assumption.
    simpl. now rewrite app_nil_r.
Qed.

(** C6, as the specification words it, fails: the code cuts at the first
    space character and keeps the rest as it is, so a second space stays in
    the last name and a tab does not separate tokens. *)
Lemma parseName_not_tokens :
  parseName (lit "Jane  Doe") = (lit "Jane", lit " Doe")
  /\ Spec.splitName (lit "Jane  Doe") = (lit "Jane", lit "Doe")
  /\ parseName (lit "Jane" ++ [TAB] ++ lit "Doe") = (lit "Jane" ++ [TAB] ++ lit "Doe", [])
  /\ Spec.splitName (lit "Jane" ++ [TAB] ++ lit "Doe") = (lit "Jane", lit "Doe")
  /\ parseName (lit "Jane  Doe") <> Spec.splitName (lit "Jane  Doe").
Proof. repeat split; try reflexivity. vm_compute. discriminate. Qed.

(** C6 (amended): name splitting trims the full name, takes the text before
    its first space character as the first name and the text after that first
    space, as it is, as the last name; the empty input yields two empty
    strings; on tokens separated by single spaces this is the first token and
    the remaining tokens rejoined with single spaces, so that "Jane Mary Doe"
    yields "Jane" and "Mary Doe". *)
Theorem parseName_first_space :
  (forall fullName,
     parseName fullName =
     (takeWhile (differs SPACE) (trim fullName),
      skipn 1 (dropWhile (differs SPACE) (trim fullName))))
  /\ parseName [] = ([], [])
  /\ (forall ts, Forall Spec.isToken ts ->
        parseName (join [SPACE] ts) = (orEmpty (at_ 0 ts), join [SPACE] (tl ts)))
  /\ parseName (lit "Jane Mary Doe") = (lit "Jane", lit "Mary Doe").
Proof.
  split; [exact parseName_cut|].
  split; [reflexivity|].
  split; [exact parseName_tokens|].
  reflexivity.
Qed.

Lemma isToken_lit_check (t : str) :
  truthy t = true -> forallb (fun c => negb (isWhiteSpace c)) t = true ->
  Spec.isToken t.
Proof.
  intros Ht Hall. split.
  - destruct t; [discriminate | discriminate].
  - apply Forall_forall. intros c Hc.
    rewrite forallb_forall in Hall. specialize (Hall c Hc).
    now destruct (isWhiteSpace c).
Qed.

(** The amended C6 at the name of the specification, token by token. *)
Lemma parseName_first_space_witness :
  Forall Spec.isToken [lit "Jane"; lit "Mary"; lit "Doe"]
  /\ parseName (join [SPACE] [lit "Jane"; lit "Mary"; lit "Doe"])
     = (lit "Jane", lit "Mary Doe").
Proof.
  assert (Hts : Forall Spec.isToken [lit "Jane"; lit "Mary"; lit "Doe"]).
  { repeat constructor; apply isToken_lit_check; reflexivity. }
  split; [exact Hts|].
  destruct parseName_first_space as (_ & _ & Htok & _).
  rewrite (Htok _ Hts). reflexivity.
Defined.

(** ** The card splitter *)

Lemma startsWithCI_cons (a b : char) (p s : str) :
  startsWithCI (a :: p) (b :: s)
  = ((canonicalize a =? canonicalize b)%N && startsWithCI p s)%bool.
Proof. reflexivity. Qed.

Lemma MARKER_cons : MARKER = 66%N :: tl MARKER.
Proof. reflexivity. Qed.

Lemma startsWithCI_opens (c : char) (s : str) :
  startsWithCI MARKER (c :: s) = true -> opens c = true.
Proof.
  rewrite MARKER_cons, startsWithCI_cons. unfold opens.
  intros E. now apply andb_prop in E.
Qed.

Lemma not_opens_no_marker (c : char) (s : str) :
  opens c = false -> startsWithCI MARKER (c :: s) = false.
Proof.
  intros Hc. destruct (startsWithCI MARKER (c :: s)) eqn:E; [|reflexivity].
  apply startsWithCI_opens in E. congruence.
Qed.

(** What holds of every character that folds like a pattern character holds
    of the text matched. *)
Lemma startsWithCI_matched (Q : char -> Prop) (p s : str) :
  startsWithCI p s = true ->
  Forall (fun a => forall d, canonicalize a = canonicalize d -> Q d) p ->
  Forall Q (firstn (length p) s).
Proof.
  revert s. induction p as [|a p IH]; intros s E Hp; [constructor|].
  destruct s as [|b s]; [discriminate|].
  rewrite startsWithCI_cons in E. apply andb_prop in E. destruct E as [E1 E2].
  inversion Hp as [|? ? Ha Hp']; subst.
  simpl. constructor.
  - apply Ha. now apply N.eqb_eq.
  - now apply IH.
Qed.

(** No letter of the marker after the first can open a marker: two
    occurrences never overlap. *)
Lemma marker_tail_closed (c : char) (s : str) :
  startsWithCI MARKER (c :: s) = true ->
  Forall (fun d => opens d = false) (firstn 10 s).
Proof.
  rewrite MARKER_cons, startsWithCI_cons. intros E.
  apply andb_prop in E. destruct E as [_ E].
  apply (@startsWithCI_matched (fun d => opens d = false) (tl MARKER) s E).
  repeat constructor; intros d Hd; unfold opens; rewrite <- Hd; reflexivity.
Qed.


Lemma splitMarkerAux_length (s : str) (k : nat) (acc : str) :
  Forall (fun d => opens d = false) (firstn k s) ->
  length (splitMarkerAux k acc s) = S (Spec.countMarkers s).
Proof.
  revert k acc. induction s as [|c s IH]; intros k acc Hk; [reflexivity|].
  destruct k as [|k].
  - change (splitMarkerAux 0 acc (c :: s))
      with (if startsWithCI MARKER (c :: s)
            then rev acc :: splitMarkerAux 10 [] s
            else splitMarkerAux 0 (c :: acc) s).
    change (Spec.countMarkers (c :: s))
      with ((if startsWithCI MARKER (c :: s) then 1 else 0) + Spec.countMarkers s).
    destruct (startsWithCI MARKER (c :: s)) eqn:E.
    + simpl length. rewrite (IH 10 []); [reflexivity|].
      now apply marker_tail_closed with (c := c).
    + rewrite (IH 0); [reflexivity | constructor].
  - simpl firstn in Hk. inversion Hk as [|? ? Hc Hk']; subst.
    change (splitMarkerAux (S k) acc (c :: s)) with (splitMarkerAux k acc s).
    change (Spec.countMarkers (c :: s))
      with ((if startsWithCI MARKER (c :: s) then 1 else 0) + Spec.countMarkers s).
    rewrite (not_opens_no_marker c s Hc). simpl. now apply IH.
Qed.

(** The splitter yields one segment more than there are markers. *)
Lemma splitMarker_length (s : str) :
  length (splitMarker s) = S (Spec.countMarkers s).
Proof. unfold splitMarker. apply splitMarkerAux_length. constructor. Qed.

Lemma length_slice1 {A : Type} (l : list A) : length (slice1 l) = pred (length l).
Proof. now destruct l. Qed.

Lemma startsWithCI_app (p y z : str) :
  length p <= length y -> startsWithCI p (y ++ z) = startsWithCI p y.
Proof.
  revert y. induction p as [|a p IH]; intros y Hlen; [reflexivity|].
  destruct y as [|b y]; simpl in Hlen; [lia|].
  simpl app. rewrite !startsWithCI_cons. rewrite IH by lia. reflexivity.
Qed.

Lemma splitMarkerAux_skip (x post acc : str) :
  splitMarkerAux (length x) acc (x ++ post) = splitMarkerAux 0 acc post.
Proof. induction x as [|c x IH]; [reflexivity | exact IH]. Qed.

Lemma splitMarkerAux_step (c : char) (s acc : str) :
  splitMarkerAux 0 acc (c :: s)
  = if startsWithCI MARKER (c :: s)
    then rev acc :: splitMarkerAux 10 [] s
    else splitMarkerAux 0 (c :: acc) s.
Proof. reflexivity. Qed.

Lemma countMarkers_step (c : char) (s : str) :
  Spec.countMarkers (c :: s)
  = (if startsWithCI MARKER (c :: s) then 1 else 0) + Spec.countMarkers s.
Proof. reflexivity. Qed.

(** At a marker, in whatever casing, the splitter closes the current segment
    and resumes right after the marker. *)
Lemma splitMarkerAux_at_marker (m post acc : str) :
  Spec.isMarker m ->
  splitMarkerAux 0 acc (m ++ post) = rev acc :: splitMarkerAux 0 [] post.
Proof.
  intros [Hlen Hm]. destruct m as [|c x]; [discriminate|].
  simpl app. rewrite splitMarkerAux_step.
  change (c :: x ++ post) with ((c :: x) ++ post).
  rewrite startsWithCI_app by (rewrite Hlen; lia). rewrite Hm.
  f_equal. simpl in Hlen. injection Hlen as Hlen.
  rewrite <- Hlen. apply splitMarkerAux_skip.
Qed.

Lemma countMarkers_marker_pos (pre m : str) :
  Spec.isMarker m -> 1 <= Spec.countMarkers (pre ++ m).
Proof.
  intros [Hlen Hm]. induction pre as [|c pre IH].
  - destruct m as [|c x]; [discriminate|].
    simpl app. rewrite countMarkers_step, Hm. lia.
  - simpl app. rewrite countMarkers_step. lia.
Qed.

(** When the only marker of [pre ++ m] is [m], the text [pre] goes to the
    segment before the first marker. *)
Lemma splitMarkerAux_single (pre m post acc : str) :
  Spec.isMarker m -> Spec.countMarkers (pre ++ m) = 1 ->
  splitMarkerAux 0 acc (pre ++ m ++ post)
  = (rev acc ++ pre) :: splitMarkerAux 0 [] post.
Proof.
  intros Hm. revert acc. induction pre as [|c pre IH]; intros acc Hone.
  - simpl app. rewrite app_nil_r. now apply splitMarkerAux_at_marker.
  - simpl app in *. rewrite countMarkers_step in Hone.
    pose proof (countMarkers_marker_pos pre m Hm) as Hpos.
    destruct (startsWithCI MARKER (c :: pre ++ m)) eqn:E; [lia|].
    assert (E' : startsWithCI MARKER (c :: pre ++ m ++ post) = false).
    { replace (c :: pre ++ m ++ post) with ((c :: pre ++ m) ++ post)
        by (simpl; now rewrite <- app_assoc).
      rewrite startsWithCI_app; [exact E|].
      destruct Hm as [Hlen _]. change (length MARKER) with 11 in *.
      simpl. rewrite length_app, Hlen. lia. }
    rewrite splitMarkerAux_step, E'. rewrite IH by lia. simpl.
    now rewrite <- app_assoc.
Qed.

Lemma isMarker_MARKER : Spec.isMarker MARKER.
Proof. split; reflexivity. Qed.

(** The blocks of a document whose first marker is [m], written in any
    casing after any text, are those of the document that starts with the
    marker as the source spells it. *)
Lemma blocks_first_marker (pre m post : str) :
  Spec.isMarker m -> Spec.countMarkers (pre ++ m) = 1 ->
  slice1 (splitMarker (pre ++ m ++ post)) = slice1 (splitMarker (MARKER ++ post)).
Proof.
  intros Hm Hone. unfold splitMarker.
  rewrite (splitMarkerAux_single pre m post [] Hm Hone).
  rewrite (splitMarkerAux_at_marker MARKER post [] isMarker_MARKER).
  reflexivity.
Qed.

Lemma Fixed_parseVCF_map (s : str) :
  Fixed.parseVCF s
  = map (fun block => Fixed.parseVCard (MARKER ++ block)) (slice1 (splitMarker s)).
Proof. unfold Fixed.parseVCF. now rewrite fold_left_push. Qed.

Lemma Dynamic_parseVCF_map {H : Host} (s : str) :
  Dynamic.parseVCF s
  = map (fun block => Dynamic.parseVCard (MARKER ++ block)) (slice1 (splitMarker s)).
Proof. unfold Dynamic.parseVCF. now rewrite fold_left_push. Qed.

Lemma blocks_length (s : str) :
  length (slice1 (splitMarker s)) = Spec.countMarkers s.
Proof. now rewrite length_slice1, splitMarker_length. Qed.

(** C2: parseVCF returns one record per occurrence of the marker BEGIN:VCARD
    in any letter-casing, in both revisions; the empty string and a string
    without marker yield the empty list; a marker is recognised in any casing
    and the text before the first marker is discarded. *)
Theorem parseVCF_one_record_per_marker :
  (forall s, length (Fixed.parseVCF s) = Spec.countMarkers s)
  /\ (forall (H : Host) s, length (Dynamic.parseVCF s) = Spec.countMarkers s)
  /\ Fixed.parseVCF [] = []
  /\ (forall s, Spec.countMarkers s = 0 -> Fixed.parseVCF s = [])
  /\ (forall pre m post,
        Spec.isMarker m -> Spec.countMarkers (pre ++ m) = 1 ->
        Fixed.parseVCF (pre ++ m ++ post) = Fixed.parseVCF (MARKER ++ post)).
Proof.
  split; [|split; [|split; [|split]]].
  - intros s. now rewrite Fixed_parseVCF_map, length_map, blocks_length.
  - intros H s. now rewrite Dynamic_parseVCF_map, length_map, blocks_length.
  - reflexivity.
  - intros s Hs. rewrite Fixed_parseVCF_map.
    pose proof (blocks_length s) as Hlen. rewrite Hs in Hlen.
    destruct (slice1 (splitMarker s)); [reflexivity | discriminate].
  - intros pre m post Hm Hone.
    rewrite !Fixed_parseVCF_map. now rewrite (blocks_first_marker pre m post).
Qed.

(** C2 on a document without marker and on one whose only marker is in
    mixed case after some text. *)
Lemma parseVCF_one_record_per_marker_witness :
  Spec.isMarker (lit "Begin:vCard")
  /\ Spec.countMarkers (lit "junk" ++ lit "Begin:vCard") = 1
  /\ Spec.countMarkers (lit "no card here") = 0
  /\ Fixed.parseVCF (lit "no card here") = []
  /\ Fixed.parseVCF (lit "junk" ++ lit "Begin:vCard" ++ ([LF] ++ lit "FN:Al B"))
     = Fixed.parseVCF (MARKER ++ ([LF] ++ lit "FN:Al B")).
Proof.
  assert (Hm : Spec.isMarker (lit "Begin:vCard")) by (split; reflexivity).
  assert (Hone : Spec.countMarkers (lit "junk" ++ lit "Begin:vCard") = 1)
    by reflexivity.
  assert (Hzero : Spec.countMarkers (lit "no card here") = 0) by reflexivity.
  destruct parseVCF_one_record_per_marker as (_ & _ & _ & Hnone & Hfirst).
  split; [exact Hm|]. split; [exact Hone|]. split; [exact Hzero|].
  split; [exact (Hnone _ Hzero) | exact (Hfirst _ _ _ Hm Hone)].
Defined.

(** ** The table serialiser, fixed schema *)

Lemma Fixed_convertToCSV_map (contacts : list Fixed.Contact) :
  Fixed.convertToCSV contacts
  = join [LF] (join [COMMA] Fixed.headers
               :: map (fun contact => join [COMMA] (Fixed.row contact)) contacts).
Proof. unfold Fixed.convertToCSV. now rewrite fold_left_push. Qed.

Lemma Fixed_row_text (c : Fixed.Contact) :
  join [COMMA] (Fixed.row c)
  = [DQUOTE] ++ Fixed.firstName c ++ [DQUOTE; COMMA; DQUOTE]
    ++ Fixed.lastName c ++ [DQUOTE; COMMA; DQUOTE]
    ++ Fixed.phone1 c ++ [DQUOTE; COMMA; DQUOTE]
    ++ Fixed.phone2 c ++ [DQUOTE; COMMA; DQUOTE]
    ++ Fixed.phone3 c ++ [DQUOTE; COMMA; DQUOTE]
    ++ Fixed.email1 c ++ [DQUOTE; COMMA; DQUOTE]
    ++ Fixed.email2 c ++ [DQUOTE; COMMA; DQUOTE]
    ++ Fixed.email3 c ++ [DQUOTE; COMMA; DQUOTE]
    ++ Fixed.addresses c ++ [DQUOTE].
Proof.
  unfold Fixed.row, Fixed.quoted. cbn [join app].
  repeat (rewrite <- app_assoc; cbn [app]). reflexivity.
Qed.

(** C9: the fixed-schema convertToCSV emits the header First Name, Last Name,
    Phone 1..3, Email 1..3, Addresses and then one line per contact, in input
    order, each value between double quotes exactly as it is (a quote inside
    a value is not escaped); for the empty list the document is the header
    alone, and the dynamic-schema convertToCSV of the empty list is the empty
    document. *)
Theorem convertToCSV_fixed_layout :
  (forall contacts,
     Fixed.convertToCSV contacts
     = join [LF]
         (lit "First Name,Last Name,Phone 1,Phone 2,Phone 3,Email 1,Email 2,Email 3,Addresses"
          :: map (fun c =>
                    [DQUOTE] ++ Fixed.firstName c ++ [DQUOTE; COMMA; DQUOTE]
                    ++ Fixed.lastName c ++ [DQUOTE; COMMA; DQUOTE]
                    ++ Fixed.phone1 c ++ [DQUOTE; COMMA; DQUOTE]
                    ++ Fixed.phone2 c ++ [DQUOTE; COMMA; DQUOTE]
                    ++ Fixed.phone3 c ++ [DQUOTE; COMMA; DQUOTE]
                    ++ Fixed.email1 c ++ [DQUOTE; COMMA; DQUOTE]
                    ++ Fixed.email2 c ++ [DQUOTE; COMMA; DQUOTE]
                    ++ Fixed.email3 c ++ [DQUOTE; COMMA; DQUOTE]
                    ++ Fixed.addresses c ++ [DQUOTE]) contacts))
  /\ Fixed.convertToCSV []
     = lit "First Name,Last Name,Phone 1,Phone 2,Phone 3,Email 1,Email 2,Email 3,Addresses"
  /\ Fixed.convertToCSV
       [Fixed.mkContact (lit "A" ++ [DQUOTE] ++ lit "B") [] [] [] [] [] [] [] []]
     = lit "First Name,Last Name,Phone 1,Phone 2,Phone 3,Email 1,Email 2,Email 3,Addresses"
       ++ [LF; DQUOTE] ++ lit "A" ++ [DQUOTE] ++ lit "B" ++ [DQUOTE]
       ++ concat (repeat [COMMA; DQUOTE; DQUOTE] 8)
  /\ (forall H : Host, Dynamic.convertToCSV [] = Proto.Ok []).
Proof.
  split; [|split; [|split]].
  - intros contacts. rewrite Fixed_convertToCSV_map. f_equal. f_equal.
    apply map_ext. intros c. apply Fixed_row_text.
  - reflexivity.
  - reflexivity.
  - intros H. reflexivity.
Qed.

(** ** Dictionaries *)

Lemma get_set_eq {V : Type} (d : Dict.t V) (k : str) (v : V) :
  Dict.get (Dict.set d k v) k = Some v.
Proof.
  induction d as [|[k' v'] d IH]; simpl.
  - now rewrite str_eqb_refl.
  - destruct (str_eqb k' k) eqn:E; simpl; rewrite E; [reflexivity | exact IH].
Qed.

Lemma get_set_ne {V : Type} (d : Dict.t V) (k k' : str) (v : V) :
  k <> k' -> Dict.get (Dict.set d k v) k' = Dict.get d k'.
Proof.
  intros Hne. induction d as [|[k0 v0] d IH]; simpl.
  - apply str_eqb_neq in Hne. now rewrite Hne.
  - destruct (str_eqb k0 k) eqn:E; simpl.
    + apply str_eqb_eq in E. subst k0.
      apply str_eqb_neq in Hne. now rewrite Hne.
    + now rewrite IH.
Qed.

Lemma get_set_cases {V : Type} (d : Dict.t V) (k k' : str) (v x : V) :
  Dict.get (Dict.set d k v) k' = Some x ->
  (k' = k /\ x = v) \/ Dict.get d k' = Some x.
Proof.
  destruct (list_eq_dec N.eq_dec k k') as [<- | Hne].
  - rewrite get_set_eq. intros [= <-]. now left.
  - rewrite get_set_ne by exact Hne. now right.
Qed.

Lemma str_eqb_head (a b : char) (x y : str) :
  a <> b -> str_eqb (a :: x) (b :: y) = false.
Proof. intros Hne. apply str_eqb_neq. congruence. Qed.

Lemma truthy_true (s : str) : truthy s = true <-> s <> [].
Proof. destruct s; simpl; split; congruence. Qed.

Lemma FIRST_neq_LAST : Dynamic.FIRST <> Dynamic.LAST.
Proof. discriminate. Qed.

(** ** The record extractor, dynamic schema: the name lines *)

Lemma indexOf_app (c : char) (spec rest : str) :
  indexOf c spec = None -> indexOf c (spec ++ c :: rest) = Some (length spec).
Proof.
  induction spec as [|d spec IH]; simpl; intros Hn.
  - now rewrite N.eqb_refl.
  - destruct (d =? c)%N; [discriminate|].
    destruct (indexOf c spec); [discriminate|]. now rewrite IH.
Qed.

Lemma substring_spec (spec rest : str) (c : char) :
  substring 0 (length spec) (spec ++ c :: rest) = spec.
Proof.
  unfold substring. rewrite Nat.sub_0_r. simpl skipn.
  rewrite firstn_app, Nat.sub_diag, firstn_all. simpl. apply app_nil_r.
Qed.

Lemma substringFrom_value (spec rest : str) (c : char) :
  substringFrom (length spec + 1) (spec ++ c :: rest) = rest.
Proof.
  unfold substringFrom. rewrite Nat.add_1_r.
  change (spec ++ c :: rest) with (spec ++ [c] ++ rest).
  rewrite app_assoc.
  replace (S (length spec)) with (length (spec ++ [c]))
    by (rewrite length_app; simpl; lia).
  rewrite skipn_app, Nat.sub_diag, skipn_all. reflexivity.
Qed.

Section DynamicNames.
Context {H : Host}.

(** A line that is not passed over, cut at its first colon, with a value that
    is not empty after trimming, goes to the body of the loop. *)
Lemma step_structured (st : Dynamic.State) (line spec rest : str) :
  trim line = spec ++ COLON :: rest -> indexOf COLON spec = None ->
  Dynamic.skipped (trim line) = false -> trim rest <> [] ->
  Dynamic.step st line = Dynamic.store st spec (trim rest).
Proof.
  intros Ht Hspec Hskip Hv. apply truthy_true in Hv.
  unfold Dynamic.step. rewrite Hskip, Ht, (indexOf_app _ _ _ Hspec).
  cbv zeta. rewrite substring_spec, substringFrom_value, Hv. reflexivity.
Qed.

Lemma not_skipped (c : char) (t : str) :
  c <> 66%N -> c <> 69%N -> c <> 86%N -> Dynamic.skipped (c :: t) = false.
Proof.
  intros HB HE HV. unfold Dynamic.skipped.
  change (lit "BEGIN:VCARD") with (66%N :: tl (lit "BEGIN:VCARD")).
  change (lit "END:VCARD") with (69%N :: tl (lit "END:VCARD")).
  change (lit "VERSION:") with (86%N :: tl (lit "VERSION:")).
  rewrite !str_eqb_head by assumption.
  cbn [truthy negb orb startsWith].
  apply N.eqb_neq in HV. rewrite N.eqb_sym in HV. now rewrite HV.
Qed.

(** What the loop does on a line whose field spec is exactly FN. *)
Lemma step_FN (st : Dynamic.State) (line rest : str) :
  trim line = lit "FN:" ++ rest -> trim rest <> [] ->
  Dynamic.step st line
  = (Dict.set (Dict.set (fst st) Dynamic.FIRST (fst (parseName (trim rest))))
              Dynamic.LAST (snd (parseName (trim rest))),
     snd st).
Proof.
  intros Ht Hv.
  rewrite (step_structured st line (lit "FN") rest); try assumption.
  - unfold Dynamic.store. rewrite str_eqb_refl.
    destruct (parseName (trim rest)); reflexivity.
  - reflexivity.
  - rewrite Ht. apply not_skipped; discriminate.
Qed.

(** What the loop does on a line whose field spec is exactly N. *)
Lemma step_N (st : Dynamic.State) (line rest : str) :
  trim line = lit "N:" ++ rest -> trim rest <> [] ->
  Dynamic.step st line = Dynamic.store st (lit "N") (trim rest).
Proof.
  intros Ht Hv.
  rewrite (step_structured st line (lit "N") rest); try assumption.
  - reflexivity.
  - reflexivity.
  - rewrite Ht. apply not_skipped; discriminate.
Qed.

(** A line whose value is empty after trimming changes nothing. *)
Lemma step_empty_value (st : Dynamic.State) (line spec rest : str) :
  trim line = spec ++ COLON :: rest -> indexOf COLON spec = None ->
  trim rest = [] -> Dynamic.step st line = st.
Proof.
  intros Ht Hspec Hv. unfold Dynamic.step.
  destruct (Dynamic.skipped (trim line)); [reflexivity|].
  rewrite Ht, (indexOf_app _ _ _ Hspec). cbv zeta.
  rewrite substringFrom_value, Hv. reflexivity.
Qed.

(** A line without colon changes nothing. *)
Lemma step_no_colon (st : Dynamic.State) (line : str) :
  indexOf COLON (trim line) = None -> Dynamic.step st line = st.
Proof.
  intros Hn. unfold Dynamic.step. rewrite Hn.
  now destruct (Dynamic.skipped (trim line)).
Qed.

Lemma store_N (st : Dynamic.State) (value : str) :
  Dynamic.store st (lit "N") value
  = let nameParts := split SEMI value in
    let contact1 :=
      if truthy (orEmpty (at_ 1 nameParts)) && Dynamic.unset (fst st) Dynamic.FIRST
      then Dict.set (fst st) Dynamic.FIRST (orEmpty (at_ 1 nameParts))
      else fst st in
    let contact2 :=
      if truthy (orEmpty (at_ 0 nameParts)) && Dynamic.unset contact1 Dynamic.LAST
      then Dict.set contact1 Dynamic.LAST (orEmpty (at_ 0 nameParts))
      else contact1 in
    (contact2, snd st).
Proof. reflexivity. Qed.


Lemma unset_false (contact : Dynamic.Contact) (k x : str) :
  Dict.get contact k = Some x -> x <> [] -> Dynamic.unset contact k = false.
Proof.
  intros E Hx. unfold Dynamic.unset. rewrite E. simpl.
  apply truthy_true in Hx. now rewrite Hx.
Qed.

Lemma unset_true (contact : Dynamic.Contact) (k : str) :
  Dict.get contact k = Some [] \/ Dict.get contact k = None ->
  Dynamic.unset contact k = true.
Proof. unfold Dynamic.unset. now intros [-> | ->]. Qed.

(** A structured-name line keeps a first name and a last name that are
    already there and not empty. *)
Lemma store_N_keeps (st : Dynamic.State) (value k x : str) :
  k = Dynamic.FIRST \/ k = Dynamic.LAST ->
  Dict.get (fst st) k = Some x -> x <> [] ->
  Dict.get (fst (Dynamic.store st (lit "N") value)) k = Some x.
Proof.
  intros Hk E Hx. rewrite store_N. cbv zeta. cbn [fst].
  pose proof FIRST_neq_LAST as Hne.
  destruct Hk as [-> | ->].
  - rewrite (unset_false _ _ _ E Hx), andb_false_r.
    match goal with |- context [if ?b then _ else _] => destruct b end;
      [rewrite get_set_ne by congruence|]; exact E.
  - match goal with
    | |- context [if ?b then Dict.set (fst st) _ _ else _] => destruct b
    end.
    + assert (E' : Dict.get (Dict.set (fst st) Dynamic.FIRST
                               (orEmpty (at_ 1 (split SEMI value)))) Dynamic.LAST
                   = Some x) by (rewrite get_set_ne by congruence; exact E).
      rewrite (unset_false _ _ _ E' Hx), andb_false_r. exact E'.
    + rewrite (unset_false _ _ _ E Hx), andb_false_r. exact E.
Qed.

(** A structured-name line fills a first name or a last name that is absent
    or empty, from its second or first component. *)
Lemma store_N_fills (st : Dynamic.State) (value : str) :
  (orEmpty (at_ 1 (split SEMI value)) <> [] ->
   Dict.get (fst st) Dynamic.FIRST = Some [] \/ Dict.get (fst st) Dynamic.FIRST = None ->
   Dict.get (fst (Dynamic.store st (lit "N") value)) Dynamic.FIRST
   = Some (orEmpty (at_ 1 (split SEMI value))))
  /\ (orEmpty (at_ 0 (split SEMI value)) <> [] ->
      Dict.get (fst st) Dynamic.LAST = Some [] \/ Dict.get (fst st) Dynamic.LAST = None ->
      Dict.get (fst (Dynamic.store st (lit "N") value)) Dynamic.LAST
      = Some (orEmpty (at_ 0 (split SEMI value)))).
Proof.
  pose proof FIRST_neq_LAST as Hne.
  rewrite store_N. cbv zeta. cbn [fst]. split.
  - intros Hp Hget. apply truthy_true in Hp.
    rewrite Hp, (unset_true _ _ Hget). cbn [andb].
    match goal with |- context [if ?b then _ else _] => destruct b end;
      [rewrite get_set_ne by congruence|]; apply get_set_eq.
  - intros Hp Hget. apply truthy_true in Hp. rewrite Hp.
    match goal with
    | |- context [if ?b then Dict.set (fst st) _ _ else _] => destruct b
    end.
    + rewrite unset_true by (rewrite get_set_ne by congruence; exact Hget).
      cbn [andb]. apply get_set_eq.
    + rewrite (unset_true _ _ Hget). cbn [andb]. apply get_set_eq.
Qed.

Lemma split_nil (c : char) : split c [] = [[]].
Proof. reflexivity. Qed.

(** C1 (amended): a full-name (FN) line always populates First Name and Last
    Name from its own value, whatever an earlier line stored there; a
    structured-name (N) line leaves a First Name and a Last Name that are
    already there and not empty as they are.  So the values of an FN line win
    whether it comes before or after the N line. *)
Theorem name_lines_precedence :
  (forall (st : Dynamic.State) (line rest : str),
     trim line = lit "FN:" ++ rest -> trim rest <> [] ->
     Dict.get (fst (Dynamic.step st line)) Dynamic.FIRST
     = Some (fst (parseName (trim rest)))
     /\ Dict.get (fst (Dynamic.step st line)) Dynamic.LAST
        = Some (snd (parseName (trim rest))))
  /\ (forall (st : Dynamic.State) (line rest k x : str),
        trim line = lit "N:" ++ rest ->
        k = Dynamic.FIRST \/ k = Dynamic.LAST ->
        Dict.get (fst st) k = Some x -> x <> [] ->
        Dict.get (fst (Dynamic.step st line)) k = Some x).
Proof.
  split.
  - intros st line rest Ht Hv. rewrite (step_FN st line rest Ht Hv). cbn [fst].
    split.
    + rewrite get_set_ne by (pose proof FIRST_neq_LAST; congruence).
      apply get_set_eq.
    + apply get_set_eq.
  - intros st line rest k x Ht Hk E Hx.
    destruct (list_eq_dec N.eq_dec (trim rest) []) as [Hv | Hv].
    + rewrite (step_empty_value st line (lit "N") rest Ht eq_refl Hv). exact E.
    + rewrite (step_N st line rest Ht Hv). now apply store_N_keeps.
Qed.

(** C10: the set-if-absent test of the structured-name (N) line takes an
    empty string for absent: when First Name (Last Name) is absent or holds
    the empty string, for instance after an FN line with a single token, an N
    line whose second (first) component is not empty stores that component
    there. *)
Theorem structured_name_fills_empty :
  (forall (st : Dynamic.State) (line rest : str),
     trim line = lit "N:" ++ rest ->
     (orEmpty (at_ 1 (split SEMI (trim rest))) <> [] ->
      Dict.get (fst st) Dynamic.FIRST = Some [] \/ Dict.get (fst st) Dynamic.FIRST = None ->
      Dict.get (fst (Dynamic.step st line)) Dynamic.FIRST
      = Some (orEmpty (at_ 1 (split SEMI (trim rest)))))
     /\ (orEmpty (at_ 0 (split SEMI (trim rest))) <> [] ->
         Dict.get (fst st) Dynamic.LAST = Some [] \/ Dict.get (fst st) Dynamic.LAST = None ->
         Dict.get (fst (Dynamic.step st line)) Dynamic.LAST
         = Some (orEmpty (at_ 0 (split SEMI (trim rest))))))
  /\ Dynamic.run (map lit ["BEGIN:VCARD"; "FN:Cher"]%string)
     = ([(Dynamic.FIRST, lit "Cher"); (Dynamic.LAST, [])], [])
  /\ Dynamic.parseVCard
       (card ["BEGIN:VCARD"; "FN:Cher"; "N:Sarkisian;Cherilyn"; "END:VCARD"]%string)
     = [(Dynamic.FIRST, lit "Cher"); (Dynamic.LAST, lit "Sarkisian")].
Proof.
  split; [|split; reflexivity].
  intros st line rest Ht.
  destruct (list_eq_dec N.eq_dec (trim rest) []) as [Hv | Hv].
  - rewrite Hv, split_nil. split; intros Hp; now contradiction Hp.
  - rewrite (step_N st line rest Ht Hv). apply store_N_fills.
Qed.

End DynamicNames.

(** C1, as the specification words it, fails: an FN line that comes after an
    N line overwrites the names that the N line stored. *)
Lemma full_name_after_structured_name_overwrites :
  Dynamic.run (map lit ["BEGIN:VCARD"; "N:Doe;John"]%string)
  = ([(Dynamic.FIRST, lit "John"); (Dynamic.LAST, lit "Doe")], [])
  /\ Dynamic.parseVCard
       (card ["BEGIN:VCARD"; "N:Doe;John"; "FN:Jane Smith"; "END:VCARD"]%string)
     = [(Dynamic.FIRST, lit "Jane"); (Dynamic.LAST, lit "Smith")]
  /\ Dict.get (Dynamic.parseVCard
                 (card ["BEGIN:VCARD"; "N:Doe;John"; "FN:Jane Smith"; "END:VCARD"]%string))
              Dynamic.FIRST
     <> Some (lit "John").
Proof. split; [|split]; [reflexivity | reflexivity | discriminate]. Qed.

(** The amended C1 on the two orders of an FN line and an N line. *)
Lemma name_lines_precedence_witness :
  Dict.get (fst (Dynamic.step
                   ([(Dynamic.FIRST, lit "John"); (Dynamic.LAST, lit "Doe")], [])
                   (lit "FN:Jane Smith")))
           Dynamic.FIRST
  = Some (lit "Jane")
  /\ Dict.get (fst (Dynamic.step
                      ([(Dynamic.FIRST, lit "Jane"); (Dynamic.LAST, lit "Smith")], [])
                      (lit "N:Doe;John")))
              Dynamic.LAST
     = Some (lit "Smith").
Proof.
  destruct (@name_lines_precedence AsciiHost.host) as [HFN HN].
  split.
  - exact (proj1 (HFN ([(Dynamic.FIRST, lit "John"); (Dynamic.LAST, lit "Doe")], [])
                      (lit "FN:Jane Smith") (lit "Jane Smith") eq_refl
                      ltac:(discriminate))).
  - exact (HN ([(Dynamic.FIRST, lit "Jane"); (Dynamic.LAST, lit "Smith")], [])
              (lit "N:Doe;John") (lit "Doe;John") Dynamic.LAST (lit "Smith")
              eq_refl (or_intror eq_refl) eq_refl ltac:(discriminate)).
Defined.

(** C10 on the single-token full name Cher. *)
Lemma structured_name_fills_empty_witness :
  Dict.get (fst (Dynamic.step
                   ([(Dynamic.FIRST, lit "Cher"); (Dynamic.LAST, [])], [])
                   (lit "N:Sarkisian;Cherilyn")))
           Dynamic.LAST
  = Some (lit "Sarkisian").
Proof.
  destruct (@structured_name_fills_empty AsciiHost.host) as [Hfill _].
  exact (proj2 (Hfill ([(Dynamic.FIRST, lit "Cher"); (Dynamic.LAST, [])], [])
                      (lit "N:Sarkisian;Cherilyn") (lit "Sarkisian;Cherilyn")
                      eq_refl)
               ltac:(discriminate) (or_introl eq_refl)).
Defined.

(** ** The record extractor, dynamic schema: the count of a label *)

Section DynamicLabels.
Context {H : Host}.

(** The loop either hands the line to [assign] or leaves the counts alone. *)
Lemma step_assignment (st : Dynamic.State) (line : str) :
  match Dynamic.assignment line with
  | Some (label, value) => Dynamic.step st line = Dynamic.assign st label value
  | None => snd (Dynamic.step st line) = snd st
  end.
Proof.
  unfold Dynamic.assignment, Dynamic.step.
  destruct (Dynamic.skipped (trim line)); [reflexivity|].
  destruct (indexOf COLON (trim line)) as [colonIndex|]; [|reflexivity].
  cbv zeta.
  destruct (negb (truthy (trim (substringFrom (colonIndex + 1) (trim line)))));
    [reflexivity|].
  unfold Dynamic.store.
  destruct (str_eqb (substring 0 colonIndex (trim line)) (lit "FN")).
  { now destruct (parseName _). }
  destruct (str_eqb (substring 0 colonIndex (trim line)) (lit "N")); [reflexivity|].
  destruct (startsWith (lit "ADR") (substring 0 colonIndex (trim line)));
    [|reflexivity].
  cbv zeta. now destruct (0 <? length _).
Qed.

(** [assign] stores under the key of the next occurrence and counts it. *)
Lemma assign_spec (st : Dynamic.State) (label value : str) :
  let n := (Dynamic.count (snd st) label + 1)%N in
  fst (Dynamic.assign st label value)
  = Dict.set (fst st) (Dynamic.finalFieldName label n) value
  /\ Dynamic.count (snd (Dynamic.assign st label value)) label = n
  /\ forall other, other <> label ->
       Dynamic.count (snd (Dynamic.assign st label value)) other
       = Dynamic.count (snd st) other.
Proof.
  destruct st as [contact fieldCounts]. unfold Dynamic.assign, Dynamic.count.
  cbn [fst snd].
  destruct (Dict.get fieldCounts label) as [c|] eqn:E; cbn [Dynamic.noCount].
  - destruct (c =? 0)%N eqn:Ec.
    + apply N.eqb_eq in Ec. subst c. rewrite get_set_eq. cbn [fst snd].
      rewrite get_set_eq. split; [reflexivity|]. split; [reflexivity|].
      intros other Hne. now rewrite !get_set_ne by congruence.
    + rewrite E. cbn [fst snd]. rewrite get_set_eq.
      split; [reflexivity|]. split; [reflexivity|].
      intros other Hne. now rewrite get_set_ne by congruence.
  - rewrite get_set_eq. cbn [fst snd]. rewrite get_set_eq.
    split; [reflexivity|]. split; [reflexivity|].
    intros other Hne. now rewrite !get_set_ne by congruence.
Qed.

Lemma occurrences_app (label : str) (pre post : list str) :
  Dynamic.occurrences label (pre ++ post)
  = Dynamic.occurrences label pre + Dynamic.occurrences label post.
Proof. unfold Dynamic.occurrences. now rewrite filter_app, length_app. Qed.

(** The count of a label is the number of lines assigned that label so far. *)
Lemma count_occurrences (label : str) (lines : list str) (st : Dynamic.State) :
  Dynamic.count (snd (fold_left Dynamic.step lines st)) label
  = (Dynamic.count (snd st) label + N.of_nat (Dynamic.occurrences label lines))%N.
Proof.
  revert st. induction lines as [|line lines IH]; intros st.
  - cbn. lia.
  - cbn [fold_left]. rewrite IH.
    change (line :: lines) with ([line] ++ lines). rewrite occurrences_app.
    unfold Dynamic.occurrences at 2. cbn [filter].
    pose proof (step_assignment st line) as Hstep.
    destruct (Dynamic.assignment line) as [[l v]|].
    + rewrite Hstep.
      destruct (assign_spec st l v) as (_ & Hsame & Hother).
      destruct (str_eqb l label) eqn:El.
      * apply str_eqb_eq in El. subst l. rewrite Hsame. cbn [length]. lia.
      * apply str_eqb_neq in El. rewrite Hother by congruence. cbn [length]. lia.
    + rewrite Hstep. cbn [length]. lia.
Qed.

Lemma run_app (pre post : list str) :
  Dynamic.run (pre ++ post) = fold_left Dynamic.step post (Dynamic.run pre).
Proof. unfold Dynamic.run. apply fold_left_app. Qed.

End DynamicLabels.

(** ** The table serialiser, dynamic schema *)

(** *** The keys of an object *)

Lemma In_map_fst_get {V : Type} (d : Dict.t V) (k : str) :
  In k (map fst d) <-> Dict.get d k <> None.
Proof.
  induction d as [|[k' v] d IH]; simpl.
  - split; [tauto | congruence].
  - destruct (str_eqb k' k) eqn:E.
    + apply str_eqb_eq in E. split; [discriminate | auto].
    + apply str_eqb_neq in E. rewrite <- IH. tauto.
Qed.

Lemma In_insertIndex (n m : N) (l : list N) :
  In m (Dict.insertIndex n l) <-> m = n \/ In m l.
Proof.
  induction l as [|x l IH]; simpl.
  - intuition congruence.
  - destruct (n <=? x)%N; simpl; [|rewrite IH]; intuition congruence.
Qed.

Lemma In_sortIndices (m : N) (l : list N) :
  In m (fold_right Dict.insertIndex [] l) <-> In m l.
Proof.
  induction l as [|x l IH]; simpl; [tauto|].
  rewrite In_insertIndex, IH. intuition congruence.
Qed.

Lemma arrayIndex_text (k : str) (n : N) :
  Dict.arrayIndex k = Some n -> numberToString n = k.
Proof.
  unfold Dict.arrayIndex. destruct k as [|c k]; [discriminate|].
  destruct (Dict.parseDigits 0 (c :: k)) as [m|]; [|discriminate].
  destruct (str_eqb (numberToString m) (c :: k)) eqn:E; [|discriminate].
  destruct (m <? 4294967295)%N; [|discriminate].
  intros [= <-]. now apply str_eqb_eq.
Qed.

(** [Object.keys] lists the own properties, each one once when the object
    holds each one once; only the order is particular. *)
Lemma In_keys {V : Type} (d : Dict.t V) (k : str) :
  In k (Dict.keys d) <-> Dict.get d k <> None.
Proof.
  rewrite <- In_map_fst_get. unfold Dict.keys.
  rewrite in_app_iff, in_map_iff, filter_In. split.
  - intros [(n & <- & Hn) | [Hk _]]; [|exact Hk].
    apply In_sortIndices, in_flat_map in Hn. destruct Hn as (k' & Hk' & Hn).
    destruct (Dict.arrayIndex k') as [m|] eqn:E; [|contradiction].
    destruct Hn as [<- | []]. now rewrite (arrayIndex_text k' m E).
  - intros Hk. destruct (Dict.arrayIndex k) as [n|] eqn:E; [left | right; tauto].
    exists n. split; [now apply arrayIndex_text|].
    apply In_sortIndices, in_flat_map. exists k. split; [exact Hk|].
    rewrite E. now left.
Qed.

(** *** The set of all field names *)

Lemma existsb_str_eqb (x : str) (l : list str) :
  existsb (str_eqb x) l = true <-> In x l.
Proof.
  rewrite existsb_exists. split.
  - intros (y & Hy & E). apply str_eqb_eq in E. now subst.
  - intros Hx. exists x. split; [exact Hx | apply str_eqb_refl].
Qed.

Lemma In_add (x field : str) (allFields : list str) :
  In x (Dynamic.add allFields field) <-> In x allFields \/ x = field.
Proof.
  unfold Dynamic.add. destruct (existsb (str_eqb field) allFields) eqn:E.
  - apply existsb_str_eqb in E. split; [tauto|]. intros [Hx | ->]; assumption.
  - rewrite in_app_iff. simpl. intuition congruence.
Qed.

Lemma NoDup_add (field : str) (allFields : list str) :
  NoDup allFields -> NoDup (Dynamic.add allFields field).
Proof.
  intros Hnd. unfold Dynamic.add.
  destruct (existsb (str_eqb field) allFields) eqn:E; [exact Hnd|].
  assert (Hnot : ~ In field allFields).
  { intros Hin. apply existsb_str_eqb in Hin. congruence. }
  clear E. induction Hnd as [|y l Hy Hnd IH]; simpl.
  - constructor; [tauto | constructor].
  - constructor.
    + rewrite in_app_iff. simpl in *. intuition congruence.
    + apply IH. simpl in Hnot. tauto.
Qed.

Lemma In_fold_add (x : str) (ks allFields : list str) :
  In x (fold_left Dynamic.add ks allFields) <-> In x allFields \/ In x ks.
Proof.
  revert allFields. induction ks as [|k ks IH]; intros allFields; simpl.
  - tauto.
  - rewrite IH, In_add. intuition congruence.
Qed.

Lemma NoDup_fold_add (ks allFields : list str) :
  NoDup allFields -> NoDup (fold_left Dynamic.add ks allFields).
Proof.
  revert allFields. induction ks as [|k ks IH]; intros allFields Hnd; simpl.
  - exact Hnd.
  - apply IH. now apply NoDup_add.
Qed.

Lemma In_collect_from (x : str) (contacts : list Dynamic.Contact) (init : list str) :
  In x (fold_left (fun allFields contact =>
                     fold_left Dynamic.add (Dict.keys contact) allFields)
                  contacts init)
  <-> In x init \/ exists c, In c contacts /\ Dict.get c x <> None.
Proof.
  revert init. induction contacts as [|c contacts IH]; intros init; simpl.
  - split; [tauto|]. intros [Hx | (c & [] & _)]. exact Hx.
  - rewrite IH, In_fold_add, In_keys. split.
    + intros [[Hx | Hx] | (c' & Hc' & Hx)]; eauto.
    + intros [Hx | (c' & [<- | Hc'] & Hx)]; eauto.
Qed.

Lemma NoDup_collect_from (contacts : list Dynamic.Contact) (init : list str) :
  NoDup init ->
  NoDup (fold_left (fun allFields contact =>
                      fold_left Dynamic.add (Dict.keys contact) allFields)
                   contacts init).
Proof.
  revert init. induction contacts as [|c contacts IH]; intros init Hnd; simpl.
  - exact Hnd.
  - apply IH. now apply NoDup_fold_add.
Qed.

(** The header holds the union of the keys of all contacts, each once. *)
Lemma collect_union (contacts : list Dynamic.Contact) :
  NoDup (Dynamic.collect contacts)
  /\ forall k, In k (Dynamic.collect contacts)
               <-> exists c, In c contacts /\ Dict.get c k <> None.
Proof.
  split.
  - apply NoDup_collect_from. constructor.
  - intros k. unfold Dynamic.collect. rewrite In_collect_from. simpl. tauto.
Qed.

(** *** The sort *)

Section DynamicSort.
Context {H : Host}.

Lemma In_insert (cmp : str -> str -> Z) (x y : str) (l : list str) :
  In y (Dynamic.insert cmp x l) <-> y = x \/ In y l.
Proof.
  induction l as [|z l IH]; simpl.
  - intuition congruence.
  - destruct (cmp x z <=? 0)%Z; simpl; [|rewrite IH]; intuition congruence.
Qed.

Lemma insert_perm (cmp : str -> str -> Z) (x : str) (l : list str) :
  Permutation (Dynamic.insert cmp x l) (x :: l).
Proof.
  induction l as [|z l IH]; simpl; [reflexivity|].
  destruct (cmp x z <=? 0)%Z; [reflexivity|].
  rewrite IH. apply perm_swap.
Qed.

Lemma sort_perm (cmp : str -> str -> Z) (l : list str) :
  Permutation (Dynamic.sort cmp l) l.
Proof.
  induction l as [|x l IH]; simpl; [reflexivity|].
  rewrite insert_perm. now constructor.
Qed.

Lemma compareFields_FIRST (y : str) : Dynamic.compareFields Dynamic.FIRST y = (-1)%Z.
Proof. unfold Dynamic.compareFields. now rewrite str_eqb_refl. Qed.

Lemma compareFields_to_FIRST (x : str) :
  x <> Dynamic.FIRST -> Dynamic.compareFields x Dynamic.FIRST = 1%Z.
Proof.
  intros Hx. apply str_eqb_neq in Hx. unfold Dynamic.compareFields.
  now rewrite Hx, str_eqb_refl.
Qed.

Lemma compareFields_LAST (y : str) :
  y <> Dynamic.FIRST -> Dynamic.compareFields Dynamic.LAST y = (-1)%Z.
Proof.
  intros Hy. apply str_eqb_neq in Hy. unfold Dynamic.compareFields.
  now rewrite Hy, str_eqb_refl.
Qed.

Lemma other_spec (k : str) :
  Dynamic.other k = true <-> k <> Dynamic.FIRST /\ k <> Dynamic.LAST.
Proof.
  unfold Dynamic.other. rewrite andb_true_iff, !negb_true_iff, !str_eqb_neq.
  tauto.
Qed.

Lemma compareFields_to_LAST (x : str) :
  Dynamic.other x = true -> Dynamic.compareFields x Dynamic.LAST = 1%Z.
Proof.
  intros Hx. apply other_spec in Hx. destruct Hx as [H1 H2].
  apply str_eqb_neq in H1, H2. unfold Dynamic.compareFields.
  now rewrite H1, H2, str_eqb_refl.
Qed.

Lemma compareFields_other (x y : str) :
  Dynamic.other x = true -> Dynamic.other y = true ->
  Dynamic.compareFields x y = localeCompare x y.
Proof.
  intros Hx Hy. apply other_spec in Hx, Hy.
  destruct Hx as [Hx1 Hx2], Hy as [Hy1 Hy2].
  apply str_eqb_neq in Hx1, Hx2, Hy1, Hy2. unfold Dynamic.compareFields.
  now rewrite Hx1, Hx2, Hy1, Hy2.
Qed.

Lemma insert_other (x : str) (r : list str) :
  Dynamic.other x = true -> Forall (fun y => Dynamic.other y = true) r ->
  Dynamic.insert Dynamic.compareFields x r = Dynamic.insert localeCompare x r.
Proof.
  intros Hx. induction 1 as [|y r Hy _ IH]; cbn [Dynamic.insert]; [reflexivity|].
  rewrite (compareFields_other x y Hx Hy), IH. reflexivity.
Qed.

Lemma insert_FIRST (l : list str) :
  Dynamic.insert Dynamic.compareFields Dynamic.FIRST l = Dynamic.FIRST :: l.
Proof.
  destruct l; cbn [Dynamic.insert]; [reflexivity | now rewrite compareFields_FIRST].
Qed.

(** Where the comparison function puts a new element in a list made of the
    First Name entries, the Last Name entries and the other names. *)
Lemma insert_shape (x : str) (fs ls r : list str) :
  Forall (eq Dynamic.FIRST) fs -> Forall (eq Dynamic.LAST) ls ->
  Forall (fun y => Dynamic.other y = true) r ->
  Dynamic.insert Dynamic.compareFields x (fs ++ ls ++ r)
  = if str_eqb x Dynamic.FIRST then (x :: fs) ++ ls ++ r
    else if str_eqb x Dynamic.LAST then fs ++ (x :: ls) ++ r
    else fs ++ ls ++ Dynamic.insert localeCompare x r.
Proof.
  intros Hfs Hls Hr.
  destruct (str_eqb x Dynamic.FIRST) eqn:E1.
  { apply str_eqb_eq in E1. subst x. apply insert_FIRST. }
  apply str_eqb_neq in E1.
  induction Hfs as [|f fs <- _ IHfs]; cbn [app Dynamic.insert].
  2:{ rewrite (compareFields_to_FIRST x E1). cbn [Z.leb Z.compare]. rewrite IHfs.
      destruct (str_eqb x Dynamic.LAST); reflexivity. }
  destruct (str_eqb x Dynamic.LAST) eqn:E2.
  { apply str_eqb_eq in E2. subst x.
    destruct (ls ++ r) as [|y l] eqn:El; cbn [app Dynamic.insert];
      [reflexivity|].
    rewrite compareFields_LAST; [reflexivity|].
    destruct ls as [|? ls]; simpl in El.
    - subst r. inversion Hr as [|? ? Hy _]; subst.
      apply other_spec in Hy. tauto.
    - injection El as <- _. inversion Hls; subst. discriminate. }
  apply str_eqb_neq in E2.
  assert (Hx : Dynamic.other x = true) by (apply other_spec; tauto).
  induction Hls as [|l ls <- _ IHls]; cbn [app Dynamic.insert].
  - now apply insert_other.
  - rewrite (compareFields_to_LAST x Hx). cbn [Z.leb Z.compare]. now rewrite IHls.
Qed.

Lemma Forall_filter_eq (x : str) (l : list str) :
  Forall (eq x) (filter (fun k => str_eqb k x) l).
Proof.
  apply Forall_forall. intros y Hy. apply filter_In in Hy.
  destruct Hy as [_ E]. apply str_eqb_eq in E. congruence.
Qed.

Lemma Forall_sort_other (cmp : str -> str -> Z) (l : list str) :
  Forall (fun y => Dynamic.other y = true)
         (Dynamic.sort cmp (filter Dynamic.other l)).
Proof.
  apply Forall_forall. intros y Hy.
  apply (Permutation_in _ (sort_perm cmp _)) in Hy.
  apply filter_In in Hy. tauto.
Qed.

(** The sort with the comparison function of [convertToCSV]: First Name, Last
    Name, then the other names sorted by [localeCompare]. *)
Lemma sort_compareFields (l : list str) :
  Dynamic.sort Dynamic.compareFields l
  = filter (fun k => str_eqb k Dynamic.FIRST) l
    ++ filter (fun k => str_eqb k Dynamic.LAST) l
    ++ Dynamic.sort localeCompare (filter Dynamic.other l).
Proof.
  induction l as [|x l IH]; [reflexivity|].
  change (Dynamic.sort Dynamic.compareFields (x :: l))
    with (Dynamic.insert Dynamic.compareFields x (Dynamic.sort Dynamic.compareFields l)).
  rewrite IH, insert_shape;
    [| apply Forall_filter_eq | apply Forall_filter_eq | apply Forall_sort_other].
  cbn [filter].
  assert (Ho : Dynamic.other x
               = (negb (str_eqb x Dynamic.FIRST) && negb (str_eqb x Dynamic.LAST))%bool)
    by reflexivity.
  rewrite Ho. clear Ho.
  destruct (str_eqb x Dynamic.FIRST) eqn:E1.
  - apply str_eqb_eq in E1. subst x.
    assert (E2 : str_eqb Dynamic.FIRST Dynamic.LAST = false) by reflexivity.
    rewrite E2. reflexivity.
  - destruct (str_eqb x Dynamic.LAST) eqn:E2; reflexivity.
Qed.

Lemma filter_eq_NoDup (x : str) (l : list str) :
  NoDup l ->
  filter (fun k => str_eqb k x) l = if existsb (str_eqb x) l then [x] else [].
Proof.
  induction 1 as [|y l Hy Hnd IH]; [reflexivity|].
  cbn [filter existsb]. rewrite IH.
  destruct (str_eqb y x) eqn:E.
  - apply str_eqb_eq in E. subst y. rewrite str_eqb_refl. cbn [orb].
    destruct (existsb (str_eqb x) l) eqn:Ex; [|reflexivity].
    apply existsb_str_eqb in Ex. contradiction.
  - assert (E' : str_eqb x y = false).
    { apply str_eqb_neq. apply str_eqb_neq in E. congruence. }
    rewrite E'. reflexivity.
Qed.

Section Sorted.
Context {HC : ConsistentCollation H}.

Lemma insert_sorted (x : str) (l : list str) :
  StronglySorted Dynamic.localeLe l ->
  StronglySorted Dynamic.localeLe (Dynamic.insert localeCompare x l).
Proof.
  induction 1 as [|y l Hl IH Hy]; simpl.
  - repeat constructor.
  - destruct (localeCompare x y <=? 0)%Z eqn:E.
    + apply Z.leb_le in E. constructor; [now constructor|].
      constructor; [exact E|].
      eapply Forall_impl; [|exact Hy].
      intros z Hz. exact (localeCompare_trans x y z E Hz).
    + apply Z.leb_gt in E. constructor; [exact IH|].
      apply Forall_forall. intros z Hz. apply In_insert in Hz.
      destruct Hz as [-> | Hz].
      * destruct (localeCompare_total x y) as [Hxy | Hyx]; [lia | exact Hyx].
      * rewrite Forall_forall in Hy. now apply Hy.
Qed.

Lemma sort_sorted (l : list str) :
  StronglySorted Dynamic.localeLe (Dynamic.sort localeCompare l).
Proof.
  induction l as [|x l IH]; simpl; [constructor | now apply insert_sorted].
Qed.

End Sorted.

End DynamicSort.

(** ** The keys of a record of the dynamic-schema extractor

    No key under which [parseVCard] reads or writes [fieldCounts] and
    [contact] names a member of [Object.prototype]: these reads find an own
    property or nothing, and the records of [parseVCard] can be read by
    [convertToCSV]. *)

Lemma inherited_In (k : str) :
  Proto.inherited k = true <-> In k (Proto.accessor :: Proto.functions).
Proof.
  unfold Proto.inherited. rewrite orb_true_iff, str_eqb_eq, existsb_str_eqb.
  cbn [In]. split; intros [E | E]; auto.
Qed.

(** No inherited name holds a space and none starts with the letter f. *)
Lemma inherited_shape (k : str) :
  Proto.inherited k = true ->
  existsb (N.eqb SPACE) k = false /\ startsWith (lit "f") k = false.
Proof.
  intros Hk. apply inherited_In in Hk.
  assert (Hall : Forall (fun k => existsb (N.eqb SPACE) k = false
                                  /\ startsWith (lit "f") k = false)
                        (Proto.accessor :: Proto.functions))
    by (repeat constructor).
  rewrite Forall_forall in Hall. now apply Hall.
Qed.

Lemma spaced_own (a b : str) : Proto.inherited (a ++ SPACE :: b) = false.
Proof.
  destruct (Proto.inherited (a ++ SPACE :: b)) eqn:E; [|reflexivity].
  apply inherited_shape in E. destruct E as [E _].
  rewrite existsb_app in E. cbn [existsb] in E.
  rewrite N.eqb_refl, orb_true_r in E. discriminate E.
Qed.

Lemma set_plain (o : Dict.t str) (k v : str) :
  Proto.plain o -> Proto.inherited k = false -> Proto.plain (Dict.set o k v).
Proof.
  intros Ho Hk k' Hget.
  destruct (list_eq_dec N.eq_dec k k') as [<- | Hne]; [exact Hk|].
  rewrite get_set_ne in Hget by exact Hne. now apply Ho.
Qed.

Lemma forallb_false {A : Type} (f : A -> bool) (l : list A) :
  forallb f l = false -> exists x, In x l /\ f x = false.
Proof.
  induction l as [|x l IH]; cbn [forallb]; [discriminate|].
  destruct (f x) eqn:E; cbn [andb].
  - intros Hl. destruct (IH Hl) as (y & Hy & Ey). exists y. split; [now right | exact Ey].
  - intros _. exists x. split; [now left | exact E].
Qed.

Section DynamicKeys.
Context {H : Host}.

(** The loop either leaves the state alone or runs its body with a value
    that is not empty. *)
Lemma step_cases (st : Dynamic.State) (line : str) :
  Dynamic.step st line = st
  \/ exists fieldPart value,
       value <> [] /\ Dynamic.step st line = Dynamic.store st fieldPart value.
Proof.
  unfold Dynamic.step.
  destruct (Dynamic.skipped (trim line)); [now left|].
  destruct (indexOf COLON (trim line)) as [i|]; [|now left].
  cbv zeta.
  destruct (truthy (trim (substringFrom (i + 1) (trim line)))) eqn:E; [|now left].
  right. eexists _, _. split; [|reflexivity]. now apply truthy_true.
Qed.

Lemma member_inherited (k : str) :
  Proto.member k = None <-> Proto.inherited k = false.
Proof.
  unfold Proto.member, Proto.inherited.
  destruct (str_eqb k Proto.accessor); cbn [orb]; [split; discriminate|].
  destruct (existsb (str_eqb k) Proto.functions); split; congruence.
Qed.

(** The text of a member of [Object.prototype] is not the name of one. *)
Lemma member_text_own (k : str) (m : Proto.Value) :
  Proto.member k = Some m -> Proto.inherited (Proto.text m) = false.
Proof.
  unfold Proto.member. destruct (str_eqb k Proto.accessor).
  - intros [= <-]. reflexivity.
  - destruct (existsb (str_eqb k) Proto.functions); [|discriminate].
    intros [= <-]. cbn [Proto.text].
    destruct (Proto.inherited (lit "function" ++ nativeFunction k)) eqn:E;
      [|reflexivity].
    apply inherited_shape in E. destruct E as [_ E]. discriminate E.
Qed.

Lemma fieldMapping_values (ft label : str) :
  Dict.get Dynamic.fieldMapping ft = Some label ->
  truthy label = true /\ Proto.inherited label = false.
Proof.
  unfold Dynamic.fieldMapping. cbn [Dict.get].
  repeat match goal with
         | |- (if ?b then _ else _) = _ -> _ =>
             destruct b; [intros [= <-]; split; reflexivity|]
         end.
  discriminate.
Qed.

(** What [fieldMapping[fieldType] || fieldType] gives, as a string. *)
Lemma baseName_text (ft : str) :
  Proto.text (Proto.orString (Proto.read Dynamic.fieldMapping ft) ft)
  = match Dict.get Dynamic.fieldMapping ft with
    | Some label => label
    | None => match Proto.member ft with
              | Some m => Proto.text m
              | None => ft
              end
    end.
Proof.
  unfold Proto.read.
  destruct (Dict.get Dynamic.fieldMapping ft) as [label|] eqn:E.
  - cbn [Proto.orString]. destruct (fieldMapping_values ft label E) as [-> _].
    reflexivity.
  - destruct (Proto.member ft) as [[s | text]|] eqn:Em; try reflexivity.
    unfold Proto.member in Em.
    destruct (str_eqb ft Proto.accessor); [discriminate|].
    destruct (existsb (str_eqb ft) Proto.functions); discriminate.
Qed.

Lemma withType_own (baseName : str) (params : list str) :
  Proto.inherited baseName = false ->
  Proto.inherited (Dynamic.withType baseName params) = false.
Proof.
  intros Hb. unfold Dynamic.withType.
  destruct (find (startsWith (lit "TYPE=")) params); [|exact Hb].
  cbv zeta. apply spaced_own.
Qed.

(** A label never names a member of [Object.prototype]. *)
Lemma normalizeFieldName_own (vcfField : str) :
  Proto.inherited (Dynamic.normalizeFieldName vcfField) = false.
Proof.
  unfold Dynamic.normalizeFieldName. cbv zeta.
  set (fieldType := orEmpty (at_ 0 (split SEMI vcfField))).
  destruct (str_eqb fieldType (lit "TEL")); [now apply withType_own|].
  destruct (str_eqb fieldType (lit "EMAIL")); [now apply withType_own|].
  destruct (str_eqb fieldType (lit "ADR")); [now apply withType_own|].
  rewrite baseName_text.
  destruct (Dict.get Dynamic.fieldMapping fieldType) as [label|] eqn:E.
  - now destruct (fieldMapping_values fieldType label E).
  - destruct (Proto.member fieldType) as [m|] eqn:Em.
    + exact (member_text_own fieldType m Em).
    + now apply member_inherited.
Qed.

(** Nor does the key of any of its occurrences. *)
Lemma finalFieldName_own (fieldKey : str) (n : N) :
  Proto.inherited fieldKey = false ->
  Proto.inherited (Dynamic.finalFieldName fieldKey n) = false.
Proof.
  intros Hk. unfold Dynamic.finalFieldName.
  destruct (1 <? n)%N; [apply spaced_own | exact Hk].
Qed.

Lemma assign_plain (st : Dynamic.State) (label value : str) :
  Proto.plain (fst st) -> Proto.inherited label = false ->
  Proto.plain (fst (Dynamic.assign st label value)).
Proof.
  intros Hst Hl. destruct (assign_spec st label value) as (Hkey & _ & _).
  cbv zeta in Hkey. rewrite Hkey.
  apply set_plain; [exact Hst | now apply finalFieldName_own].
Qed.

Lemma store_plain (st : Dynamic.State) (fieldPart value : str) :
  Proto.plain (fst st) -> Proto.plain (fst (Dynamic.store st fieldPart value)).
Proof.
  intros Hst. unfold Dynamic.store.
  destruct (str_eqb fieldPart (lit "FN")).
  { destruct (parseName value) as [f l]. cbn [fst].
    repeat apply set_plain; solve [exact Hst | reflexivity]. }
  destruct (str_eqb fieldPart (lit "N")).
  { cbv zeta. cbn [fst].
    repeat match goal with
           | |- context [if ?b then _ else _] => destruct b
           end;
      repeat apply set_plain; solve [exact Hst | reflexivity]. }
  destruct (startsWith (lit "ADR") fieldPart).
  { cbv zeta. destruct (0 <? length _); [|exact Hst].
    apply assign_plain; [exact Hst | apply normalizeFieldName_own]. }
  apply assign_plain; [exact Hst | apply normalizeFieldName_own].
Qed.

Lemma run_plain (lines : list str) : Proto.plain (fst (Dynamic.run lines)).
Proof.
  unfold Dynamic.run.
  assert (Hfold : forall st, Proto.plain (fst st) ->
                             Proto.plain (fst (fold_left Dynamic.step lines st))).
  { induction lines as [|line lines IH]; intros st Hst; [exact Hst|].
    cbn [fold_left]. apply IH.
    destruct (step_cases st line) as [-> | (fieldPart & value & _ & ->)];
      [exact Hst | now apply store_plain]. }
  apply Hfold. intros k Hk. now contradiction Hk.
Qed.

Lemma finish_plain (contact : Dynamic.Contact) :
  Proto.plain contact -> Proto.plain (Dynamic.finish contact).
Proof.
  intros Hc. unfold Dynamic.finish. cbv zeta.
  repeat match goal with
         | |- context [if ?b then _ else _] => destruct b
         end;
    repeat apply set_plain; solve [exact Hc | reflexivity].
Qed.

(** The records of the extractor have no key that names a member of
    [Object.prototype]. *)
Lemma parseVCF_plain (vcfContent : str) :
  Forall Proto.plain (Dynamic.parseVCF vcfContent).
Proof.
  rewrite Dynamic_parseVCF_map. apply Forall_forall. intros c Hc.
  apply in_map_iff in Hc. destruct Hc as (block & <- & _).
  unfold Dynamic.parseVCard. apply finish_plain, run_plain.
Qed.

End DynamicKeys.

(** ** The record extractor, dynamic schema: repeated labels *)

Section DynamicRepeats.
Context {H : Host}.

(** The label that a line is assigned is a result of [normalizeFieldName]. *)
Lemma assignment_label (line label value : str) :
  Dynamic.assignment line = Some (label, value) ->
  exists fieldPart, label = Dynamic.normalizeFieldName fieldPart.
Proof.
  unfold Dynamic.assignment.
  destruct (Dynamic.skipped (trim line)); [discriminate|].
  destruct (indexOf COLON (trim line)) as [colonIndex|]; [|discriminate].
  cbv zeta.
  destruct (negb (truthy (trim (substringFrom (colonIndex + 1) (trim line)))));
    [discriminate|].
  destruct (str_eqb (substring 0 colonIndex (trim line)) (lit "FN")); [discriminate|].
  destruct (str_eqb (substring 0 colonIndex (trim line)) (lit "N")); [discriminate|].
  destruct (startsWith (lit "ADR") (substring 0 colonIndex (trim line))).
  - destruct (0 <? length _); [|discriminate]. intros [= <- _]. eauto.
  - intros [= <- _]. eauto.
Qed.

(** C4: in a card block, a line that is assigned a label on which [n - 1]
    earlier lines of the block were assigned is stored under the bare label
    when it is the first and under the label, a space and [n] when it is the
    n-th, n >= 2; two untyped TEL lines 111 and 222 give Phone and Phone 2.
    Neither the label nor the key names a member of Object.prototype, so
    that the count of the label and the key are own properties. *)
Theorem repeated_label_keys :
  (forall (pre : list str) (line label value : str),
     Dynamic.assignment line = Some (label, value) ->
     fst (Dynamic.run (pre ++ [line]))
     = Dict.set (fst (Dynamic.run pre))
                (Dynamic.finalFieldName label
                   (N.of_nat (S (Dynamic.occurrences label pre))))
                value)
  /\ (forall label, Dynamic.finalFieldName label 1 = label)
  /\ (forall label n, (2 <= n)%N ->
        Dynamic.finalFieldName label n = label ++ [SPACE] ++ numberToString n)
  /\ (forall (line label value : str) (n : N),
        Dynamic.assignment line = Some (label, value) ->
        Proto.inherited label = false
        /\ Proto.inherited (Dynamic.finalFieldName label n) = false)
  /\ Dynamic.parseVCard (card ["BEGIN:VCARD"; "TEL:111"; "TEL:222"; "END:VCARD"]%string)
     = [(lit "Phone", lit "111"); (lit "Phone 2", lit "222");
        (Dynamic.FIRST, []); (Dynamic.LAST, [])].
Proof.
  split; [|split; [|split; [|split]]].
  - intros pre line label value Ha.
    rewrite run_app. cbn [fold_left].
    pose proof (step_assignment (Dynamic.run pre) line) as Hstep.
    rewrite Ha in Hstep. rewrite Hstep.
    destruct (assign_spec (Dynamic.run pre) label value) as (Hkey & _ & _).
    rewrite Hkey. f_equal. f_equal.
    unfold Dynamic.run at 1. rewrite count_occurrences. cbn. lia.
  - reflexivity.
  - intros label n Hn. unfold Dynamic.finalFieldName.
    destruct (1 <? n)%N eqn:E; [reflexivity|]. apply N.ltb_ge in E. lia.
  - intros line label value n Ha.
    destruct (assignment_label line label value Ha) as [fieldPart ->].
    split; [|apply finalFieldName_own]; apply normalizeFieldName_own.
  - reflexivity.
Qed.

End DynamicRepeats.

(** C4 on a third untyped TEL line, and on a second line whose field type
    names a member of Object.prototype, with the text that V8 gives for the
    function Object. *)
Lemma repeated_label_keys_witness :
  (Dynamic.assignment (lit "TEL:333") = Some (lit "Phone", lit "333")
   /\ fst (Dynamic.run (map lit ["TEL:111"; "NOTE:x"; "TEL:222"]%string
                         ++ [lit "TEL:333"]))
      = Dict.set (fst (Dynamic.run (map lit ["TEL:111"; "NOTE:x"; "TEL:222"]%string)))
                 (lit "Phone 3") (lit "333"))
  /\ (@Dynamic.assignment AsciiHost.host (lit "constructor:def")
      = Some (lit "function Object() { [native code] }", lit "def")
      /\ fst (@Dynamic.run AsciiHost.host ([lit "constructor:abc"] ++ [lit "constructor:def"]))
         = Dict.set (fst (@Dynamic.run AsciiHost.host [lit "constructor:abc"]))
                    (lit "function Object() { [native code] } 2") (lit "def"))
  /\ @Dynamic.parseVCard AsciiHost.host
       (card ["BEGIN:VCARD"; "constructor:abc"; "constructor:def"; "END:VCARD"]%string)
     = [(lit "function Object() { [native code] }", lit "abc");
        (lit "function Object() { [native code] } 2", lit "def");
        (Dynamic.FIRST, []); (Dynamic.LAST, [])].
Proof.
  split; [|split; [|reflexivity]].
  - split; [reflexivity|].
    exact (proj1 (@repeated_label_keys AsciiHost.host)
                 (map lit ["TEL:111"; "NOTE:x"; "TEL:222"]%string)
                 (lit "TEL:333") (lit "Phone") (lit "333") eq_refl).
  - split; [reflexivity|].
    exact (proj1 (@repeated_label_keys AsciiHost.host)
                 [lit "constructor:abc"]
                 (lit "constructor:def")
                 (lit "function Object() { [native code] }") (lit "def") eq_refl).
Defined.

(** ** The table serialiser, dynamic schema: the document *)

Section DynamicTable.
Context {H : Host}.

Lemma traverse_ok {A B : Type} (f : A -> Proto.Result B) (g : A -> B) (l : list A) :
  (forall x, In x l -> f x = Proto.Ok (g x)) ->
  Proto.traverse f l = Proto.Ok (map g l).
Proof.
  induction l as [|x l IH]; intros Hf; [reflexivity|].
  cbn [Proto.traverse map]. rewrite (Hf x) by now left.
  cbn [Proto.bind]. rewrite IH by (intros y Hy; apply Hf; now right).
  reflexivity.
Qed.

Lemma traverse_throw {A B : Type} (f : A -> Proto.Result B) (l : list A) (x : A) :
  In x l -> f x = Proto.Throw Proto.TypeError ->
  Proto.traverse f l = Proto.Throw Proto.TypeError.
Proof.
  induction l as [|y l IH]; intros Hx Hf; [contradiction|].
  cbn [Proto.traverse]. destruct (f y) as [b | []] eqn:Ey; [|reflexivity].
  cbn [Proto.bind]. destruct Hx as [-> | Hx]; [congruence|].
  now rewrite (IH Hx Hf).
Qed.

(** The loop that pushes one line per contact, as a map. *)
Lemma push_rows (sortedFields : list str) (contacts : list Dynamic.Contact)
    (csvLines : list str) :
  fold_left (fun csvLines contact =>
               Proto.bind csvLines (fun csvLines =>
               Proto.bind (Proto.traverse (Dynamic.cell contact) sortedFields)
                          (fun row => Proto.Ok (csvLines ++ [join [COMMA] row]))))
            contacts (Proto.Ok csvLines)
  = Proto.bind
      (Proto.traverse
         (fun contact =>
            Proto.bind (Proto.traverse (Dynamic.cell contact) sortedFields)
                       (fun row => Proto.Ok (join [COMMA] row)))
         contacts)
      (fun lines => Proto.Ok (csvLines ++ lines)).
Proof.
  revert csvLines. induction contacts as [|c contacts IH]; intros csvLines.
  - cbn. now rewrite app_nil_r.
  - cbn [fold_left Proto.traverse Proto.bind].
    destruct (Proto.traverse (Dynamic.cell c) sortedFields) as [row | e];
      cbn [Proto.bind].
    + rewrite IH. destruct (Proto.traverse _ contacts); cbn [Proto.bind];
        [now rewrite <- app_assoc | reflexivity].
    + clear IH. induction contacts as [|c' contacts IH']; [reflexivity|].
      cbn [fold_left Proto.bind]. exact IH'.
Qed.

Lemma Dynamic_convertToCSV_map (contacts : list Dynamic.Contact) :
  Dynamic.convertToCSV contacts
  = let sortedFields := Dynamic.sort Dynamic.compareFields (Dynamic.collect contacts) in
    Proto.bind
      (Proto.traverse
         (fun contact =>
            Proto.bind (Proto.traverse (Dynamic.cell contact) sortedFields)
                       (fun row => Proto.Ok (join [COMMA] row)))
         contacts)
      (fun lines => Proto.Ok (join [LF] (join [COMMA] sortedFields :: lines))).
Proof.
  unfold Dynamic.convertToCSV. cbv zeta. rewrite push_rows.
  now destruct (Proto.traverse _ contacts).
Qed.

(** A cell: the value between double quotes, unless the read falls on a
    member of [Object.prototype], which has no [replace]. *)
Lemma cell_cases (contact : Dynamic.Contact) (field : str) :
  Dynamic.cell contact field
  = if Proto.falls contact field then Proto.Throw Proto.TypeError
    else Proto.Ok ([DQUOTE] ++ Dynamic.escape (orEmpty (Dict.get contact field))
                   ++ [DQUOTE]).
Proof.
  unfold Dynamic.cell, Proto.read, Proto.falls.
  destruct (Dict.get contact field) as [[|c s]|]; try reflexivity.
  unfold Proto.member, Proto.inherited.
  destruct (str_eqb field Proto.accessor); [reflexivity|].
  now destruct (existsb (str_eqb field) Proto.functions).
Qed.

Lemma escape_app (a b : str) :
  Dynamic.escape (a ++ b) = Dynamic.escape a ++ Dynamic.escape b.
Proof. apply flat_map_app. Qed.

Lemma escape_char (c : char) :
  Dynamic.escape [c] = if (c =? DQUOTE)%N then [DQUOTE; DQUOTE] else [c].
Proof. unfold Dynamic.escape. simpl. apply app_nil_r. Qed.

(** The header of the dynamic table: First Name and Last Name when some
    contact has them, then the other field names sorted. *)
Lemma sortedFields_shape (contacts : list Dynamic.Contact) :
  Dynamic.sort Dynamic.compareFields (Dynamic.collect contacts)
  = (if existsb (str_eqb Dynamic.FIRST) (Dynamic.collect contacts)
     then [Dynamic.FIRST] else [])
    ++ (if existsb (str_eqb Dynamic.LAST) (Dynamic.collect contacts)
        then [Dynamic.LAST] else [])
    ++ Dynamic.sort localeCompare (filter Dynamic.other (Dynamic.collect contacts)).
Proof.
  rewrite sort_compareFields.
  destruct (collect_union contacts) as [Hnd _].
  now rewrite !(filter_eq_NoDup _ _ Hnd).
Qed.

(** Records without a key that names a member of [Object.prototype] can be
    read. *)
Lemma plain_readable (contacts : list Dynamic.Contact) :
  Forall Proto.plain contacts -> Dynamic.readable contacts = true.
Proof.
  intros Hplain. unfold Dynamic.readable.
  apply forallb_forall. intros contact _.
  apply forallb_forall. intros field Hfield.
  apply (proj2 (collect_union contacts)) in Hfield.
  destruct Hfield as (c & Hc & Hget).
  rewrite Forall_forall in Hplain.
  unfold Proto.falls.
  destruct (Dict.get contact field); [reflexivity|].
  now rewrite (Hplain c Hc field Hget).
Qed.

(** The document of a list of records that can be read. *)
Lemma convertToCSV_readable (contacts : list Dynamic.Contact) :
  Dynamic.readable contacts = true ->
  Dynamic.convertToCSV contacts
  = let sortedFields := Dynamic.sort Dynamic.compareFields (Dynamic.collect contacts) in
    Proto.Ok
      (join [LF]
         (join [COMMA] sortedFields
          :: map (fun contact =>
                    join [COMMA]
                      (map (fun field =>
                              [DQUOTE]
                              ++ Dynamic.escape (orEmpty (Dict.get contact field))
                              ++ [DQUOTE])
                           sortedFields))
                 contacts)).
Proof.
  intros Hr. rewrite Dynamic_convertToCSV_map. cbv zeta.
  set (sortedFields := Dynamic.sort Dynamic.compareFields (Dynamic.collect contacts)).
  unfold Dynamic.readable in Hr. rewrite forallb_forall in Hr.
  rewrite (traverse_ok _
             (fun contact =>
                join [COMMA]
                  (map (fun field =>
                          [DQUOTE]
                          ++ Dynamic.escape (orEmpty (Dict.get contact field))
                          ++ [DQUOTE])
                       sortedFields))); [reflexivity|].
  intros contact Hc. specialize (Hr contact Hc). rewrite forallb_forall in Hr.
  rewrite (traverse_ok _
             (fun field =>
                [DQUOTE] ++ Dynamic.escape (orEmpty (Dict.get contact field))
                ++ [DQUOTE])); [reflexivity|].
  intros field Hfield. rewrite cell_cases.
  assert (Hin : In field (Dynamic.collect contacts))
    by (eapply Permutation_in; [apply sort_perm | exact Hfield]).
  specialize (Hr field Hin). now destruct (Proto.falls contact field).
Qed.

(** A list of records that cannot be read has no document. *)
Lemma convertToCSV_unreadable (contacts : list Dynamic.Contact) :
  Dynamic.readable contacts = false ->
  Dynamic.convertToCSV contacts = Proto.Throw Proto.TypeError.
Proof.
  intros Hr. rewrite Dynamic_convertToCSV_map. cbv zeta.
  set (sortedFields := Dynamic.sort Dynamic.compareFields (Dynamic.collect contacts)).
  unfold Dynamic.readable in Hr.
  apply forallb_false in Hr. destruct Hr as (contact & Hc & Hr).
  apply forallb_false in Hr. destruct Hr as (field & Hfield & Hr).
  apply negb_false_iff in Hr.
  rewrite (traverse_throw _ contacts contact Hc); [reflexivity|].
  rewrite (traverse_throw _ sortedFields field); [reflexivity| |].
  - eapply Permutation_in; [apply Permutation_sym, sort_perm | exact Hfield].
  - now rewrite cell_cases, Hr.
Qed.


End DynamicTable.

(** *** A consistent collation to run the serialiser with *)

Lemma compareUnits_total (a b : str) :
  (AsciiHost.compareUnits a b <= 0)%Z \/ (AsciiHost.compareUnits b a <= 0)%Z.
Proof.
  revert b. induction a as [|x a IH]; intros [|y b]; simpl; try lia.
  destruct (N.ltb_spec x y), (N.ltb_spec y x); try lia. apply IH.
Qed.

Lemma compareUnits_trans (a b c : str) :
  (AsciiHost.compareUnits a b <= 0)%Z -> (AsciiHost.compareUnits b c <= 0)%Z ->
  (AsciiHost.compareUnits a c <= 0)%Z.
Proof.
  revert b c. induction a as [|x a IH]; intros [|y b] [|z c]; simpl; try lia.
  destruct (N.ltb_spec x y), (N.ltb_spec y x), (N.ltb_spec y z),
    (N.ltb_spec z y), (N.ltb_spec x z), (N.ltb_spec z x); try lia.
  apply IH.
Qed.

#[global] Instance ascii_consistent : ConsistentCollation AsciiHost.host.
Proof.
  split; [exact compareUnits_total | exact compareUnits_trans].
Qed.



(** ** The record extractor, fixed schema *)

(** A line only appends to the lists, and what it appends does not depend on
    what was collected before. *)
Lemma Fixed_step_appends (st : Fixed.Locals) (line : str) :
  Fixed.phoneNumbers (Fixed.step st line)
  = Fixed.phoneNumbers st ++ Fixed.phoneNumbers (Fixed.step Fixed.initial line)
  /\ Fixed.emails (Fixed.step st line)
     = Fixed.emails st ++ Fixed.emails (Fixed.step Fixed.initial line).
Proof.
  unfold Fixed.step.
  repeat match goal with
         | |- context [if ?b then _ else _] => destruct b
         | |- context [match ?o with Some _ => _ | None => _ end] => destruct o
         end;
  cbn [Fixed.phoneNumbers Fixed.emails Fixed.initial app];
  now rewrite ?app_nil_r.
Qed.

Lemma Fixed_run_lists (lines : list str) (st : Fixed.Locals) :
  Fixed.phoneNumbers (fold_left Fixed.step lines st)
  = Fixed.phoneNumbers st ++ Fixed.phonesOf lines
  /\ Fixed.emails (fold_left Fixed.step lines st)
     = Fixed.emails st ++ Fixed.emailsOf lines.
Proof.
  revert st. induction lines as [|line lines IH]; intros st.
  - cbn. now rewrite !app_nil_r.
  - cbn [fold_left]. destruct (IH (Fixed.step st line)) as [IHp IHe].
    destruct (Fixed_step_appends st line) as [Hp He].
    rewrite IHp, IHe, Hp, He. unfold Fixed.phonesOf, Fixed.emailsOf.
    cbn [flat_map]. now rewrite <- !app_assoc.
Qed.

Lemma orEmpty_at (i : nat) (l : list str) : orEmpty (at_ i l) = nth i l [].
Proof.
  unfold at_. revert l. induction i as [|i IH]; intros [|x l]; cbn; auto.
Qed.

Lemma nth_firstn_lt (i n : nat) (l : list str) :
  i < n -> nth i (firstn n l) [] = nth i l [].
Proof.
  revert n l. induction i as [|i IH]; intros [|n] [|x l] Hlt; cbn; try lia; auto.
  apply IH. lia.
Qed.

(** Only the first three phones and the first three emails reach the
    contact. *)
Lemma Fixed_finish_first_three (st : Fixed.Locals) :
  Fixed.finish st
  = Fixed.finish (Fixed.mkLocals (Fixed.fullName st)
                                 (firstn 3 (Fixed.phoneNumbers st))
                                 (firstn 3 (Fixed.emails st))
                                 (Fixed.addressList st)).
Proof.
  unfold Fixed.finish. cbn [Fixed.fullName Fixed.phoneNumbers Fixed.emails
                            Fixed.addressList].
  destruct (parseName (Fixed.fullName st)).
  rewrite !orEmpty_at, !nth_firstn_lt by lia. reflexivity.
Qed.

(** What a line pushes does not depend on the lists, and is the contribution
    of the line. *)
Lemma Fixed_step_pushes (st : Fixed.Locals) (line : str) :
  Fixed.phoneNumbers (Fixed.step st line) = Fixed.phoneNumbers st ++ Fixed.phoneOf line
  /\ Fixed.emails (Fixed.step st line) = Fixed.emails st ++ Fixed.emailOf line.
Proof.
  unfold Fixed.step, Fixed.phoneOf, Fixed.emailOf, Fixed.ofType, Fixed.captured.
  cbv zeta.
  change (lit "TEL" ++ [COLON]) with (lit "TEL:").
  change (lit "TEL" ++ [SEMI]) with (lit "TEL;").
  change (lit "EMAIL" ++ [COLON]) with (lit "EMAIL:").
  change (lit "EMAIL" ++ [SEMI]) with (lit "EMAIL;").
  destruct (startsWith (lit "FN:") (trim line)).
  { cbn [Fixed.phoneNumbers Fixed.emails]. now rewrite !app_nil_r. }
  destruct (startsWith (lit "TEL:") (trim line) || includes (lit "TEL;") (trim line))%bool.
  { destruct (Fixed.matchField (lit "TEL") (trim line));
      cbn [Fixed.phoneNumbers Fixed.emails]; now rewrite !app_nil_r. }
  destruct (startsWith (lit "EMAIL:") (trim line)
            || includes (lit "EMAIL;") (trim line))%bool.
  { destruct (Fixed.matchField (lit "EMAIL") (trim line));
      cbn [Fixed.phoneNumbers Fixed.emails]; now rewrite !app_nil_r. }
  repeat match goal with
         | |- context [if ?b then _ else _] => destruct b
         | |- context [match ?o with Some _ => _ | None => _ end] => destruct o
         end;
    cbn [Fixed.phoneNumbers Fixed.emails]; now rewrite !app_nil_r.
Qed.

(** The two lists after the loop: the contributions of the lines, in line
    order. *)
Lemma Fixed_run_collects (lines : list str) (st : Fixed.Locals) :
  Fixed.phoneNumbers (fold_left Fixed.step lines st)
  = Fixed.phoneNumbers st ++ flat_map Fixed.phoneOf lines
  /\ Fixed.emails (fold_left Fixed.step lines st)
     = Fixed.emails st ++ flat_map Fixed.emailOf lines.
Proof.
  revert st. induction lines as [|line lines IH]; intros st.
  - cbn. now rewrite !app_nil_r.
  - cbn [fold_left flat_map]. destruct (IH (Fixed.step st line)) as [IHp IHe].
    destruct (Fixed_step_pushes st line) as [Hp He].
    rewrite IHp, IHe, Hp, He. now rewrite <- !app_assoc.
Qed.

(** *** Which lines append a phone or an email *)

Lemma matchField_here (P s group : str) :
  startsWith P s = true ->
  Fixed.captureAfter (skipn (length P) s) = Some group ->
  Fixed.matchField P s = Some group.
Proof.
  intros Hp Hc. destruct s; cbn [Fixed.matchField]; now rewrite Hp, Hc.
Qed.

Lemma skipn_value (params value : str) (c : char) :
  skipn (S (length params)) (params ++ c :: value) = value.
Proof.
  pose proof (substringFrom_value params value c) as E.
  unfold substringFrom in E. now rewrite Nat.add_1_r in E.
Qed.

(** The capture group after a field type that is followed by parameters
    without colon, a colon and a value on one line. *)
Lemma captureAfter_value (params value : str) :
  indexOf COLON params = None -> value <> [] ->
  Forall (fun c => isLineTerminator c = false) value ->
  Fixed.captureAfter (params ++ COLON :: value) = Some value.
Proof.
  intros Hp Hv Hlt. unfold Fixed.captureAfter.
  rewrite (indexOf_app _ _ _ Hp), skipn_value, takeWhile_all.
  - apply truthy_true in Hv. now rewrite Hv.
  - eapply Forall_impl; [|exact Hlt]. intros c Hc. cbv beta. now rewrite Hc.
Qed.

Lemma startsWith_app (p s : str) : startsWith p (p ++ s) = true.
Proof.
  induction p as [|a p IH]; [reflexivity|]. simpl. now rewrite N.eqb_refl.
Qed.

Lemma skipn_app_length (p s : str) : skipn (length p) (p ++ s) = s.
Proof. induction p; [reflexivity | assumption]. Qed.

Lemma matchField_value (P params value : str) :
  indexOf COLON params = None -> value <> [] ->
  Forall (fun c => isLineTerminator c = false) value ->
  Fixed.matchField P (P ++ params ++ COLON :: value) = Some value.
Proof.
  intros Hp Hv Hlt. apply matchField_here.
  - apply startsWith_app.
  - rewrite skipn_app_length. now apply captureAfter_value.
Qed.

Lemma includes_startsWith (p s : str) : startsWith p s = true -> includes p s = true.
Proof. intros E. destruct s; simpl; now rewrite E. Qed.

(** A field type alone or followed by parameters that start with a
    semicolon: the field spec of a typed or untyped line. *)
Lemma guard_typed (P params rest : str) :
  params = [] \/ startsWith [SEMI] params = true ->
  (startsWith (P ++ [COLON]) (P ++ params ++ COLON :: rest)
   || includes (P ++ [SEMI]) (P ++ params ++ COLON :: rest))%bool = true.
Proof.
  intros [-> | Hs].
  - replace (P ++ [] ++ COLON :: rest) with ((P ++ [COLON]) ++ rest)
      by now rewrite <- app_assoc.
    now rewrite startsWith_app.
  - destruct params as [|c params]; [discriminate|].
    cbn [startsWith] in Hs. apply andb_prop in Hs. destruct Hs as [Hc _].
    apply N.eqb_eq in Hc. subst c.
    replace (P ++ (SEMI :: params) ++ COLON :: rest)
      with ((P ++ [SEMI]) ++ params ++ COLON :: rest)
      by now rewrite <- app_assoc.
    rewrite (includes_startsWith _ _ (startsWith_app _ _)).
    apply orb_true_r.
Qed.

(** A TEL line, with or without parameters, whose value is not empty and
    stays on one line, appends its value, trimmed, to the phones. *)
Lemma Fixed_step_TEL (st : Fixed.Locals) (line params value : str) :
  trim line = lit "TEL" ++ params ++ COLON :: value ->
  indexOf COLON params = None ->
  params = [] \/ startsWith [SEMI] params = true ->
  value <> [] -> Forall (fun c => isLineTerminator c = false) value ->
  Fixed.step st line
  = Fixed.mkLocals (Fixed.fullName st) (Fixed.phoneNumbers st ++ [trim value])
                   (Fixed.emails st) (Fixed.addressList st).
Proof.
  intros Ht Hp Hparams Hv Hlt. unfold Fixed.step. rewrite Ht.
  assert (Hfn : startsWith (lit "FN:") (lit "TEL" ++ params ++ COLON :: value) = false)
    by reflexivity.
  rewrite Hfn.
  change (lit "TEL:") with (lit "TEL" ++ [COLON]).
  change (lit "TEL;") with (lit "TEL" ++ [SEMI]).
  rewrite (guard_typed (lit "TEL") params value Hparams).
  now rewrite (matchField_value (lit "TEL") params value Hp Hv Hlt).
Qed.

(** The same for an EMAIL line, provided the phone branch does not take it. *)
Lemma Fixed_step_EMAIL (st : Fixed.Locals) (line params value : str) :
  trim line = lit "EMAIL" ++ params ++ COLON :: value ->
  indexOf COLON params = None ->
  params = [] \/ startsWith [SEMI] params = true ->
  value <> [] -> Forall (fun c => isLineTerminator c = false) value ->
  includes (lit "TEL;") (trim line) = false ->
  Fixed.step st line
  = Fixed.mkLocals (Fixed.fullName st) (Fixed.phoneNumbers st)
                   (Fixed.emails st ++ [trim value]) (Fixed.addressList st).
Proof.
  intros Ht Hp Hparams Hv Hlt Hno. unfold Fixed.step. rewrite Hno, Ht.
  assert (Hfn : startsWith (lit "FN:") (lit "EMAIL" ++ params ++ COLON :: value) = false)
    by reflexivity.
  assert (Htel : startsWith (lit "TEL:") (lit "EMAIL" ++ params ++ COLON :: value) = false)
    by reflexivity.
  rewrite Hfn, Htel. cbn [orb].
  change (lit "EMAIL:") with (lit "EMAIL" ++ [COLON]).
  change (lit "EMAIL;") with (lit "EMAIL" ++ [SEMI]).
  rewrite (guard_typed (lit "EMAIL") params value Hparams).
  now rewrite (matchField_value (lit "EMAIL") params value Hp Hv Hlt).
Qed.

(** A line changes the phones (the emails) only through the phone (email)
    branch: trimmed, it starts with TEL: or holds TEL; somewhere. *)
Lemma Fixed_step_only (st : Fixed.Locals) (line : str) :
  (Fixed.phoneNumbers (Fixed.step st line) <> Fixed.phoneNumbers st ->
   startsWith (lit "FN:") (trim line) = false
   /\ (startsWith (lit "TEL:") (trim line) || includes (lit "TEL;") (trim line))%bool = true)
  /\ (Fixed.emails (Fixed.step st line) <> Fixed.emails st ->
      startsWith (lit "FN:") (trim line) = false
      /\ (startsWith (lit "EMAIL:") (trim line)
          || includes (lit "EMAIL;") (trim line))%bool = true).
Proof.
  unfold Fixed.step.
  destruct (startsWith (lit "FN:") (trim line)); [split; intros Hne; now contradiction Hne|].
  destruct (startsWith (lit "TEL:") (trim line) || includes (lit "TEL;") (trim line))%bool.
  { split; [tauto|]. destruct (Fixed.matchField _ _); intros Hne; now contradiction Hne. }
  destruct (startsWith (lit "EMAIL:") (trim line) || includes (lit "EMAIL;") (trim line))%bool.
  { split; [|tauto]. destruct (Fixed.matchField _ _); intros Hne; now contradiction Hne. }
  split; intros Hne; exfalso; apply Hne;
    repeat match goal with
           | |- context [if ?b then _ else _] => destruct b
           | |- context [match ?o with Some _ => _ | None => _ end] => destruct o
           end; reflexivity.
Qed.

(** C7, as the specification words it, fails in both directions: a grouped
    property such as item1.TEL;type=CELL appends although its field spec does
    not start with TEL, and TELEX:123 appends nothing although its field spec
    does. *)
Lemma phone_lines_not_by_field_spec :
  Fixed.phoneNumbers (Fixed.step Fixed.initial (lit "item1.TEL;type=CELL:123"))
  = [lit "123"]
  /\ Spec.appended (lit "TEL") (lit "item1.TEL;type=CELL:123") = []
  /\ Fixed.phoneNumbers (Fixed.step Fixed.initial (lit "TELEX:123")) = []
  /\ Spec.appended (lit "TEL") (lit "TELEX:123") = [lit "123"]
  /\ Fixed.phoneNumbers (Fixed.step Fixed.initial (lit "item1.TEL;type=CELL:123"))
     <> Fixed.phoneNumbers Fixed.initial
        ++ Spec.appended (lit "TEL") (lit "item1.TEL;type=CELL:123").
Proof. repeat split; try reflexivity. vm_compute. discriminate. Qed.

(** C7 (amended): in fixed-schema extraction a line whose field spec is TEL
    (respectively EMAIL), alone or followed by parameters that start with a
    semicolon, and whose value is not empty and holds no line terminator,
    appends the text after the first colon, trimmed, to the phone list
    (respectively to the email list, unless the line holds TEL; somewhere);
    a line changes the phone list (email list) only if, trimmed, it does not
    start with FN: and starts with TEL: or holds TEL; somewhere (EMAIL: or
    EMAIL;). *)
Theorem phone_and_email_lines :
  (forall (st : Fixed.Locals) (line params value : str),
     trim line = lit "TEL" ++ params ++ COLON :: value ->
     indexOf COLON params = None ->
     params = [] \/ startsWith [SEMI] params = true ->
     value <> [] -> Forall (fun c => isLineTerminator c = false) value ->
     Fixed.step st line
     = Fixed.mkLocals (Fixed.fullName st) (Fixed.phoneNumbers st ++ [trim value])
                      (Fixed.emails st) (Fixed.addressList st))
  /\ (forall (st : Fixed.Locals) (line params value : str),
        trim line = lit "EMAIL" ++ params ++ COLON :: value ->
        indexOf COLON params = None ->
        params = [] \/ startsWith [SEMI] params = true ->
        value <> [] -> Forall (fun c => isLineTerminator c = false) value ->
        includes (lit "TEL;") (trim line) = false ->
        Fixed.step st line
        = Fixed.mkLocals (Fixed.fullName st) (Fixed.phoneNumbers st)
                         (Fixed.emails st ++ [trim value]) (Fixed.addressList st))
  /\ (forall (st : Fixed.Locals) (line : str),
        (Fixed.phoneNumbers (Fixed.step st line) <> Fixed.phoneNumbers st ->
         startsWith (lit "FN:") (trim line) = false
         /\ (startsWith (lit "TEL:") (trim line)
             || includes (lit "TEL;") (trim line))%bool = true)
        /\ (Fixed.emails (Fixed.step st line) <> Fixed.emails st ->
            startsWith (lit "FN:") (trim line) = false
            /\ (startsWith (lit "EMAIL:") (trim line)
                || includes (lit "EMAIL;") (trim line))%bool = true)).
Proof.
  split; [exact Fixed_step_TEL|]. split; [exact Fixed_step_EMAIL|].
  exact Fixed_step_only.
Qed.

Lemma no_line_terminator_check (value : str) :
  forallb (fun c => negb (isLineTerminator c)) value = true ->
  Forall (fun c => isLineTerminator c = false) value.
Proof.
  intros Hall. apply Forall_forall. intros c Hc.
  rewrite forallb_forall in Hall. specialize (Hall c Hc).
  now destruct (isLineTerminator c).
Qed.

(** The amended C7 on a typed TEL line and on an untyped EMAIL line. *)
Lemma phone_and_email_lines_witness :
  Fixed.step Fixed.initial (lit "  TEL;TYPE=CELL: 555 0100")
  = Fixed.mkLocals [] [lit "555 0100"] [] []
  /\ Fixed.step Fixed.initial (lit "EMAIL:ann@example.org")
     = Fixed.mkLocals [] [] [lit "ann@example.org"] [].
Proof.
  destruct phone_and_email_lines as (Htel & Hemail & _).
  split.
  - exact (Htel Fixed.initial (lit "  TEL;TYPE=CELL: 555 0100") (lit ";TYPE=CELL")
                (lit " 555 0100") eq_refl eq_refl (or_intror eq_refl)
                ltac:(discriminate)
                (no_line_terminator_check (lit " 555 0100") eq_refl)).
  - exact (Hemail Fixed.initial (lit "EMAIL:ann@example.org") []
                  (lit "ann@example.org") eq_refl eq_refl (or_introl eq_refl)
                  ltac:(discriminate)
                  (no_line_terminator_check (lit "ann@example.org") eq_refl)
                  eq_refl).
Defined.

(** *** The first three phones and emails *)

(** C5: in fixed-schema extraction the phones and the emails collected from
    a block are the contributions of its lines, in line order;  phone-1..3 and
    email-1..3 are the first three of them, the empty string where there is
    none, and the contact is the same as if nothing had been collected after
    the third.  A TEL line contributes its value to the phones and nothing to
    the emails, an EMAIL line its value to the emails and nothing to the
    phones.  Of the phones 111, 222, 333, 444 the fourth is collected and
    reaches no slot; the same holds of four emails, and of phones and emails
    in alternation. *)
Theorem first_three_phones_and_emails :
  (forall lines : list str,
     Fixed.phoneNumbers (Fixed.run lines) = flat_map Fixed.phoneOf lines
     /\ Fixed.emails (Fixed.run lines) = flat_map Fixed.emailOf lines)
  /\ (forall vcardText : str,
        let lines := splitLines vcardText in
        let contact := Fixed.parseVCard vcardText in
        Fixed.phone1 contact = nth 0 (flat_map Fixed.phoneOf lines) []
        /\ Fixed.phone2 contact = nth 1 (flat_map Fixed.phoneOf lines) []
        /\ Fixed.phone3 contact = nth 2 (flat_map Fixed.phoneOf lines) []
        /\ Fixed.email1 contact = nth 0 (flat_map Fixed.emailOf lines) []
        /\ Fixed.email2 contact = nth 1 (flat_map Fixed.emailOf lines) []
        /\ Fixed.email3 contact = nth 2 (flat_map Fixed.emailOf lines) [])
  /\ (forall st : Fixed.Locals,
        Fixed.finish st
        = Fixed.finish (Fixed.mkLocals (Fixed.fullName st)
                                       (firstn 3 (Fixed.phoneNumbers st))
                                       (firstn 3 (Fixed.emails st))
                                       (Fixed.addressList st)))
  /\ (forall line params value : str,
        trim line = lit "TEL" ++ params ++ COLON :: value ->
        indexOf COLON params = None ->
        params = [] \/ startsWith [SEMI] params = true ->
        value <> [] -> Forall (fun c => isLineTerminator c = false) value ->
        Fixed.phoneOf line = [trim value] /\ Fixed.emailOf line = [])
  /\ (forall line params value : str,
        trim line = lit "EMAIL" ++ params ++ COLON :: value ->
        indexOf COLON params = None ->
        params = [] \/ startsWith [SEMI] params = true ->
        value <> [] -> Forall (fun c => isLineTerminator c = false) value ->
        includes (lit "TEL;") (trim line) = false ->
        Fixed.emailOf line = [trim value] /\ Fixed.phoneOf line = [])
  /\ flat_map Fixed.phoneOf
       (map lit ["BEGIN:VCARD"; "TEL:111"; "TEL:222"; "TEL:333"; "TEL:444";
                 "END:VCARD"]%string)
     = [lit "111"; lit "222"; lit "333"; lit "444"]
  /\ Fixed.parseVCard (card ["BEGIN:VCARD"; "TEL:111"; "TEL:222"; "TEL:333";
                             "TEL:444"; "END:VCARD"]%string)
     = Fixed.mkContact [] [] (lit "111") (lit "222") (lit "333") [] [] [] []
  /\ flat_map Fixed.emailOf
       (map lit ["BEGIN:VCARD"; "EMAIL:a@x.org"; "EMAIL;TYPE=WORK:b@x.org";
                 "EMAIL:c@x.org"; "EMAIL:d@x.org"; "END:VCARD"]%string)
     = [lit "a@x.org"; lit "b@x.org"; lit "c@x.org"; lit "d@x.org"]
  /\ Fixed.parseVCard (card ["BEGIN:VCARD"; "EMAIL:a@x.org"; "EMAIL;TYPE=WORK:b@x.org";
                             "EMAIL:c@x.org"; "EMAIL:d@x.org"; "END:VCARD"]%string)
     = Fixed.mkContact [] [] [] [] [] (lit "a@x.org") (lit "b@x.org") (lit "c@x.org") []
  /\ Fixed.parseVCard (card ["BEGIN:VCARD"; "FN:Ann Lee"; "EMAIL;TYPE=HOME:ann@home.org";
                             "TEL;TYPE=CELL:111"; "EMAIL:ann@work.org"; "TEL:222";
                             "END:VCARD"]%string)
     = Fixed.mkContact (lit "Ann") (lit "Lee") (lit "111") (lit "222") []
                       (lit "ann@home.org") (lit "ann@work.org") [] [].
Proof.
  assert (Hrun : forall lines : list str,
             Fixed.phoneNumbers (Fixed.run lines) = flat_map Fixed.phoneOf lines
             /\ Fixed.emails (Fixed.run lines) = flat_map Fixed.emailOf lines).
  { intros lines. exact (Fixed_run_collects lines Fixed.initial). }
  split; [exact Hrun|].
  split; [|split; [exact Fixed_finish_first_three|]].
  { intros vcardText lines contact. subst contact. unfold Fixed.parseVCard.
    fold lines. destruct (Hrun lines) as [Hp He].
    unfold Fixed.finish. destruct (parseName _).
    cbn [Fixed.phone1 Fixed.phone2 Fixed.phone3 Fixed.email1 Fixed.email2 Fixed.email3].
    rewrite Hp, He, !orEmpty_at. repeat split. }
  split; [|split; [|repeat split]].
  - intros line params value Ht Hp Hparams Hv Hlt.
    destruct (Fixed_step_pushes Fixed.initial line) as [Ep Ee].
    rewrite (Fixed_step_TEL Fixed.initial line params value Ht Hp Hparams Hv Hlt)
      in Ep, Ee.
    cbn [Fixed.phoneNumbers Fixed.emails Fixed.initial app] in Ep, Ee.
    now split.
  - intros line params value Ht Hp Hparams Hv Hlt Hno.
    destruct (Fixed_step_pushes Fixed.initial line) as [Ep Ee].
    rewrite (Fixed_step_EMAIL Fixed.initial line params value Ht Hp Hparams Hv Hlt Hno)
      in Ep, Ee.
    cbn [Fixed.phoneNumbers Fixed.emails Fixed.initial app] in Ep, Ee.
    now split.
Qed.

(** C5 on a typed phone line and on a typed email line. *)
Lemma first_three_phones_and_emails_witness :
  (Fixed.phoneOf (lit "TEL;TYPE=WORK:555 0199") = [lit "555 0199"]
   /\ Fixed.emailOf (lit "TEL;TYPE=WORK:555 0199") = [])
  /\ (Fixed.emailOf (lit " EMAIL;TYPE=HOME: ann@example.org ") = [lit "ann@example.org"]
      /\ Fixed.phoneOf (lit " EMAIL;TYPE=HOME: ann@example.org ") = []).
Proof.
  destruct first_three_phones_and_emails as (_ & _ & _ & Htel & Hemail & _).
  split.
  - exact (Htel (lit "TEL;TYPE=WORK:555 0199") (lit ";TYPE=WORK") (lit "555 0199")
                eq_refl eq_refl (or_intror eq_refl) ltac:(discriminate)
                (no_line_terminator_check (lit "555 0199") eq_refl)).
  - exact (Hemail (lit " EMAIL;TYPE=HOME: ann@example.org ") (lit ";TYPE=HOME")
                  (lit " ann@example.org") eq_refl eq_refl (or_intror eq_refl)
                  ltac:(discriminate)
                  (no_line_terminator_check (lit " ann@example.org") eq_refl)
                  eq_refl).
Defined.

(** *** Lines without colon and lines with an empty value *)

Lemma indexOf_cons_none (c d : char) (s : str) :
  indexOf c (d :: s) = None -> indexOf c s = None.
Proof.
  cbn [indexOf]. destruct (d =? c)%N; [discriminate|].
  now destruct (indexOf c s).
Qed.

Lemma indexOf_skipn_none (c : char) (k : nat) (s : str) :
  indexOf c s = None -> indexOf c (skipn k s) = None.
Proof.
  revert s. induction k as [|k IH]; intros [|d s] Hn; cbn [skipn]; auto.
  apply IH. now apply indexOf_cons_none in Hn.
Qed.

Lemma matchField_no_colon (P s : str) :
  indexOf COLON s = None -> Fixed.matchField P s = None.
Proof.
  induction s as [|d s IH]; intros Hn; cbn [Fixed.matchField];
    unfold Fixed.captureAfter; rewrite (indexOf_skipn_none _ _ _ Hn);
    destruct (startsWith P _); try reflexivity.
  - apply IH. now apply indexOf_cons_none in Hn.
  - apply IH. now apply indexOf_cons_none in Hn.
Qed.

Lemma startsWith_eq (p s : str) :
  startsWith p s = true -> s = p ++ skipn (length p) s.
Proof.
  revert s. induction p as [|a p IH]; intros s E; [reflexivity|].
  destruct s as [|b s]; [discriminate|].
  cbn [startsWith] in E. apply andb_prop in E. destruct E as [Eab E].
  apply N.eqb_eq in Eab. subst b. cbn [length skipn app]. f_equal. now apply IH.
Qed.

Lemma startsWith_FN_colon (t : str) :
  startsWith (lit "FN:") t = true -> indexOf COLON t <> None.
Proof. intros E. apply startsWith_eq in E. rewrite E. discriminate. Qed.

(** Fixed schema: a line without colon changes nothing. *)
Lemma Fixed_step_no_colon (st : Fixed.Locals) (line : str) :
  indexOf COLON (trim line) = None -> Fixed.step st line = st.
Proof.
  intros Hn. unfold Fixed.step.
  destruct (startsWith (lit "FN:") (trim line)) eqn:Efn.
  { now apply startsWith_FN_colon in Efn. }
  rewrite !(matchField_no_colon _ _ Hn).
  repeat match goal with
         | |- context [if ?b then _ else _] => destruct b
         end; reflexivity.
Qed.

Lemma captureAfter_suffix (k : nat) (spec : str) :
  indexOf COLON spec = None ->
  Fixed.captureAfter (skipn k (spec ++ [COLON])) = None.
Proof.
  revert k. induction spec as [|d spec IH]; intros k Hn.
  - destruct k as [|[|k]]; reflexivity.
  - destruct k as [|k].
    + cbn [skipn]. unfold Fixed.captureAfter.
      change ((d :: spec) ++ [COLON]) with ((d :: spec) ++ COLON :: []).
      now rewrite (indexOf_app _ _ _ Hn), skipn_value.
    + cbn [skipn app]. apply IH. now apply indexOf_cons_none in Hn.
Qed.

Lemma matchField_empty_value (P spec : str) :
  indexOf COLON spec = None -> Fixed.matchField P (spec ++ [COLON]) = None.
Proof.
  induction spec as [|d spec IH]; intros Hn.
  - cbn [app Fixed.matchField].
    pose proof (captureAfter_suffix (length P) [] eq_refl) as E1.
    cbn [app] in E1. rewrite E1.
    destruct (startsWith P [COLON]); destruct (startsWith P []);
      try reflexivity; now destruct (length P).
  - pose proof (captureAfter_suffix (length P) (d :: spec) Hn) as E1.
    cbn [app Fixed.matchField] in *. rewrite E1.
    destruct (startsWith P _); apply IH; now apply indexOf_cons_none in Hn.
Qed.

(** Fixed schema: a line whose value is empty changes nothing, unless it is
    the line FN: itself. *)
Lemma Fixed_step_empty_value (st : Fixed.Locals) (line spec : str) :
  trim line = spec ++ [COLON] -> indexOf COLON spec = None ->
  spec <> lit "FN" -> Fixed.step st line = st.
Proof.
  intros Ht Hn Hspec. unfold Fixed.step. rewrite Ht.
  destruct (startsWith (lit "FN:") (spec ++ [COLON])) eqn:Efn.
  { exfalso. apply Hspec. apply startsWith_eq in Efn.
    change (lit "FN:") with [70%N; 78%N; COLON] in Efn. cbn [app] in Efn.
    destruct spec as [|a [|b [|c spec]]]; cbn [app] in Efn.
    - discriminate Efn.
    - discriminate Efn.
    - now injection Efn as -> ->.
    - injection Efn as _ _ Ec. subst c.
      apply indexOf_cons_none, indexOf_cons_none in Hn.
      cbn [indexOf] in Hn. now rewrite N.eqb_refl in Hn. }
  rewrite !(matchField_empty_value _ _ Hn).
  repeat match goal with
         | |- context [if ?b then _ else _] => destruct b
         end; reflexivity.
Qed.

(** C8 fails in the fixed-schema revision: the line FN: with an empty value
    goes through the full-name branch, which has no test for an empty value,
    and erases the full name captured before; the dynamic-schema revision
    passes over the same line. *)
Theorem empty_full_name_line_erases :
  Fixed.fullName (Fixed.run (map lit ["BEGIN:VCARD"; "FN:Jane Doe"]%string))
  = lit "Jane Doe"
  /\ Fixed.fullName (Fixed.run (map lit ["BEGIN:VCARD"; "FN:Jane Doe"; "FN:"]%string))
     = []
  /\ Fixed.parseVCard (card ["BEGIN:VCARD"; "FN:Jane Doe"; "END:VCARD"]%string)
     = Fixed.mkContact (lit "Jane") (lit "Doe") [] [] [] [] [] [] []
  /\ Fixed.parseVCard (card ["BEGIN:VCARD"; "FN:Jane Doe"; "FN:"; "END:VCARD"]%string)
     = Fixed.mkContact [] [] [] [] [] [] [] [] []
  /\ Dynamic.parseVCard (card ["BEGIN:VCARD"; "FN:Jane Doe"; "FN:"; "END:VCARD"]%string)
     = [(Dynamic.FIRST, lit "Jane"); (Dynamic.LAST, lit "Doe")].
Proof. repeat split. Qed.

(** * Further properties of the converter *)

(** ** Trimming and name splitting *)

Lemma dropWhile_head (p : char -> bool) (s x : str) (c : char) :
  dropWhile p s = c :: x -> p c = false.
Proof.
  induction s as [|d s IH]; cbn [dropWhile]; [discriminate|].
  destruct (p d) eqn:E; [exact IH|]. now intros [= <- _].
Qed.

Lemma dropWhile_suffix (p : char -> bool) (s : str) :
  exists z, s = z ++ dropWhile p s.
Proof.
  induction s as [|d s [z IH]]; cbn [dropWhile]; [now exists []|].
  destruct (p d); [|now exists []].
  exists (d :: z). cbn [app]. now f_equal.
Qed.

(** What [trimEnd] keeps is a prefix that does not end with whitespace. *)
Lemma trimEnd_prefix (s : str) : exists y, s = trimEnd s ++ y.
Proof.
  unfold trimEnd. destruct (dropWhile_suffix isWhiteSpace (rev s)) as [z E].
  exists (rev z). rewrite <- rev_app_distr, <- E. now rewrite rev_involutive.
Qed.

Lemma trimEnd_last (s x : str) (c : char) :
  trimEnd s = x ++ [c] -> isWhiteSpace c = false.
Proof.
  unfold trimEnd. intros E.
  apply (f_equal (@rev char)) in E. rewrite rev_involutive, rev_app_distr in E.
  cbn [rev app] in E. now apply dropWhile_head in E.
Qed.

(** A trimmed string neither starts nor ends with whitespace. *)
Lemma trim_first (s x : str) (c : char) :
  trim s = c :: x -> isWhiteSpace c = false.
Proof.
  unfold trim. intros E.
  destruct (trimEnd_prefix (trimStart s)) as [y Ey]. rewrite E in Ey.
  unfold trimStart in Ey. cbn [app] in Ey. now apply dropWhile_head in Ey.
Qed.

Lemma trim_last (s x : str) (c : char) :
  trim s = x ++ [c] -> isWhiteSpace c = false.
Proof. unfold trim. apply trimEnd_last. Qed.

Lemma takeWhile_Forall (p : char -> bool) (s : str) :
  Forall (fun c => p c = true) (takeWhile p s).
Proof.
  induction s as [|c s IH]; cbn [takeWhile]; [constructor|].
  destruct (p c) eqn:E; constructor; assumption.
Qed.

Lemma takeWhile_dropWhile_app (p : char -> bool) (s : str) :
  s = takeWhile p s ++ dropWhile p s.
Proof.
  induction s as [|c s IH]; cbn [takeWhile dropWhile]; [reflexivity|].
  destruct (p c); cbn [app]; [now f_equal | reflexivity].
Qed.

Lemma differs_false (c d : char) : differs c d = false -> d = c.
Proof.
  unfold differs. destruct (d =? c)%N eqn:E; [|discriminate].
  intros _. now apply N.eqb_eq.
Qed.

(** X1: name splitting loses nothing but the surrounding whitespace and the
    first space: the first name holds no space, and the trimmed full name is
    the first name alone when the last name is empty, and the first name, a
    space and the last name otherwise; the first name of a name that is not
    blank is not empty. *)
Theorem parseName_round_trip (fullName : str) :
  Forall (fun c => c <> SPACE) (fst (parseName fullName))
  /\ trim fullName
     = (if truthy (snd (parseName fullName))
        then fst (parseName fullName) ++ [SPACE] ++ snd (parseName fullName)
        else fst (parseName fullName))
  /\ (trim fullName <> [] -> fst (parseName fullName) <> []).
Proof.
  rewrite parseName_cut. cbn [fst snd].
  pose proof (takeWhile_dropWhile_app (differs SPACE) (trim fullName)) as Hcut.
  split; [|split].
  - eapply Forall_impl; [|apply takeWhile_Forall].
    intros c Hc. unfold differs in Hc. apply negb_true_iff in Hc.
    now apply N.eqb_neq.
  - destruct (dropWhile (differs SPACE) (trim fullName)) as [|d rest] eqn:Ed.
    + cbn. now rewrite app_nil_r in Hcut.
    + pose proof (dropWhile_head _ _ _ _ Ed) as Hd. apply differs_false in Hd. subst d.
      cbn [skipn]. destruct rest as [|r rest]; cbn [truthy].
      * exfalso. apply trim_last in Hcut. discriminate.
      * exact Hcut.
  - intros Hne. destruct (trim fullName) as [|c x] eqn:Et; [congruence|].
    pose proof (trim_first _ _ _ Et) as Hc. cbn [takeWhile].
    assert (Hs : differs SPACE c = true).
    { unfold differs. destruct (c =? SPACE)%N eqn:E; [|reflexivity].
      apply N.eqb_eq in E. subst c. discriminate. }
    rewrite Hs. discriminate.
Qed.

Lemma parseName_round_trip_witness :
  trim (lit "  Ada Lovelace ") <> []
  /\ fst (parseName (lit "  Ada Lovelace ")) <> [].
Proof.
  assert (Hne : trim (lit "  Ada Lovelace ") <> []) by discriminate.
  split; [exact Hne|].
  exact (proj2 (proj2 (parseName_round_trip (lit "  Ada Lovelace "))) Hne).
Defined.

(** ** The fixed-schema extractor: the full name and the addresses *)

(** The full name changes at the lines that start with FN: and nowhere else. *)
Lemma Fixed_step_fullName (st : Fixed.Locals) (line : str) :
  Fixed.fullName (Fixed.step st line)
  = if startsWith (lit "FN:") (trim line) then substringFrom 3 (trim line)
    else Fixed.fullName st.
Proof.
  unfold Fixed.step.
  destruct (startsWith (lit "FN:") (trim line)); [reflexivity|].
  repeat match goal with
         | |- context [if ?b then _ else _] => destruct b
         | |- context [match ?o with Some _ => _ | None => _ end] => destruct o
         end; reflexivity.
Qed.

Lemma Fixed_fold_fullName_kept (lines : list str) (st : Fixed.Locals) :
  Forall (fun l => startsWith (lit "FN:") (trim l) = false) lines ->
  Fixed.fullName (fold_left Fixed.step lines st) = Fixed.fullName st.
Proof.
  intros Hl. revert st. induction Hl as [|l lines Hfn _ IH]; intros st.
  - reflexivity.
  - cbn [fold_left]. rewrite IH, Fixed_step_fullName. now rewrite Hfn.
Qed.

Lemma Fixed_finish_names (st : Fixed.Locals) :
  (Fixed.firstName (Fixed.finish st), Fixed.lastName (Fixed.finish st))
  = parseName (Fixed.fullName st).
Proof. unfold Fixed.finish. now destruct (parseName (Fixed.fullName st)). Qed.

(** X2: in fixed-schema extraction the names of a block come from its last
    line that starts with FN:, whatever stands before it; a block without
    such a line has empty names. *)
Theorem last_full_name_line_wins :
  (forall (pre post : list str) (line : str),
     startsWith (lit "FN:") (trim line) = true ->
     Forall (fun l => startsWith (lit "FN:") (trim l) = false) post ->
     (Fixed.firstName (Fixed.finish (Fixed.run (pre ++ line :: post))),
      Fixed.lastName (Fixed.finish (Fixed.run (pre ++ line :: post))))
     = parseName (substringFrom 3 (trim line)))
  /\ (forall lines : list str,
        Forall (fun l => startsWith (lit "FN:") (trim l) = false) lines ->
        Fixed.firstName (Fixed.finish (Fixed.run lines)) = []
        /\ Fixed.lastName (Fixed.finish (Fixed.run lines)) = []).
Proof.
  split.
  - intros pre post line Hfn Hpost. rewrite Fixed_finish_names.
    unfold Fixed.run. rewrite fold_left_app. cbn [fold_left].
    rewrite (Fixed_fold_fullName_kept post _ Hpost), Fixed_step_fullName.
    now rewrite Hfn.
  - intros lines Hl.
    pose proof (Fixed_finish_names (Fixed.run lines)) as E.
    unfold Fixed.run in E at 3.
    rewrite (Fixed_fold_fullName_kept lines _ Hl) in E.
    cbn in E. now injection E.
Qed.

Lemma not_FN_check (lines : list str) :
  forallb (fun l => negb (startsWith (lit "FN:") (trim l))) lines = true ->
  Forall (fun l => startsWith (lit "FN:") (trim l) = false) lines.
Proof.
  intros Hall. apply Forall_forall. intros l Hl.
  rewrite forallb_forall in Hall. specialize (Hall l Hl).
  now apply negb_true_iff.
Qed.

Lemma last_full_name_line_wins_witness :
  (Fixed.firstName (Fixed.finish (Fixed.run
     (map lit ["BEGIN:VCARD"; "FN:Old Name"]%string
      ++ lit "FN:Grace Hopper" :: map lit ["TEL:1"; "END:VCARD"]%string))),
   Fixed.lastName (Fixed.finish (Fixed.run
     (map lit ["BEGIN:VCARD"; "FN:Old Name"]%string
      ++ lit "FN:Grace Hopper" :: map lit ["TEL:1"; "END:VCARD"]%string))))
  = (lit "Grace", lit "Hopper")
  /\ Fixed.firstName (Fixed.finish (Fixed.run (map lit ["BEGIN:VCARD"; "TEL:1"]%string)))
     = [].
Proof.
  destruct last_full_name_line_wins as [Hlast Hnone].
  split.
  - exact (Hlast (map lit ["BEGIN:VCARD"; "FN:Old Name"]%string)
                 (map lit ["TEL:1"; "END:VCARD"]%string)
                 (lit "FN:Grace Hopper") eq_refl
                 (not_FN_check (map lit ["TEL:1"; "END:VCARD"]%string) eq_refl)).
  - exact (proj1 (Hnone (map lit ["BEGIN:VCARD"; "TEL:1"]%string)
                        (not_FN_check (map lit ["BEGIN:VCARD"; "TEL:1"]%string) eq_refl))).
Defined.

(** An ADR line that neither the phone branch nor the email branch takes
    appends its segments that are not blank, joined, or nothing when all are
    blank. *)
Lemma Fixed_step_ADR (st : Fixed.Locals) (line params value : str) :
  trim line = lit "ADR" ++ params ++ COLON :: value ->
  indexOf COLON params = None ->
  params = [] \/ startsWith [SEMI] params = true ->
  value <> [] -> Forall (fun c => isLineTerminator c = false) value ->
  includes (lit "TEL;") (trim line) = false ->
  includes (lit "EMAIL;") (trim line) = false ->
  Fixed.step st line
  = let addrParts := filter (fun part => truthy (trim part)) (split SEMI value) in
    if 0 <? length addrParts
    then Fixed.mkLocals (Fixed.fullName st) (Fixed.phoneNumbers st) (Fixed.emails st)
                        (Fixed.addressList st ++ [join (lit ", ") addrParts])
    else st.
Proof.
  intros Ht Hp Hparams Hv Hlt Htel Hemail. unfold Fixed.step.
  rewrite Htel, Hemail, Ht.
  assert (Hfn : startsWith (lit "FN:") (lit "ADR" ++ params ++ COLON :: value) = false)
    by reflexivity.
  assert (Ht1 : startsWith (lit "TEL:") (lit "ADR" ++ params ++ COLON :: value) = false)
    by reflexivity.
  assert (He1 : startsWith (lit "EMAIL:") (lit "ADR" ++ params ++ COLON :: value) = false)
    by reflexivity.
  rewrite Hfn, Ht1, He1. cbn [orb].
  change (lit "ADR:") with (lit "ADR" ++ [COLON]).
  change (lit "ADR;") with (lit "ADR" ++ [SEMI]).
  rewrite (guard_typed (lit "ADR") params value Hparams).
  now rewrite (matchField_value (lit "ADR") params value Hp Hv Hlt).
Qed.

(** X3: in fixed-schema extraction an ADR line, with or without parameters,
    whose value is not empty and stays on one line, and that holds neither
    TEL; nor EMAIL;, appends one address made of the segments of its value
    between semicolons that are not blank, joined with a comma and a space;
    when every segment is blank it appends nothing.  The addresses of the
    contact are the collected addresses joined the same way. *)
Theorem address_lines :
  (forall (st : Fixed.Locals) (line params value : str),
     trim line = lit "ADR" ++ params ++ COLON :: value ->
     indexOf COLON params = None ->
     params = [] \/ startsWith [SEMI] params = true ->
     value <> [] -> Forall (fun c => isLineTerminator c = false) value ->
     includes (lit "TEL;") (trim line) = false ->
     includes (lit "EMAIL;") (trim line) = false ->
     let addrParts := filter (fun part => truthy (trim part)) (split SEMI value) in
     Fixed.fullName (Fixed.step st line) = Fixed.fullName st
     /\ Fixed.phoneNumbers (Fixed.step st line) = Fixed.phoneNumbers st
     /\ Fixed.emails (Fixed.step st line) = Fixed.emails st
     /\ Fixed.addressList (Fixed.step st line)
        = Fixed.addressList st
          ++ (if 0 <? length addrParts then [join (lit ", ") addrParts] else []))
  /\ (forall st : Fixed.Locals,
        Fixed.addresses (Fixed.finish st) = join (lit ", ") (Fixed.addressList st)).
Proof.
  split.
  - intros st line params value Ht Hp Hparams Hv Hlt Htel Hemail addrParts.
    rewrite (Fixed_step_ADR st line params value Ht Hp Hparams Hv Hlt Htel Hemail).
    cbv zeta. fold addrParts.
    destruct (0 <? length addrParts); cbn; rewrite ?app_nil_r; repeat split.
  - intros st. unfold Fixed.finish. now destruct (parseName _).
Qed.

Lemma address_lines_witness :
  Fixed.addressList
    (Fixed.step Fixed.initial (lit "ADR;TYPE=HOME:;;1 Main St;;Springfield; ;12345"))
  = [lit "1 Main St, Springfield, 12345"]
  /\ Fixed.addressList (Fixed.step Fixed.initial (lit "ADR:;; ;")) = [].
Proof.
  destruct address_lines as [Hadr _].
  split.
  - exact (proj2 (proj2 (proj2
      (Hadr Fixed.initial (lit "ADR;TYPE=HOME:;;1 Main St;;Springfield; ;12345")
            (lit ";TYPE=HOME") (lit ";;1 Main St;;Springfield; ;12345")
            eq_refl eq_refl (or_intror eq_refl) ltac:(discriminate)
            (no_line_terminator_check (lit ";;1 Main St;;Springfield; ;12345") eq_refl)
            eq_refl eq_refl)))).
  - exact (proj2 (proj2 (proj2
      (Hadr Fixed.initial (lit "ADR:;; ;") [] (lit ";; ;")
            eq_refl eq_refl (or_introl eq_refl) ltac:(discriminate)
            (no_line_terminator_check (lit ";; ;") eq_refl)
            eq_refl eq_refl)))).
Defined.

(** ** Line endings *)

Lemma splitLinesAux_line (line rest acc : str) :
  Forall (fun c => c <> CR /\ c <> LF) line ->
  splitLinesAux acc (line ++ rest) = splitLinesAux (rev line ++ acc) rest.
Proof.
  intros Hl. revert acc. induction Hl as [|c line [Hcr Hlf] _ IH]; intros acc.
  - reflexivity.
  - cbn [app splitLinesAux].
    apply N.eqb_neq in Hcr, Hlf. rewrite Hcr, Hlf, IH.
    cbn [rev]. now rewrite <- app_assoc.
Qed.

Lemma join_CR_head (ls : list str) (d : char) (x : str) :
  Forall (Forall (fun c => c <> CR /\ c <> LF)) ls ->
  join [CR] ls = d :: x -> d <> LF.
Proof.
  intros Hls E. destruct ls as [|l ls]; [discriminate|].
  inversion Hls as [|? ? Hl _]; subst.
  destruct l as [|c l].
  - destruct ls; [discriminate|]. rewrite join_cons in E by discriminate.
    cbn [app] in E. injection E as <- _. discriminate.
  - inversion Hl as [|? ? [_ Hc] _]; subst.
    destruct ls; cbn [join app] in E; injection E as <- _; exact Hc.
Qed.

Lemma splitLinesAux_CR (acc rest : str) :
  (forall d x, rest = d :: x -> d <> LF) ->
  splitLinesAux acc (CR :: rest) = rev acc :: splitLinesAux [] rest.
Proof.
  intros Hrest. cbn [splitLinesAux]. cbn [N.eqb CR Pos.eqb].
  destruct rest as [|d x]; [reflexivity|].
  specialize (Hrest d x eq_refl). apply N.eqb_neq in Hrest. now rewrite Hrest.
Qed.

(** Splitting the lines of a text written with one of the three line endings
    gives the lines back. *)
Lemma splitLinesAux_join (sep : str) (ls : list str) (l acc : str) :
  In sep [[CR; LF]; [CR]; [LF]] ->
  Forall (Forall (fun c => c <> CR /\ c <> LF)) (l :: ls) ->
  splitLinesAux acc (join sep (l :: ls)) = (rev acc ++ l) :: ls.
Proof.
  intros Hsep. revert l acc. induction ls as [|l' ls IH]; intros l acc Hall.
  - inversion Hall as [|? ? Hl _]; subst. cbn [join].
    rewrite <- (app_nil_r l) at 1. rewrite (splitLinesAux_line l [] acc Hl).
    cbn [splitLinesAux]. now rewrite rev_app_distr, rev_involutive.
  - inversion Hall as [|? ? Hl Hrest]; subst.
    rewrite join_cons by discriminate.
    rewrite (splitLinesAux_line l _ acc Hl).
    assert (Hacc : rev (rev l ++ acc) = rev acc ++ l)
      by now rewrite rev_app_distr, rev_involutive.
    destruct Hsep as [<- | [<- | [<- | []]]].
    + cbn [app splitLinesAux]. cbn [N.eqb CR LF Pos.eqb].
      rewrite (IH l' [] Hrest), Hacc. reflexivity.
    + cbn [app]. rewrite splitLinesAux_CR.
      * rewrite (IH l' [] Hrest), Hacc. reflexivity.
      * intros d x EJ. exact (join_CR_head (l' :: ls) d x Hrest EJ).
    + cbn [app splitLinesAux]. cbn [N.eqb CR LF Pos.eqb].
      rewrite (IH l' [] Hrest), Hacc. reflexivity.
Qed.

(** X4: a block whose lines are separated by CR LF, by CR alone or by LF
    alone is read as the same lines, so that both revisions extract the same
    record from it whatever the line ending. *)
Theorem line_endings_equivalent (sep : str) (l : str) (ls : list str) :
  In sep [[CR; LF]; [CR]; [LF]] ->
  Forall (Forall (fun c => c <> CR /\ c <> LF)) (l :: ls) ->
  splitLines (join sep (l :: ls)) = l :: ls
  /\ Fixed.parseVCard (join sep (l :: ls)) = Fixed.parseVCard (join [LF] (l :: ls))
  /\ (forall H : Host,
        Dynamic.parseVCard (join sep (l :: ls))
        = Dynamic.parseVCard (join [LF] (l :: ls))).
Proof.
  intros Hsep Hall.
  assert (Hany : forall sep', In sep' [[CR; LF]; [CR]; [LF]] ->
                              splitLines (join sep' (l :: ls)) = l :: ls).
  { intros sep' Hsep'. unfold splitLines.
    now rewrite (splitLinesAux_join sep' ls l [] Hsep' Hall). }
  assert (HLF : In [LF] [[CR; LF]; [CR]; [LF]]) by (cbn; tauto).
  split; [now apply Hany|]. split.
  - unfold Fixed.parseVCard. now rewrite (Hany sep Hsep), (Hany [LF] HLF).
  - intros H. unfold Dynamic.parseVCard.
    now rewrite (Hany sep Hsep), (Hany [LF] HLF).
Qed.

Lemma no_break_check (ls : list str) :
  forallb (forallb (fun c => negb (c =? CR)%N && negb (c =? LF)%N)) ls = true ->
  Forall (Forall (fun c => c <> CR /\ c <> LF)) ls.
Proof.
  intros Hall. apply Forall_forall. intros l Hl.
  rewrite forallb_forall in Hall. specialize (Hall l Hl).
  apply Forall_forall. intros c Hc.
  rewrite forallb_forall in Hall. specialize (Hall c Hc).
  apply andb_prop in Hall. destruct Hall as [H1 H2].
  apply negb_true_iff in H1, H2. now split; apply N.eqb_neq.
Qed.

Lemma line_endings_equivalent_witness :
  Fixed.parseVCard (join [CR; LF] (map lit ["BEGIN:VCARD"; "FN:Al B"; "TEL:1"]%string))
  = Fixed.parseVCard (join [LF] (map lit ["BEGIN:VCARD"; "FN:Al B"; "TEL:1"]%string)).
Proof.
  exact (proj1 (proj2
    (line_endings_equivalent [CR; LF] (lit "BEGIN:VCARD")
       (map lit ["FN:Al B"; "TEL:1"]%string) (or_introl eq_refl)
       (no_break_check (map lit ["BEGIN:VCARD"; "FN:Al B"; "TEL:1"]%string) eq_refl)))).
Defined.

(** ** Documents made of several cards *)

Lemma splitMarkerAux_none (x acc : str) :
  Spec.countMarkers x = 0 -> splitMarkerAux 0 acc x = [rev acc ++ x].
Proof.
  revert acc. induction x as [|c x IH]; intros acc Hx.
  - cbn. now rewrite app_nil_r.
  - rewrite countMarkers_step in Hx. rewrite splitMarkerAux_step.
    destruct (startsWithCI MARKER (c :: x)); [discriminate|].
    rewrite IH by exact Hx. cbn [rev]. now rewrite <- app_assoc.
Qed.

Lemma startsWithCI_length (p s : str) :
  startsWithCI p s = true -> length p <= length s.
Proof.
  revert s. induction p as [|a p IH]; intros s E; [cbn; lia|].
  destruct s as [|b s]; [discriminate|].
  rewrite startsWithCI_cons in E. apply andb_prop in E. destruct E as [_ E].
  apply IH in E. cbn [length]. lia.
Qed.

(** A marker cannot start in the last ten characters before another marker:
    it would overlap it. *)
Lemma no_marker_across (c : char) (s m rest : str) :
  Spec.isMarker m -> length s < 10 ->
  startsWithCI MARKER (c :: s ++ m ++ rest) = false.
Proof.
  intros [Hlen Hm] Hs.
  destruct (startsWithCI MARKER (c :: s ++ m ++ rest)) eqn:E; [|reflexivity].
  exfalso. apply marker_tail_closed in E.
  destruct m as [|mh mt]; [discriminate|].
  apply startsWithCI_opens in Hm.
  rewrite firstn_app in E. apply Forall_app in E. destruct E as [_ E].
  destruct (10 - length s) as [|j] eqn:Ej; [lia|].
  cbn [app firstn] in E. inversion E as [|? ? Hmh _]; subst. congruence.
Qed.

(** The segments of a text followed by a marker and more text: those of the
    text, then those of what follows the marker. *)
Lemma splitMarkerAux_app (m body s : str) (k : nat) (acc : str) :
  Spec.isMarker m -> k <= length s ->
  exists segs lastseg,
    splitMarkerAux k acc s = segs ++ [lastseg]
    /\ splitMarkerAux k acc (s ++ m ++ body)
       = segs ++ lastseg :: splitMarkerAux 0 [] body.
Proof.
  intros Hm. revert k acc. induction s as [|c s IH]; intros k acc Hk.
  - cbn [length] in Hk. assert (k = 0) by lia. subst k.
    exists [], (rev acc). split; [reflexivity|].
    cbn [app]. now apply splitMarkerAux_at_marker.
  - destruct k as [|k].
    + cbn [app]. rewrite !splitMarkerAux_step.
      assert (Hsame : startsWithCI MARKER (c :: s ++ m ++ body)
                      = startsWithCI MARKER (c :: s)).
      { destruct (Nat.lt_ge_cases (length s) 10) as [Hlt | Hge].
        - rewrite (no_marker_across c s m body Hm Hlt).
          destruct (startsWithCI MARKER (c :: s)) eqn:E; [|reflexivity].
          apply startsWithCI_length in E.
          change (length MARKER) with 11 in E. cbn [length] in E. lia.
        - change (c :: s ++ m ++ body) with ((c :: s) ++ m ++ body).
          apply startsWithCI_app.
          change (length MARKER) with 11. cbn [length]. lia. }
      rewrite Hsame. destruct (startsWithCI MARKER (c :: s)) eqn:E.
      * apply startsWithCI_length in E.
        change (length MARKER) with 11 in E. cbn [length] in E.
        destruct (IH 10 []) as (segs & lastseg & E1 & E2); [lia|].
        exists (rev acc :: segs), lastseg. rewrite E1, E2. split; reflexivity.
      * destruct (IH 0 (c :: acc)) as (segs & lastseg & E1 & E2); [lia|].
        exists segs, lastseg. now rewrite E1, E2.
    + cbn [length] in Hk.
      destruct (IH k acc) as (segs & lastseg & E1 & E2); [lia|].
      exists segs, lastseg. split; [exact E1 | exact E2].
Qed.

Lemma blocks_app (s m body : str) :
  Spec.isMarker m -> Spec.countMarkers body = 0 ->
  slice1 (splitMarker (s ++ m ++ body)) = slice1 (splitMarker s) ++ [body].
Proof.
  intros Hm Hbody. unfold splitMarker.
  destruct (splitMarkerAux_app m body s 0 [] Hm) as (segs & lastseg & E1 & E2);
    [lia|].
  rewrite E1, E2, (splitMarkerAux_none body [] Hbody).
  destruct segs; cbn; [reflexivity|]. now rewrite <- app_assoc.
Qed.

Lemma concat_cards_snoc (bodies : list str) (body : str) :
  concat (map (app MARKER) (bodies ++ [body]))
  = concat (map (app MARKER) bodies) ++ MARKER ++ body.
Proof. rewrite map_app, concat_app. cbn. now rewrite app_nil_r. Qed.

(** X5: appending a card to a document appends its record to the records of
    the document and changes none of them; so a document made of cards, each
    one the marker followed by text without marker, yields the records of its
    cards in order, in both revisions. *)
Theorem parseVCF_appends_card :
  (forall s m body : str,
     Spec.isMarker m -> Spec.countMarkers body = 0 ->
     Fixed.parseVCF (s ++ m ++ body)
     = Fixed.parseVCF s ++ [Fixed.parseVCard (MARKER ++ body)])
  /\ (forall (H : Host) (s m body : str),
        Spec.isMarker m -> Spec.countMarkers body = 0 ->
        Dynamic.parseVCF (s ++ m ++ body)
        = Dynamic.parseVCF s ++ [Dynamic.parseVCard (MARKER ++ body)])
  /\ (forall bodies : list str,
        Forall (fun body => Spec.countMarkers body = 0) bodies ->
        Fixed.parseVCF (concat (map (app MARKER) bodies))
        = map (fun body => Fixed.parseVCard (MARKER ++ body)) bodies)
  /\ (forall (H : Host) (bodies : list str),
        Forall (fun body => Spec.countMarkers body = 0) bodies ->
        Dynamic.parseVCF (concat (map (app MARKER) bodies))
        = map (fun body => Dynamic.parseVCard (MARKER ++ body)) bodies).
Proof.
  assert (HF : forall s m body : str,
             Spec.isMarker m -> Spec.countMarkers body = 0 ->
             Fixed.parseVCF (s ++ m ++ body)
             = Fixed.parseVCF s ++ [Fixed.parseVCard (MARKER ++ body)]).
  { intros s m body Hm Hbody.
    rewrite !Fixed_parseVCF_map, (blocks_app s m body Hm Hbody), map_app.
    reflexivity. }
  assert (HD : forall (H : Host) (s m body : str),
             Spec.isMarker m -> Spec.countMarkers body = 0 ->
             Dynamic.parseVCF (s ++ m ++ body)
             = Dynamic.parseVCF s ++ [Dynamic.parseVCard (MARKER ++ body)]).
  { intros H s m body Hm Hbody.
    rewrite !Dynamic_parseVCF_map, (blocks_app s m body Hm Hbody), map_app.
    reflexivity. }
  split; [exact HF|]. split; [exact HD|]. split.
  - intros bodies. induction bodies as [|body bodies IH] using rev_ind; intros Hall.
    + reflexivity.
    + apply Forall_app in Hall. destruct Hall as [Hall Hbody].
      inversion Hbody as [|? ? Hb _]; subst.
      rewrite concat_cards_snoc, (HF _ MARKER body isMarker_MARKER Hb).
      rewrite (IH Hall), map_app. reflexivity.
  - intros H bodies. induction bodies as [|body bodies IH] using rev_ind; intros Hall.
    + reflexivity.
    + apply Forall_app in Hall. destruct Hall as [Hall Hbody].
      inversion Hbody as [|? ? Hb _]; subst.
      rewrite concat_cards_snoc, (HD H _ MARKER body isMarker_MARKER Hb).
      rewrite (IH Hall), map_app. reflexivity.
Qed.

(** X5 on a document to which a card in lower case is appended. *)
Lemma parseVCF_appends_card_witness :
  Fixed.parseVCF (card ["BEGIN:VCARD"; "FN:A B"; "END:VCARD"; "END"]%string
                  ++ lit "begin:vcard" ++ [LF] ++ lit "FN:C D")
  = Fixed.parseVCF (card ["BEGIN:VCARD"; "FN:A B"; "END:VCARD"; "END"]%string)
    ++ [Fixed.parseVCard (MARKER ++ [LF] ++ lit "FN:C D")].
Proof.
  exact (proj1 parseVCF_appends_card
           (card ["BEGIN:VCARD"; "FN:A B"; "END:VCARD"; "END"]%string)
           (lit "begin:vcard") ([LF] ++ lit "FN:C D")
           (conj eq_refl eq_refl) eq_refl).
Defined.

(** ** The lines of the fixed-schema document *)

(** Text without line feed, and what keeps it so. *)
Lemma noLF_rev (s : str) :
  Forall (fun c => c <> LF) s -> Forall (fun c => c <> LF) (rev s).
Proof. apply Forall_rev. Qed.

Lemma noLF_skipn (k : nat) (s : str) :
  Forall (fun c => c <> LF) s -> Forall (fun c => c <> LF) (skipn k s).
Proof.
  intros Hs. rewrite <- (firstn_skipn k s) in Hs.
  apply Forall_app in Hs. tauto.
Qed.

Lemma noLF_dropWhile (p : char -> bool) (s : str) :
  Forall (fun c => c <> LF) s -> Forall (fun c => c <> LF) (dropWhile p s).
Proof.
  intros Hs. destruct (dropWhile_suffix p s) as [z E]. rewrite E in Hs.
  apply Forall_app in Hs. tauto.
Qed.

Lemma noLF_takeWhile (p : char -> bool) (s : str) :
  Forall (fun c => c <> LF) s -> Forall (fun c => c <> LF) (takeWhile p s).
Proof.
  intros Hs. rewrite (takeWhile_dropWhile_app p s) in Hs.
  apply Forall_app in Hs. tauto.
Qed.

Lemma noLF_trim (s : str) :
  Forall (fun c => c <> LF) s -> Forall (fun c => c <> LF) (trim s).
Proof.
  intros Hs. unfold trim, trimEnd, trimStart.
  now apply noLF_rev, noLF_dropWhile, noLF_rev, noLF_dropWhile.
Qed.

Lemma noLF_splitAux (c : char) (s acc : str) :
  Forall (fun c => c <> LF) s -> Forall (fun c => c <> LF) acc ->
  Forall (Forall (fun c => c <> LF)) (splitAux c acc s).
Proof.
  intros Hs. revert acc. induction Hs as [|d s Hd _ IH]; intros acc Hacc.
  - cbn. constructor; [now apply noLF_rev | constructor].
  - cbn [splitAux]. destruct (d =? c)%N.
    + constructor; [now apply noLF_rev | apply IH; constructor].
    + apply IH. now constructor.
Qed.

Lemma noLF_join (sep : str) (parts : list str) :
  Forall (fun c => c <> LF) sep -> Forall (Forall (fun c => c <> LF)) parts ->
  Forall (fun c => c <> LF) (join sep parts).
Proof.
  intros Hsep. induction 1 as [|p parts Hp Hparts IH]; [constructor|].
  destruct parts as [|q parts]; [exact Hp|].
  rewrite join_cons by discriminate.
  apply Forall_app. split; [exact Hp|].
  apply Forall_app. split; [exact Hsep | exact IH].
Qed.

Lemma noLF_filter (f : str -> bool) (parts : list str) :
  Forall (Forall (fun c => c <> LF)) parts ->
  Forall (Forall (fun c => c <> LF)) (filter f parts).
Proof.
  intros Hp. apply Forall_forall. intros x Hx. apply filter_In in Hx.
  rewrite Forall_forall in Hp. now apply Hp.
Qed.

Lemma noLF_captureAfter (rest group : str) :
  Forall (fun c => c <> LF) rest -> Fixed.captureAfter rest = Some group ->
  Forall (fun c => c <> LF) group.
Proof.
  intros Hr. unfold Fixed.captureAfter.
  destruct (indexOf COLON rest) as [i|]; [|discriminate].
  destruct (truthy _); [|discriminate].
  intros [= <-]. apply noLF_takeWhile. exact (noLF_skipn (S i) rest Hr).
Qed.

Lemma noLF_matchField (P s group : str) :
  Forall (fun c => c <> LF) s -> Fixed.matchField P s = Some group ->
  Forall (fun c => c <> LF) group.
Proof.
  induction 1 as [|d s Hd Hs IH]; cbn [Fixed.matchField].
  - destruct (startsWith P []); [|discriminate].
    destruct (Fixed.captureAfter (skipn (length P) [])) eqn:E; [|discriminate].
    intros [= <-]. eapply noLF_captureAfter; [|exact E].
    apply noLF_skipn. constructor.
  - destruct (if startsWith P (d :: s)
              then Fixed.captureAfter (skipn (length P) (d :: s))
              else None) as [g|] eqn:E.
    + intros [= <-]. destruct (startsWith P (d :: s)); [|discriminate].
      eapply noLF_captureAfter; [|exact E].
      apply noLF_skipn. now constructor.
    + exact IH.
Qed.

(** No line feed gets into what the loop collects. *)
Lemma noLF_step (st : Fixed.Locals) (line : str) :
  Forall (fun c => c <> LF) line ->
  Forall (fun c => c <> LF) (Fixed.fullName st)
  /\ Forall (Forall (fun c => c <> LF)) (Fixed.phoneNumbers st)
  /\ Forall (Forall (fun c => c <> LF)) (Fixed.emails st)
  /\ Forall (Forall (fun c => c <> LF)) (Fixed.addressList st) ->
  Forall (fun c => c <> LF) (Fixed.fullName (Fixed.step st line))
  /\ Forall (Forall (fun c => c <> LF)) (Fixed.phoneNumbers (Fixed.step st line))
  /\ Forall (Forall (fun c => c <> LF)) (Fixed.emails (Fixed.step st line))
  /\ Forall (Forall (fun c => c <> LF)) (Fixed.addressList (Fixed.step st line)).
Proof.
  intros Hline (Hn & Hp & He & Ha).
  pose proof (noLF_trim line Hline) as Ht.
  unfold Fixed.step.
  destruct (startsWith (lit "FN:") (trim line)).
  { cbn [Fixed.fullName Fixed.phoneNumbers Fixed.emails Fixed.addressList].
    repeat split; try assumption. unfold substringFrom. now apply noLF_skipn. }
  destruct (startsWith (lit "TEL:") (trim line) || includes (lit "TEL;") (trim line))%bool.
  { destruct (Fixed.matchField (lit "TEL") (trim line)) as [g|] eqn:E;
      [|repeat split; assumption].
    cbn [Fixed.fullName Fixed.phoneNumbers Fixed.emails Fixed.addressList].
    repeat split; try assumption.
    apply Forall_app. split; [assumption|].
    constructor; [|constructor]. apply noLF_trim.
    exact (noLF_matchField _ _ _ Ht E). }
  destruct (startsWith (lit "EMAIL:") (trim line) || includes (lit "EMAIL;") (trim line))%bool.
  { destruct (Fixed.matchField (lit "EMAIL") (trim line)) as [g|] eqn:E;
      [|repeat split; assumption].
    cbn [Fixed.fullName Fixed.phoneNumbers Fixed.emails Fixed.addressList].
    repeat split; try assumption.
    apply Forall_app. split; [assumption|].
    constructor; [|constructor]. apply noLF_trim.
    exact (noLF_matchField _ _ _ Ht E). }
  destruct (startsWith (lit "ADR:") (trim line) || includes (lit "ADR;") (trim line))%bool;
    [|repeat split; assumption].
  destruct (Fixed.matchField (lit "ADR") (trim line)) as [g|] eqn:E;
    [|repeat split; assumption].
  cbv zeta. destruct (0 <? length _); [|repeat split; assumption].
  cbn [Fixed.fullName Fixed.phoneNumbers Fixed.emails Fixed.addressList].
  repeat split; try assumption.
  apply Forall_app. split; [assumption|].
  constructor; [|constructor].
  apply noLF_join; [repeat constructor; discriminate|].
  apply noLF_filter, noLF_splitAux; [|constructor].
  exact (noLF_matchField _ _ _ Ht E).
Qed.

Lemma noLF_splitLinesAux (n : nat) (s acc : str) :
  length s <= n -> Forall (fun c => c <> LF) acc ->
  Forall (Forall (fun c => c <> LF)) (splitLinesAux acc s).
Proof.
  revert s acc. induction n as [|n IH]; intros s acc Hn Hacc.
  - destruct s; [|cbn in Hn; lia]. cbn.
    constructor; [now apply noLF_rev | constructor].
  - destruct s as [|c s].
    { cbn. constructor; [now apply noLF_rev | constructor]. }
    cbn [length] in Hn. cbn [splitLinesAux].
    destruct (c =? CR)%N.
    + destruct s as [|d s].
      * constructor; [now apply noLF_rev|]. apply IH; [cbn; lia | constructor].
      * cbn [length] in Hn. destruct (d =? LF)%N.
        -- constructor; [now apply noLF_rev|]. apply IH; [lia | constructor].
        -- constructor; [now apply noLF_rev|].
           apply IH; [cbn [length]; lia | constructor].
    + destruct (c =? LF)%N eqn:Elf.
      * constructor; [now apply noLF_rev|]. apply IH; [lia | constructor].
      * apply IH; [lia|]. constructor; [|assumption].
        now apply N.eqb_neq.
Qed.

Lemma noLF_run (lines : list str) (st : Fixed.Locals) :
  Forall (Forall (fun c => c <> LF)) lines ->
  Forall (fun c => c <> LF) (Fixed.fullName st)
  /\ Forall (Forall (fun c => c <> LF)) (Fixed.phoneNumbers st)
  /\ Forall (Forall (fun c => c <> LF)) (Fixed.emails st)
  /\ Forall (Forall (fun c => c <> LF)) (Fixed.addressList st) ->
  Forall (fun c => c <> LF) (Fixed.fullName (fold_left Fixed.step lines st))
  /\ Forall (Forall (fun c => c <> LF)) (Fixed.phoneNumbers (fold_left Fixed.step lines st))
  /\ Forall (Forall (fun c => c <> LF)) (Fixed.emails (fold_left Fixed.step lines st))
  /\ Forall (Forall (fun c => c <> LF)) (Fixed.addressList (fold_left Fixed.step lines st)).
Proof.
  intros Hl. revert st. induction Hl as [|line lines Hline _ IH]; intros st Hst.
  - exact Hst.
  - cbn [fold_left]. apply IH. now apply noLF_step.
Qed.

Lemma noLF_nth (i : nat) (l : list str) :
  Forall (Forall (fun c => c <> LF)) l -> Forall (fun c => c <> LF) (nth i l []).
Proof.
  intros Hl. destruct (nth_in_or_default i l []) as [Hin | ->]; [|constructor].
  rewrite Forall_forall in Hl. now apply Hl.
Qed.

(** No value of an extracted contact holds a line feed. *)
Lemma noLF_row (vcardText : str) :
  Forall (fun c => c <> LF) (join [COMMA] (Fixed.row (Fixed.parseVCard vcardText))).
Proof.
  unfold Fixed.parseVCard, Fixed.run.
  destruct (noLF_run (splitLines vcardText) Fixed.initial) as (Hn & Hp & He & Ha).
  { unfold splitLines. apply (noLF_splitLinesAux (length vcardText)); [lia | constructor]. }
  { cbn. repeat split; constructor. }
  set (st := fold_left Fixed.step (splitLines vcardText) Fixed.initial) in *.
  unfold Fixed.finish. rewrite (parseName_cut (Fixed.fullName st)), !orEmpty_at.
  apply noLF_join; [repeat constructor; discriminate|].
  unfold Fixed.row, Fixed.quoted.
  cbn [Fixed.firstName Fixed.lastName Fixed.phone1 Fixed.phone2 Fixed.phone3
       Fixed.email1 Fixed.email2 Fixed.email3 Fixed.addresses].
  assert (Hq : forall v, Forall (fun c => c <> LF) v ->
                         Forall (fun c => c <> LF) ([DQUOTE] ++ v ++ [DQUOTE])).
  { intros v Hv. apply Forall_app. split; [repeat constructor; discriminate|].
    apply Forall_app. split; [exact Hv | repeat constructor; discriminate]. }
  repeat match goal with
         | |- Forall _ (_ :: _) => apply Forall_cons; [apply Hq|]
         end;
    try apply Forall_nil; try (now apply noLF_nth).
  - now apply noLF_takeWhile, noLF_trim.
  - now apply noLF_skipn, noLF_dropWhile, noLF_trim.
  - apply noLF_join; [repeat constructor; discriminate | exact Ha].
Qed.

Lemma splitAux_line (c : char) (line rest acc : str) :
  Forall (fun d => d <> c) line ->
  splitAux c acc (line ++ rest) = splitAux c (rev line ++ acc) rest.
Proof.
  intros Hl. revert acc. induction Hl as [|d line Hd _ IH]; intros acc.
  - reflexivity.
  - cbn [app splitAux]. apply N.eqb_neq in Hd. rewrite Hd, IH.
    cbn [rev]. now rewrite <- app_assoc.
Qed.

(** Splitting at a separator what was joined with it gives the parts back,
    when no part holds the separator. *)
Lemma splitAux_join (c : char) (ps : list str) (p acc : str) :
  Forall (Forall (fun d => d <> c)) (p :: ps) ->
  splitAux c acc (join [c] (p :: ps)) = (rev acc ++ p) :: ps.
Proof.
  revert p acc. induction ps as [|q ps IH]; intros p acc Hall;
    inversion Hall as [|? ? Hp Hrest]; subst.
  - cbn [join]. rewrite <- (app_nil_r p) at 1.
    rewrite (splitAux_line c p [] acc Hp). cbn [splitAux].
    now rewrite rev_app_distr, rev_involutive.
  - rewrite join_cons by discriminate. rewrite (splitAux_line c p _ acc Hp).
    cbn [app splitAux]. rewrite N.eqb_refl, (IH q [] Hrest).
    now rewrite rev_app_distr, rev_involutive.
Qed.

(** X6: the fixed-schema document of a parsed file splits at its line feeds
    into the header line followed by exactly one line per contact, although
    values are not escaped: no value that the extractor produces holds a line
    feed.  The document has one line more than the file has markers. *)
Theorem fixed_document_lines (vcfContent : str) :
  split LF (Fixed.convertToCSV (Fixed.parseVCF vcfContent))
  = join [COMMA] Fixed.headers
    :: map (fun contact => join [COMMA] (Fixed.row contact)) (Fixed.parseVCF vcfContent)
  /\ length (split LF (Fixed.convertToCSV (Fixed.parseVCF vcfContent)))
     = S (Spec.countMarkers vcfContent).
Proof.
  assert (E : split LF (Fixed.convertToCSV (Fixed.parseVCF vcfContent))
              = join [COMMA] Fixed.headers
                :: map (fun contact => join [COMMA] (Fixed.row contact))
                       (Fixed.parseVCF vcfContent)).
  { rewrite Fixed_convertToCSV_map. unfold split.
    rewrite splitAux_join; [reflexivity|].
    constructor.
    - repeat constructor; discriminate.
    - rewrite Fixed_parseVCF_map, map_map. apply Forall_forall.
      intros r Hr. apply in_map_iff in Hr. destruct Hr as (b & <- & _).
      apply noLF_row. }
  split; [exact E|].
  rewrite E. cbn [length]. rewrite length_map.
  now rewrite Fixed_parseVCF_map, length_map, blocks_length.
Qed.

(** ** The dynamic-schema record: the two name keys *)

Section DynamicRecord.
Context {H : Host}.

(** Each of the two statements after the loop adds what is missing and
    changes nothing that is there. *)
Lemma default_keeps (c : Dynamic.Contact) (name k v : str) :
  Dict.get c k = Some v ->
  Dict.get (if Dynamic.unset c name then Dict.set c name [] else c) k = Some v.
Proof.
  intros Ec. destruct (Dynamic.unset c name) eqn:Eu; [|exact Ec].
  destruct (list_eq_dec N.eq_dec name k) as [-> | Hne].
  - rewrite get_set_eq. unfold Dynamic.unset in Eu. rewrite Ec in Eu.
    cbn [orEmpty] in Eu. destruct v; [reflexivity | discriminate].
  - now rewrite get_set_ne.
Qed.

Lemma default_present (c : Dynamic.Contact) (name : str) :
  Dict.get (if Dynamic.unset c name then Dict.set c name [] else c) name <> None.
Proof.
  destruct (Dynamic.unset c name) eqn:Eu.
  - rewrite get_set_eq. discriminate.
  - unfold Dynamic.unset in Eu. destruct (Dict.get c name); discriminate.
Qed.


Lemma finish_names (contact : Dynamic.Contact) :
  Dict.get (Dynamic.finish contact) Dynamic.FIRST <> None
  /\ Dict.get (Dynamic.finish contact) Dynamic.LAST <> None.
Proof.
  unfold Dynamic.finish. cbv zeta. split; [|apply default_present].
  pose proof (default_present contact Dynamic.FIRST) as Hf.
  destruct (Dict.get (if Dynamic.unset contact Dynamic.FIRST
                      then Dict.set contact Dynamic.FIRST [] else contact)
                     Dynamic.FIRST) as [v|] eqn:E; [|congruence].
  pose proof (default_keeps _ Dynamic.LAST _ _ E) as K. intros Hn.
  assert (X : Some v = None) by exact (eq_trans (eq_sym K) Hn).
  discriminate X.
Qed.

(** X7: every record of the dynamic-schema extractor holds the keys First
    Name and Last Name, whatever the block; and the document made from a file
    with at least one marker has a header that starts with First Name and
    Last Name, followed by the other keys sorted. *)
Theorem names_always_present :
  (forall block : str,
     Dict.get (Dynamic.parseVCard block) Dynamic.FIRST <> None
     /\ Dict.get (Dynamic.parseVCard block) Dynamic.LAST <> None)
  /\ (forall vcfContent : str,
        Spec.countMarkers vcfContent <> 0 ->
        Dynamic.sort Dynamic.compareFields (Dynamic.collect (Dynamic.parseVCF vcfContent))
        = Dynamic.FIRST :: Dynamic.LAST
          :: Dynamic.sort localeCompare
               (filter Dynamic.other (Dynamic.collect (Dynamic.parseVCF vcfContent)))).
Proof.
  assert (Hrec : forall block : str,
             Dict.get (Dynamic.parseVCard block) Dynamic.FIRST <> None
             /\ Dict.get (Dynamic.parseVCard block) Dynamic.LAST <> None).
  { intros block. unfold Dynamic.parseVCard. apply finish_names. }
  split; [exact Hrec|].
  intros vcfContent Hm. rewrite sortedFields_shape.
  assert (Hex : exists c, In c (Dynamic.parseVCF vcfContent)
                          /\ Dict.get c Dynamic.FIRST <> None
                          /\ Dict.get c Dynamic.LAST <> None).
  { rewrite Dynamic_parseVCF_map.
    pose proof (blocks_length vcfContent) as Hlen.
    destruct (slice1 (splitMarker vcfContent)) as [|b bs]; [cbn in Hlen; lia|].
    exists (Dynamic.parseVCard (MARKER ++ b)). split; [now left|]. apply Hrec. }
  destruct Hex as (c & Hc & Hf & Hl).
  destruct (collect_union (Dynamic.parseVCF vcfContent)) as [_ Hin].
  assert (E1 : existsb (str_eqb Dynamic.FIRST)
                 (Dynamic.collect (Dynamic.parseVCF vcfContent)) = true).
  { apply existsb_str_eqb, Hin. eauto. }
  assert (E2 : existsb (str_eqb Dynamic.LAST)
                 (Dynamic.collect (Dynamic.parseVCF vcfContent)) = true).
  { apply existsb_str_eqb, Hin. eauto. }
  rewrite E1, E2. reflexivity.
Qed.

End DynamicRecord.

(** X7 on a file with one card without any name line. *)
Lemma names_always_present_witness :
  Spec.countMarkers (card ["BEGIN:VCARD"; "TEL:1"; "END:VCARD"]%string) <> 0
  /\ Dynamic.sort Dynamic.compareFields
       (Dynamic.collect
          (Dynamic.parseVCF (card ["BEGIN:VCARD"; "TEL:1"; "END:VCARD"]%string)))
     = [Dynamic.FIRST; Dynamic.LAST; lit "Phone"].
Proof.
  assert (Hm : Spec.countMarkers (card ["BEGIN:VCARD"; "TEL:1"; "END:VCARD"]%string) <> 0)
    by discriminate.
  split; [exact Hm|].
  rewrite (proj2 (@names_always_present AsciiHost.host) _ Hm). reflexivity.
Defined.

(** ** Labels *)

Lemma split_cons_sep (c : char) (ft rest : str) :
  Forall (fun d => d <> c) ft -> split c (ft ++ c :: rest) = ft :: split c rest.
Proof.
  intros Hft. unfold split. rewrite (splitAux_line c ft _ [] Hft).
  cbn [splitAux]. rewrite N.eqb_refl, app_nil_r, rev_involutive. reflexivity.
Qed.

Lemma split_no_sep (c : char) (ft : str) :
  Forall (fun d => d <> c) ft -> split c ft = [ft].
Proof.
  intros Hft. unfold split.
  exact (splitAux_join c [] ft [] (Forall_cons _ Hft (Forall_nil _))).
Qed.

Lemma find_first (f : str -> bool) (before after : list str) (x : str) :
  Forall (fun p => f p = false) before -> f x = true ->
  find f (before ++ x :: after) = Some x.
Proof.
  intros Hb Hx. induction Hb as [|p before Hp _ IH]; cbn [app find].
  - now rewrite Hx.
  - now rewrite Hp.
Qed.

Lemma find_none (f : str -> bool) (l : list str) :
  Forall (fun p => f p = false) l -> find f l = None.
Proof. induction 1 as [|p l Hp _ IH]; cbn [find]; [reflexivity | now rewrite Hp]. Qed.

Section Labels.
Context {H : Host}.

(** The label of a field type that has no branch of its own. *)
Lemma normalizeFieldName_other (ft params : str) :
  Forall (fun c => c <> SEMI) ft ->
  ft <> lit "TEL" -> ft <> lit "EMAIL" -> ft <> lit "ADR" ->
  Dynamic.normalizeFieldName (ft ++ SEMI :: params) = Dynamic.normalizeFieldName ft
  /\ Dynamic.normalizeFieldName ft
     = match Dict.get Dynamic.fieldMapping ft with
       | Some label => label
       | None => match Proto.member ft with
                 | Some m => Proto.text m
                 | None => ft
                 end
       end.
Proof.
  intros Hft Htel Hemail Hadr.
  apply str_eqb_neq in Htel, Hemail, Hadr.
  unfold Dynamic.normalizeFieldName.
  rewrite (split_cons_sep SEMI ft params Hft), (split_no_sep SEMI ft Hft).
  cbn [at_ nth_error orEmpty]. rewrite Htel, Hemail, Hadr.
  split; [reflexivity | apply baseName_text].
Qed.

(** X8: for a field type other than TEL, EMAIL and ADR the label does not
    depend on the parameters.  It is the entry of the field type in the fixed
    table when there is one.  Otherwise the read of the table goes up to
    Object.prototype: for the field type __proto__ the label is the text of
    that object, for the name of one of its eleven methods it is the text of
    that function, and for any other field type it is the field type
    itself. *)
Theorem label_of_other_types (ft params : str) :
  Forall (fun c => c <> SEMI) ft ->
  ft <> lit "TEL" -> ft <> lit "EMAIL" -> ft <> lit "ADR" ->
  Dynamic.normalizeFieldName (ft ++ SEMI :: params) = Dynamic.normalizeFieldName ft
  /\ Dynamic.normalizeFieldName ft
     = match Dict.get Dynamic.fieldMapping ft with
       | Some label => label
       | None =>
           if str_eqb ft (lit "__proto__") then lit "[object Object]"
           else if existsb (str_eqb ft) Proto.functions
                then lit "function" ++ nativeFunction ft
                else ft
       end.
Proof.
  intros Hft Htel Hemail Hadr.
  destruct (normalizeFieldName_other ft params Hft Htel Hemail Hadr) as [E1 E2].
  split; [exact E1|]. rewrite E2.
  destruct (Dict.get Dynamic.fieldMapping ft); [reflexivity|].
  unfold Proto.member. change Proto.accessor with (lit "__proto__").
  destruct (str_eqb ft (lit "__proto__")); [reflexivity|].
  now destruct (existsb (str_eqb ft) Proto.functions).
Qed.

Lemma withType_first (baseName v : str) (before after : list str) :
  Forall (fun p => startsWith (lit "TYPE=") p = false) before ->
  Dynamic.withType baseName (before ++ (lit "TYPE=" ++ v) :: after)
  = baseName ++ [SPACE]
    ++ toUpperCase (firstn 1 (takeWhile (differs EQUALS) v))
    ++ toLowerCase (skipn 1 (takeWhile (differs EQUALS) v)).
Proof.
  intros Hb. unfold Dynamic.withType.
  pose proof (find_first (startsWith (lit "TYPE=")) before after (lit "TYPE=" ++ v)
                Hb (startsWith_app _ _)) as K.
  unfold str in *. rewrite K.
  change (lit "TYPE=" ++ v) with (lit "TYPE" ++ EQUALS :: v).
  rewrite split_cons_sep by (repeat constructor; discriminate).
  rewrite (split_cut EQUALS v). reflexivity.
Qed.

Lemma withType_none (baseName : str) (params : list str) :
  Forall (fun p => startsWith (lit "TYPE=") p = false) params ->
  Dynamic.withType baseName params = baseName.
Proof.
  intros Hp. unfold Dynamic.withType.
  now rewrite (find_none (startsWith (lit "TYPE=")) params Hp).
Qed.

Lemma normalize_typed (T L : str) (params : list str) :
  In (T, L) [(lit "TEL", lit "Phone"); (lit "EMAIL", lit "Email");
             (lit "ADR", lit "Address")] ->
  Forall (Forall (fun c => c <> SEMI)) params ->
  Dynamic.normalizeFieldName (join [SEMI] (T :: params)) = Dynamic.withType L params.
Proof.
  intros Hin Hp.
  assert (HT : Forall (fun c => c <> SEMI) T).
  { destruct Hin as [[= <- _] | [[= <- _] | [[= <- _] | []]]];
      repeat constructor; discriminate. }
  unfold Dynamic.normalizeFieldName, split.
  rewrite (splitAux_join SEMI params T [] (Forall_cons _ HT Hp)).
  cbn [rev app at_ nth_error orEmpty slice1 tl].
  destruct Hin as [[= <- <-] | [[= <- <-] | [[= <- <-] | []]]]; reflexivity.
Qed.

(** X9: the label of a TEL, EMAIL or ADR field spec is Phone, Email or
    Address alone when no parameter starts with TYPE=, and otherwise that
    word, a space and the value of the first such parameter, taken up to its
    next equals sign, with its first character in upper case and the rest in
    lower case; later TYPE= parameters are not looked at. *)
Theorem label_of_typed_fields (T L : str) :
  In (T, L) [(lit "TEL", lit "Phone"); (lit "EMAIL", lit "Email");
             (lit "ADR", lit "Address")] ->
  (forall params : list str,
     Forall (Forall (fun c => c <> SEMI)) params ->
     Forall (fun p => startsWith (lit "TYPE=") p = false) params ->
     Dynamic.normalizeFieldName (join [SEMI] (T :: params)) = L)
  /\ (forall (before after : list str) (v : str),
        Forall (Forall (fun c => c <> SEMI)) (before ++ (lit "TYPE=" ++ v) :: after) ->
        Forall (fun p => startsWith (lit "TYPE=") p = false) before ->
        Dynamic.normalizeFieldName
          (join [SEMI] (T :: before ++ (lit "TYPE=" ++ v) :: after))
        = L ++ [SPACE]
          ++ toUpperCase (firstn 1 (takeWhile (differs EQUALS) v))
          ++ toLowerCase (skipn 1 (takeWhile (differs EQUALS) v))).
Proof.
  intros Hin. split.
  - intros params Hp Hnone.
    now rewrite (normalize_typed T L params Hin Hp), withType_none.
  - intros before after v Hp Hb.
    now rewrite (normalize_typed T L _ Hin Hp), withType_first.
Qed.

End Labels.

Lemma no_semi_text_check (ft : str) :
  forallb (fun c => negb (c =? SEMI)%N) ft = true -> Forall (fun c => c <> SEMI) ft.
Proof.
  intros Hall. apply Forall_forall. intros c Hc.
  rewrite forallb_forall in Hall. specialize (Hall c Hc).
  apply negb_true_iff in Hall. now apply N.eqb_neq.
Qed.

Lemma no_semi_check (params : list str) :
  forallb (forallb (fun c => negb (c =? SEMI)%N)) params = true ->
  Forall (Forall (fun c => c <> SEMI)) params.
Proof.
  intros Hall. apply Forall_forall. intros l Hl.
  rewrite forallb_forall in Hall. specialize (Hall l Hl).
  apply Forall_forall. intros c Hc.
  rewrite forallb_forall in Hall. specialize (Hall c Hc).
  apply negb_true_iff in Hall. now apply N.eqb_neq.
Qed.

(** X8 on an organisation with a character-set parameter, on an extension
    type, and on two field types that name members of Object.prototype, with
    the text that V8 gives for a built-in function. *)
Lemma label_of_other_types_witness :
  Dynamic.normalizeFieldName (lit "ORG;CHARSET=UTF-8") = lit "Organization"
  /\ Dynamic.normalizeFieldName (lit "X-SKYPE;TYPE=home") = lit "X-SKYPE"
  /\ @Dynamic.normalizeFieldName AsciiHost.host (lit "constructor")
     = lit "function Object() { [native code] }"
  /\ Dynamic.normalizeFieldName (lit "__proto__;X=1") = lit "[object Object]".
Proof.
  split; [|split; [|split]].
  - destruct (@label_of_other_types AsciiHost.host (lit "ORG") (lit "CHARSET=UTF-8"))
      as [E1 E2]; try discriminate.
    + exact (no_semi_text_check (lit "ORG") eq_refl).
    + exact (eq_trans E1 E2).
  - destruct (@label_of_other_types AsciiHost.host (lit "X-SKYPE") (lit "TYPE=home"))
      as [E1 E2]; try discriminate.
    + exact (no_semi_text_check (lit "X-SKYPE") eq_refl).
    + exact (eq_trans E1 E2).
  - destruct (@label_of_other_types AsciiHost.host (lit "constructor") [])
      as [_ E2]; try discriminate.
    + exact (no_semi_text_check (lit "constructor") eq_refl).
    + exact E2.
  - destruct (@label_of_other_types AsciiHost.host (lit "__proto__") (lit "X=1"))
      as [E1 E2]; try discriminate.
    + exact (no_semi_text_check (lit "__proto__") eq_refl).
    + exact (eq_trans E1 E2).
Defined.

(** X9 on a phone with two TYPE parameters. *)
Lemma label_of_typed_fields_witness :
  Dynamic.normalizeFieldName (lit "TEL;PREF=1;TYPE=cELL;TYPE=voice") = lit "Phone Cell".
Proof.
  exact (proj2 (@label_of_typed_fields AsciiHost.host (lit "TEL") (lit "Phone")
                  (or_introl eq_refl))
               [lit "PREF=1"] [lit "TYPE=voice"] (lit "cELL")
               (no_semi_check [lit "PREF=1"; lit "TYPE=cELL"; lit "TYPE=voice"] eq_refl)
               (Forall_cons (lit "PREF=1")
                  (eq_refl : startsWith (lit "TYPE=") (lit "PREF=1") = false)
                  (Forall_nil _))).
Defined.

(** ** Name lines with parameters, address lines, name keys *)

Section DynamicLines.
Context {H : Host}.

Lemma indexOf_prefix_none (c : char) (p s : str) :
  indexOf c p = None -> indexOf c s = None -> indexOf c (p ++ s) = None.
Proof.
  induction p as [|d p IH]; intros Hp Hs; [exact Hs|].
  cbn [app indexOf] in *. destruct (d =? c)%N; [discriminate|].
  destruct (indexOf c p); [discriminate|]. now rewrite IH.
Qed.

Lemma finalFieldName_prefix (label : str) (n : N) :
  exists suffix, Dynamic.finalFieldName label n = label ++ suffix.
Proof.
  unfold Dynamic.finalFieldName. destruct (1 <? n)%N.
  - now exists ([SPACE] ++ numberToString n).
  - exists []. now rewrite app_nil_r.
Qed.

(** X10: a full-name line with parameters (FN;...:value) is not a name line:
    the dynamic-schema loop stores its value under the label Full Name with
    the rule for repeats and leaves First Name and Last Name as they are, and
    the fixed-schema loop leaves the full name as it is. *)
Theorem full_name_with_parameters (line params rest : str) :
  trim line = lit "FN;" ++ params ++ COLON :: rest ->
  indexOf COLON params = None -> trim rest <> [] ->
  (forall st : Dynamic.State,
     Dynamic.step st line = Dynamic.assign st (lit "Full Name") (trim rest)
     /\ Dict.get (fst (Dynamic.step st line)) Dynamic.FIRST
        = Dict.get (fst st) Dynamic.FIRST
     /\ Dict.get (fst (Dynamic.step st line)) Dynamic.LAST
        = Dict.get (fst st) Dynamic.LAST)
  /\ (forall st : Fixed.Locals,
        Fixed.fullName (Fixed.step st line) = Fixed.fullName st).
Proof.
  intros Ht Hp Hv. split.
  - intros st.
    assert (Hstep : Dynamic.step st line
                    = Dynamic.assign st (lit "Full Name") (trim rest)).
    { rewrite (step_structured st line (lit "FN;" ++ params) rest).
      - unfold Dynamic.store.
        assert (E1 : str_eqb (lit "FN;" ++ params) (lit "FN") = false)
          by (apply str_eqb_neq; discriminate).
        assert (E2 : str_eqb (lit "FN;" ++ params) (lit "N") = false)
          by (apply str_eqb_neq; discriminate).
        assert (E3 : startsWith (lit "ADR") (lit "FN;" ++ params) = false)
          by reflexivity.
        rewrite E1, E2, E3.
        change (lit "FN;" ++ params) with (lit "FN" ++ SEMI :: params).
        destruct (normalizeFieldName_other (lit "FN") params) as [L1 L2];
          try discriminate.
        { repeat constructor; discriminate. }
        now rewrite L1, L2.
      - now rewrite Ht, <- app_assoc.
      - apply indexOf_prefix_none; [reflexivity | exact Hp].
      - rewrite Ht. apply not_skipped; discriminate.
      - exact Hv. }
    split; [exact Hstep|]. rewrite Hstep.
    destruct (assign_spec st (lit "Full Name") (trim rest)) as (Hkey & _ & _).
    cbv zeta in Hkey. rewrite Hkey.
    destruct (finalFieldName_prefix (lit "Full Name")
                (Dynamic.count (snd st) (lit "Full Name") + 1)) as [suffix ->].
    split; apply get_set_ne; discriminate.
  - intros st. rewrite Fixed_step_fullName, Ht. reflexivity.
Qed.

(** What the dynamic-schema loop does with a line whose field part starts
    with ADR. *)
Lemma step_ADR (st : Dynamic.State) (line params rest : str) :
  trim line = lit "ADR" ++ params ++ COLON :: rest ->
  indexOf COLON params = None -> trim rest <> [] ->
  Dynamic.step st line
  = let addrParts := filter (fun part => truthy (trim part)) (split SEMI (trim rest)) in
    if 0 <? length addrParts
    then Dynamic.assign st (Dynamic.normalizeFieldName (lit "ADR" ++ params))
                        (join (lit ", ") addrParts)
    else st.
Proof.
  intros Ht Hp Hv.
  rewrite (step_structured st line (lit "ADR" ++ params) rest).
  - unfold Dynamic.store.
    assert (E1 : str_eqb (lit "ADR" ++ params) (lit "FN") = false)
      by (apply str_eqb_neq; discriminate).
    assert (E2 : str_eqb (lit "ADR" ++ params) (lit "N") = false)
      by (apply str_eqb_neq; discriminate).
    now rewrite E1, E2, startsWith_app.
  - now rewrite Ht, <- app_assoc.
  - apply indexOf_prefix_none; [reflexivity | exact Hp].
  - rewrite Ht. apply not_skipped; discriminate.
  - exact Hv.
Qed.

(** X11: in dynamic-schema extraction a line whose field part starts with ADR
    and whose value is not empty stores the segments of the value that are
    not blank, joined with a comma and a space, under the label of the field
    part with the rule for repeats; when every segment is blank the line
    changes neither the contact nor the counts. *)
Theorem dynamic_address_lines (st : Dynamic.State) (line params rest : str) :
  trim line = lit "ADR" ++ params ++ COLON :: rest ->
  indexOf COLON params = None -> trim rest <> [] ->
  let addrParts := filter (fun part => truthy (trim part)) (split SEMI (trim rest)) in
  (addrParts = [] -> Dynamic.step st line = st)
  /\ (addrParts <> [] ->
      fst (Dynamic.step st line)
      = Dict.set (fst st)
          (Dynamic.finalFieldName
             (Dynamic.normalizeFieldName (lit "ADR" ++ params))
             (Dynamic.count (snd st) (Dynamic.normalizeFieldName (lit "ADR" ++ params)) + 1))
          (join (lit ", ") addrParts)).
Proof.
  intros Ht Hp Hv addrParts.
  rewrite (step_ADR st line params rest Ht Hp Hv). cbv zeta. fold addrParts.
  split.
  - intros ->. reflexivity.
  - intros Hne. destruct addrParts as [|a parts] eqn:Ea; [congruence|].
    cbn [length Nat.ltb Nat.leb].
    now destruct (assign_spec st (Dynamic.normalizeFieldName (lit "ADR" ++ params))
                    (join (lit ", ") (a :: parts))) as (Hkey & _ & _).
Qed.

(** X12: a full-name line (FN:) and a structured-name line (N:) write
    nothing but the keys First Name and Last Name and leave the counts of
    labels as they are. *)
Theorem name_lines_touch_names_only (st : Dynamic.State) (line rest : str) :
  trim line = lit "FN:" ++ rest \/ trim line = lit "N:" ++ rest ->
  snd (Dynamic.step st line) = snd st
  /\ forall k, k <> Dynamic.FIRST -> k <> Dynamic.LAST ->
               Dict.get (fst (Dynamic.step st line)) k = Dict.get (fst st) k.
Proof.
  intros Hline.
  destruct (list_eq_dec N.eq_dec (trim rest) []) as [Hv | Hv].
  { destruct Hline as [Ht | Ht].
    - rewrite (step_empty_value st line (lit "FN") rest Ht eq_refl Hv). tauto.
    - rewrite (step_empty_value st line (lit "N") rest Ht eq_refl Hv). tauto. }
  destruct Hline as [Ht | Ht].
  - rewrite (step_FN st line rest Ht Hv). cbn [fst snd]. split; [reflexivity|].
    intros k Hf Hl. now rewrite !get_set_ne by congruence.
  - rewrite (step_N st line rest Ht Hv), store_N. cbv zeta. cbn [fst snd].
    split; [reflexivity|]. intros k Hf Hl.
    repeat match goal with
           | |- context [if ?b then _ else _] => destruct b
           end;
      now rewrite ?get_set_ne by congruence.
Qed.

(** X13: doubling the double quotes loses nothing: two values with the same
    escaped text are the same value, so two different values never give the
    same cell. *)
Theorem escape_injective (a b : str) :
  Dynamic.escape a = Dynamic.escape b -> a = b.
Proof.
  revert b. induction a as [|c a IH]; intros [|d b] E.
  - reflexivity.
  - exfalso. unfold Dynamic.escape in E. cbn [flat_map] in E.
    destruct (d =? DQUOTE)%N; discriminate.
  - exfalso. unfold Dynamic.escape in E. cbn [flat_map] in E.
    destruct (c =? DQUOTE)%N; discriminate.
  - unfold Dynamic.escape in E. cbn [flat_map] in E.
    fold (Dynamic.escape a) in E. fold (Dynamic.escape b) in E.
    destruct (c =? DQUOTE)%N eqn:Ec, (d =? DQUOTE)%N eqn:Ed; cbn [app] in E.
    + apply N.eqb_eq in Ec, Ed. subst c d. injection E as E. f_equal. now apply IH.
    + injection E as E1 _. apply N.eqb_neq in Ed. congruence.
    + injection E as E1 _. apply N.eqb_neq in Ec. congruence.
    + injection E as -> E. f_equal. now apply IH.
Qed.

End DynamicLines.

(** X10 on a full name with a character-set parameter. *)
Lemma full_name_with_parameters_witness :
  Dynamic.step ([(Dynamic.FIRST, lit "Al")], []) (lit "FN;CHARSET=UTF-8:Bo Li")
  = ([(Dynamic.FIRST, lit "Al"); (lit "Full Name", lit "Bo Li")],
     [(lit "Full Name", 1%N)]).
Proof.
  exact (proj1 (proj1 (@full_name_with_parameters AsciiHost.host
                         (lit "FN;CHARSET=UTF-8:Bo Li") (lit "CHARSET=UTF-8")
                         (lit "Bo Li") eq_refl eq_refl ltac:(discriminate))
                      ([(Dynamic.FIRST, lit "Al")], []))).
Defined.

(** X11 on a home address with blank segments. *)
Lemma dynamic_address_lines_witness :
  fst (Dynamic.step Dynamic.initial (lit "ADR;TYPE=HOME:;;1 Main St;;Springfield"))
  = [(lit "Address Home", lit "1 Main St, Springfield")].
Proof.
  exact (proj2 (@dynamic_address_lines AsciiHost.host Dynamic.initial
                  (lit "ADR;TYPE=HOME:;;1 Main St;;Springfield") (lit ";TYPE=HOME")
                  (lit ";;1 Main St;;Springfield") eq_refl eq_refl
                  ltac:(discriminate))
               ltac:(discriminate)).
Defined.

(** X12 on a structured-name line met while a phone is already stored. *)
Lemma name_lines_touch_names_only_witness :
  Dict.get (fst (Dynamic.step ([(lit "Phone", lit "1")], [(lit "Phone", 1%N)])
                              (lit "N:Doe;John")))
           (lit "Phone")
  = Some (lit "1").
Proof.
  exact (proj2 (@name_lines_touch_names_only AsciiHost.host
                  ([(lit "Phone", lit "1")], [(lit "Phone", 1%N)])
                  (lit "N:Doe;John") (lit "Doe;John") (or_intror eq_refl))
               (lit "Phone") ltac:(discriminate) ltac:(discriminate)).
Defined.

(** X13 on a value with a quote. *)
Lemma escape_injective_witness :
  lit "a" ++ [DQUOTE] = lit "a" ++ [DQUOTE].
Proof.
  exact (escape_injective (lit "a" ++ [DQUOTE]) (lit "a" ++ [DQUOTE]) eq_refl).
Defined.

(** ** Saving the document *)

Lemma removeFirst_absent (p s : str) :
  includes p s = false -> UI.removeFirst p s = s.
Proof.
  induction s as [|c s IH]; cbn [includes UI.removeFirst]; intros E;
    apply orb_false_iff in E; destruct E as [E1 E2]; rewrite E1.
  - reflexivity.
  - now rewrite IH.
Qed.

Lemma startsWith_shorter (p s t : str) :
  startsWith p (s ++ t) = true -> length p <= length s -> startsWith p s = true.
Proof.
  revert s. induction p as [|a p IH]; intros s E Hlen; [reflexivity|].
  destruct s as [|b s]; [cbn in Hlen; lia|].
  cbn [app startsWith] in *. apply andb_prop in E. destruct E as [E1 E2].
  rewrite E1. cbn [andb]. apply (IH s E2). cbn [length] in Hlen. lia.
Qed.

Lemma removeFirst_here (p post : str) : UI.removeFirst p (p ++ post) = post.
Proof.
  destruct (p ++ post) eqn:E; cbn [UI.removeFirst];
    rewrite <- E, startsWith_app, skipn_app_length; reflexivity.
Qed.

(** The first occurrence of [p] is the one after [base] when [p] does not
    occur in [base] followed by [p] less its last character. *)
Lemma removeFirst_first (p base post : str) (c : char) (q : str) :
  p = q ++ [c] -> includes p (base ++ q) = false ->
  UI.removeFirst p (base ++ p ++ post) = base ++ post.
Proof.
  intros Hp. induction base as [|b base IH]; intros Hno.
  - cbn [app]. apply removeFirst_here.
  - cbn [app includes] in Hno. apply orb_false_iff in Hno. destruct Hno as [H1 H2].
    cbn [app UI.removeFirst].
    assert (Hnot : startsWith p (b :: base ++ p ++ post) = false).
    { destruct (startsWith p (b :: base ++ p ++ post)) eqn:E; [|reflexivity].
      exfalso.
      assert (Hcut : b :: base ++ p ++ post = (b :: base ++ q) ++ c :: post).
      { subst p. cbn [app]. now rewrite <- !app_assoc. }
      rewrite Hcut in E. apply startsWith_shorter in E.
      - cbn [app] in E. congruence.
      - subst p. cbn [length]. rewrite !length_app. cbn [length]. lia. }
    rewrite Hnot. f_equal. now apply IH.
Qed.

(** X14: the file name of the download is the name of the selected file
    without its first occurrence of .vcf, followed by _contacts.csv: a name
    base.vcf gives base_contacts.csv, and a name without .vcf in lower case,
    such as one ending in .VCF, is kept whole. *)
Theorem download_filename :
  (forall name : str,
     includes (lit ".vcf") name = false ->
     UI.filename (Some name) = name ++ lit "_contacts.csv")
  /\ (forall base post : str,
        includes (lit ".vcf") (base ++ lit ".vc") = false ->
        UI.filename (Some (base ++ lit ".vcf" ++ post))
        = base ++ post ++ lit "_contacts.csv").
Proof.
  split.
  - intros name Hno. unfold UI.filename. now rewrite removeFirst_absent.
  - intros base post Hno. unfold UI.filename.
    rewrite (removeFirst_first (lit ".vcf") base post 102%N (lit ".vc") eq_refl Hno).
    now rewrite <- app_assoc.
Qed.

(** X14 on a plain name, on a name in upper case and on a name that holds
    .vcf twice. *)
Lemma download_filename_witness :
  UI.filename (Some (lit "friends.vcf")) = lit "friends_contacts.csv"
  /\ UI.filename (Some (lit "FRIENDS.VCF")) = lit "FRIENDS.VCF_contacts.csv"
  /\ UI.filename (Some (lit "a.vcf.old.vcf")) = lit "a.old.vcf_contacts.csv".
Proof.
  destruct download_filename as [Habsent Hfirst].
  split; [|split].
  - exact (Hfirst (lit "friends") [] eq_refl).
  - exact (Habsent (lit "FRIENDS.VCF") eq_refl).
  - exact (Hfirst (lit "a") (lit ".old.vcf") eq_refl).
Defined.

Lemma truthy_join_head (sep x : str) (rest : list str) :
  truthy x = true -> truthy (join sep (x :: rest)) = true.
Proof.
  intros Hx. destruct rest; [exact Hx|].
  rewrite join_cons by discriminate. destruct x; [discriminate | reflexivity].
Qed.

(** X15: after a conversion, saving depends on the revision of the
    converter.  The fixed-schema document is never empty, so it is always
    downloaded, even for a file without any card; the dynamic-schema
    conversion of a file never throws; its document for a file without marker
    is the empty text, which [handleSave] takes for no document at all and
    refuses with a toast, and it is downloaded as soon as the file holds one
    marker. *)
Theorem save_after_conversion (selectedFile : option str) (vcfContent : str) :
  UI.handleSave selectedFile (Fixed.convertToCSV (Fixed.parseVCF vcfContent))
  = [UI.Download (Fixed.convertToCSV (Fixed.parseVCF vcfContent))
                 (UI.filename selectedFile);
     UI.Toast (lit "File saved") (lit "CSV file has been downloaded") false]
  /\ (forall H : Host,
        (Spec.countMarkers vcfContent = 0 ->
         Dynamic.convertToCSV (Dynamic.parseVCF vcfContent) = Proto.Ok []
         /\ UI.handleSave selectedFile []
            = [UI.Toast (lit "No CSV data") (lit "Please convert a VCF file first") true])
        /\ (Spec.countMarkers vcfContent <> 0 ->
            exists csvContent,
              Dynamic.convertToCSV (Dynamic.parseVCF vcfContent) = Proto.Ok csvContent
              /\ UI.handleSave selectedFile csvContent
                 = [UI.Download csvContent (UI.filename selectedFile);
                    UI.Toast (lit "File saved") (lit "CSV file has been downloaded")
                             false])).
Proof.
  split.
  - unfold UI.handleSave. rewrite Fixed_convertToCSV_map.
    now rewrite truthy_join_head by reflexivity.
  - intros H. split.
    + intros Hzero.
      assert (E : Dynamic.parseVCF vcfContent = []).
      { rewrite Dynamic_parseVCF_map.
        pose proof (blocks_length vcfContent) as Hlen. rewrite Hzero in Hlen.
        now destruct (slice1 (splitMarker vcfContent)). }
      rewrite E. split; reflexivity.
    + intros Hm.
      rewrite (convertToCSV_readable _ (plain_readable _ (parseVCF_plain vcfContent))).
      cbv zeta. eexists. split; [reflexivity|].
      unfold UI.handleSave.
      assert (Hshape : exists rest,
                 Dynamic.sort Dynamic.compareFields
                   (Dynamic.collect (Dynamic.parseVCF vcfContent))
                 = Dynamic.FIRST :: rest).
      { rewrite sortedFields_shape.
        destruct (collect_union (Dynamic.parseVCF vcfContent)) as [_ Hin].
        assert (E1 : existsb (str_eqb Dynamic.FIRST)
                       (Dynamic.collect (Dynamic.parseVCF vcfContent)) = true).
        { apply existsb_str_eqb, Hin. rewrite Dynamic_parseVCF_map.
          pose proof (blocks_length vcfContent) as Hlen.
          destruct (slice1 (splitMarker vcfContent)) as [|b bs];
            [cbn in Hlen; lia|].
          exists (Dynamic.parseVCard (MARKER ++ b)). split; [now left|].
          unfold Dynamic.parseVCard. apply finish_names. }
        rewrite E1. cbn [app]. eauto. }
      destruct Hshape as [rest ->].
      now rewrite truthy_join_head by (apply truthy_join_head; reflexivity).
Qed.

(** X15 on a file without card and on a file with one card. *)
Lemma save_after_conversion_witness :
  (@Dynamic.convertToCSV AsciiHost.host (Dynamic.parseVCF (lit "no card here"))
   = Proto.Ok []
   /\ UI.handleSave (Some (lit "empty.vcf")) []
      = [UI.Toast (lit "No CSV data") (lit "Please convert a VCF file first") true])
  /\ exists csvContent,
       @Dynamic.convertToCSV AsciiHost.host (Dynamic.parseVCF (lit "BEGIN:VCARD"))
       = Proto.Ok csvContent
       /\ UI.handleSave (Some (lit "one.vcf")) csvContent
          = [UI.Download csvContent (UI.filename (Some (lit "one.vcf")));
             UI.Toast (lit "File saved") (lit "CSV file has been downloaded") false].
Proof.
  split.
  - exact (proj1 (proj2 (save_after_conversion (Some (lit "empty.vcf"))
                           (lit "no card here")) AsciiHost.host) eq_refl).
  - exact (proj2 (proj2 (save_after_conversion (Some (lit "one.vcf"))
                           (lit "BEGIN:VCARD")) AsciiHost.host) ltac:(discriminate)).
Defined.

(** ** Slots that are full, cells that are empty *)

Lemma phonesOf_app (pre post : list str) :
  Fixed.phonesOf (pre ++ post) = Fixed.phonesOf pre ++ Fixed.phonesOf post.
Proof. unfold Fixed.phonesOf. apply flat_map_app. Qed.

Lemma emailsOf_app (pre post : list str) :
  Fixed.emailsOf (pre ++ post) = Fixed.emailsOf pre ++ Fixed.emailsOf post.
Proof. unfold Fixed.emailsOf. apply flat_map_app. Qed.

Lemma Fixed_slots (lines : list str) :
  let contact := Fixed.finish (Fixed.run lines) in
  (Fixed.phone1 contact, Fixed.phone2 contact, Fixed.phone3 contact)
  = (nth 0 (Fixed.phonesOf lines) [], nth 1 (Fixed.phonesOf lines) [],
     nth 2 (Fixed.phonesOf lines) [])
  /\ (Fixed.email1 contact, Fixed.email2 contact, Fixed.email3 contact)
     = (nth 0 (Fixed.emailsOf lines) [], nth 1 (Fixed.emailsOf lines) [],
        nth 2 (Fixed.emailsOf lines) []).
Proof.
  cbv zeta. unfold Fixed.run.
  destruct (Fixed_run_lists lines Fixed.initial) as [Hp He].
  cbn [Fixed.initial Fixed.phoneNumbers Fixed.emails app] in Hp, He.
  unfold Fixed.finish. destruct (parseName _).
  cbn [Fixed.phone1 Fixed.phone2 Fixed.phone3 Fixed.email1 Fixed.email2 Fixed.email3].
  rewrite Hp, He, !orEmpty_at. split; reflexivity.
Qed.

(** X16: in fixed-schema extraction, once three phones (emails) are collected
    no later line of the block changes the three phone (email) slots. *)
Theorem full_slots_are_final (pre post : list str) :
  (3 <= length (Fixed.phonesOf pre) ->
   (Fixed.phone1 (Fixed.finish (Fixed.run (pre ++ post))),
    Fixed.phone2 (Fixed.finish (Fixed.run (pre ++ post))),
    Fixed.phone3 (Fixed.finish (Fixed.run (pre ++ post))))
   = (Fixed.phone1 (Fixed.finish (Fixed.run pre)),
      Fixed.phone2 (Fixed.finish (Fixed.run pre)),
      Fixed.phone3 (Fixed.finish (Fixed.run pre))))
  /\ (3 <= length (Fixed.emailsOf pre) ->
      (Fixed.email1 (Fixed.finish (Fixed.run (pre ++ post))),
       Fixed.email2 (Fixed.finish (Fixed.run (pre ++ post))),
       Fixed.email3 (Fixed.finish (Fixed.run (pre ++ post))))
      = (Fixed.email1 (Fixed.finish (Fixed.run pre)),
         Fixed.email2 (Fixed.finish (Fixed.run pre)),
         Fixed.email3 (Fixed.finish (Fixed.run pre)))).
Proof.
  destruct (Fixed_slots (pre ++ post)) as [Hp He].
  destruct (Fixed_slots pre) as [Hp' He'].
  cbv zeta in *. split; intros Hlen.
  - rewrite Hp, Hp', phonesOf_app, !app_nth1 by lia. reflexivity.
  - rewrite He, He', emailsOf_app, !app_nth1 by lia. reflexivity.
Qed.

(** X16 on a block with a fourth phone. *)
Lemma full_slots_are_final_witness :
  (Fixed.phone1 (Fixed.finish (Fixed.run
     (map lit ["TEL:1"; "TEL:2"; "TEL:3"]%string ++ map lit ["TEL:4"; "FN:A"]%string))),
   Fixed.phone2 (Fixed.finish (Fixed.run
     (map lit ["TEL:1"; "TEL:2"; "TEL:3"]%string ++ map lit ["TEL:4"; "FN:A"]%string))),
   Fixed.phone3 (Fixed.finish (Fixed.run
     (map lit ["TEL:1"; "TEL:2"; "TEL:3"]%string ++ map lit ["TEL:4"; "FN:A"]%string))))
  = (Fixed.phone1 (Fixed.finish (Fixed.run (map lit ["TEL:1"; "TEL:2"; "TEL:3"]%string))),
     Fixed.phone2 (Fixed.finish (Fixed.run (map lit ["TEL:1"; "TEL:2"; "TEL:3"]%string))),
     Fixed.phone3 (Fixed.finish (Fixed.run (map lit ["TEL:1"; "TEL:2"; "TEL:3"]%string)))).
Proof.
  exact (proj1 (full_slots_are_final (map lit ["TEL:1"; "TEL:2"; "TEL:3"]%string)
                  (map lit ["TEL:4"; "FN:A"]%string))
               (le_n 3)).
Defined.

Section DynamicValues.
Context {H : Host}.

Lemma join_not_empty (sep p : str) (ps : list str) :
  p <> [] -> join sep (p :: ps) <> [].
Proof.
  intros Hp. destruct ps; [exact Hp|]. rewrite join_cons by discriminate.
  destruct p; [congruence | discriminate].
Qed.

Lemma store_values (st : Dynamic.State) (fieldPart value : str) :
  value <> [] ->
  (forall k v, Dict.get (fst st) k = Some v ->
               k = Dynamic.FIRST \/ k = Dynamic.LAST \/ v <> []) ->
  forall k v, Dict.get (fst (Dynamic.store st fieldPart value)) k = Some v ->
              k = Dynamic.FIRST \/ k = Dynamic.LAST \/ v <> [].
Proof.
  intros Hv Hinv k v. unfold Dynamic.store.
  assert (Hassign : forall label x,
             x <> [] ->
             Dict.get (fst (Dynamic.assign st label x)) k = Some v ->
             k = Dynamic.FIRST \/ k = Dynamic.LAST \/ v <> []).
  { intros label x Hx. destruct (assign_spec st label x) as (Hkey & _ & _).
    cbv zeta in Hkey. rewrite Hkey. intros E.
    apply get_set_cases in E. destruct E as [[_ ->] | E]; [tauto | eauto]. }
  destruct (str_eqb fieldPart (lit "FN")).
  { destruct (parseName value) as [f l]. cbn [fst]. intros E.
    apply get_set_cases in E. destruct E as [[-> _] | E]; [tauto|].
    apply get_set_cases in E. destruct E as [[-> _] | E]; [tauto | eauto]. }
  destruct (str_eqb fieldPart (lit "N")).
  { cbv zeta. cbn [fst]. intros E.
    repeat match type of E with
           | context [if ?b then _ else _] => destruct b
           end;
      repeat match type of E with
             | Dict.get (Dict.set _ _ _) _ = Some _ =>
                 apply get_set_cases in E; destruct E as [[-> _] | E]; [tauto|]
             end; eauto. }
  destruct (startsWith (lit "ADR") fieldPart).
  { cbv zeta.
    destruct (filter (fun part => truthy (trim part)) (split SEMI value))
      as [|p ps] eqn:Ef; cbn [length Nat.ltb Nat.leb]; [eauto|].
    apply Hassign. apply join_not_empty.
    assert (Hin : In p (filter (fun part => truthy (trim part)) (split SEMI value)))
      by (rewrite Ef; now left).
    apply filter_In in Hin. destruct Hin as [_ Hp].
    intros ->. discriminate. }
  now apply Hassign.
Qed.

(** X17: in a record of the dynamic-schema extractor only First Name and Last
    Name can hold the empty string: every other key holds a value that is not
    empty, so that an empty cell in another column of the document always
    means that the record lacks the key. *)
Theorem only_names_can_be_empty (block k v : str) :
  Dict.get (Dynamic.parseVCard block) k = Some v ->
  k = Dynamic.FIRST \/ k = Dynamic.LAST \/ v <> [].
Proof.
  unfold Dynamic.parseVCard, Dynamic.run.
  assert (Hfold : forall lines st,
             (forall k v, Dict.get (fst st) k = Some v ->
                          k = Dynamic.FIRST \/ k = Dynamic.LAST \/ v <> []) ->
             forall k v, Dict.get (fst (fold_left Dynamic.step lines st)) k = Some v ->
                         k = Dynamic.FIRST \/ k = Dynamic.LAST \/ v <> []).
  { induction lines as [|line lines IH]; intros st Hinv; [exact Hinv|].
    cbn [fold_left]. apply IH.
    destruct (step_cases st line) as [-> | (fp & value & Hv & ->)];
      [exact Hinv | now apply store_values]. }
  unfold Dynamic.finish. cbv zeta. intros E.
  repeat match type of E with
         | context [if ?b then _ else _] => destruct b
         end;
    repeat match type of E with
           | Dict.get (Dict.set _ _ _) _ = Some _ =>
               apply get_set_cases in E; destruct E as [[-> _] | E]; [tauto|]
           end;
    (eapply Hfold; [|exact E]); cbn; discriminate.
Qed.

End DynamicValues.

(** X17 on the phone of a card. *)
Lemma only_names_can_be_empty_witness :
  lit "Phone" = Dynamic.FIRST \/ lit "Phone" = Dynamic.LAST \/ lit "1" <> [].
Proof.
  exact (@only_names_can_be_empty AsciiHost.host
           (card ["BEGIN:VCARD"; "TEL:1"; "END:VCARD"]%string)
           (lit "Phone") (lit "1") eq_refl).
Defined.
